(** * voropy: triangular meshes, flat-cell correction and Delaunay edge flips

    A shallow embedding of [voropy/mesh_tri.py].  numpy arrays of floats are
    lists of IEEE-754 binary64 numbers (Rocq's primitive floats), index
    arrays are lists of natural numbers, Python exceptions are values of
    [exn], and the mutable [MeshTri] object is a record that every method
    takes and returns. *)

From Stdlib Require Import Floats List ZArith Lia Bool Arith PeanoNat Permutation Sorted.
Import ListNotations.

Set Implicit Arguments.

(* ------------------------------------------------------------------ *)
(** ** Exceptions and fallible pure computations *)

Inductive exn : Type :=
| AssertionError
| IndexError
| ValueError
| KeyError
| TypeError
| AttributeError.

Inductive res (A : Type) : Type :=
| Ret (a : A)
| Err (e : exn).

Arguments Ret {A} a.
Arguments Err {A} e.

Definition rbind {A B : Type} (r : res A) (k : A -> res B) : res B :=
  match r with
  | Ret a => k a
  | Err e => Err e
  end.

Declare Scope res_scope.
Delimit Scope res_scope with res.

Notation "x <~ c ;; k" := (rbind c (fun x => k))
  (at level 61, c at next level, right associativity) : res_scope.
Notation "' p <~ c ;; k" := (rbind c (fun x => match x with p => k end))
  (at level 61, p pattern, c at next level, right associativity) : res_scope.

Open Scope res_scope.

(** [assert b] of Python. *)
Definition py_assert (b : bool) : res unit :=
  if b then Ret tt else Err AssertionError.

Fixpoint rmap {A B : Type} (f : A -> res B) (l : list A) : res (list B) :=
  match l with
  | [] => Ret []
  | x :: t => y <~ f x ;; ys <~ rmap f t ;; Ret (y :: ys)
  end.

(* ------------------------------------------------------------------ *)
(** ** Arrays of shape (3, n) and (n, 3) *)

Record tri (A : Type) : Type := Tri { t0 : A; t1 : A; t2 : A }.

Arguments Tri {A} t0 t1 t2.

(** Local indices are always 0, 1 or 2 in the source: they come out of
    [numpy.where] on an array with three rows or out of [% 3]. *)
Definition tget {A : Type} (k : nat) (t : tri A) : A :=
  match k with
  | 0 => t0 t
  | 1 => t1 t
  | _ => t2 t
  end.

Definition tset {A : Type} (k : nat) (x : A) (t : tri A) : tri A :=
  match k with
  | 0 => Tri x (t1 t) (t2 t)
  | 1 => Tri (t0 t) x (t2 t)
  | _ => Tri (t0 t) (t1 t) x
  end.

Definition tmap {A B : Type} (f : A -> B) (t : tri A) : tri B :=
  Tri (f (t0 t)) (f (t1 t)) (f (t2 t)).

Definition tmap2 {A B C : Type} (f : A -> B -> C) (s : tri A) (t : tri B) : tri C :=
  Tri (f (t0 s) (t0 t)) (f (t1 s) (t1 t)) (f (t2 s) (t2 t)).

Definition tlist {A : Type} (t : tri A) : list A := [t0 t; t1 t; t2 t].

Definition trmap {A B : Type} (f : A -> res B) (t : tri A) : res (tri B) :=
  a <~ f (t0 t) ;; b <~ f (t1 t) ;; c <~ f (t2 t) ;; Ret (Tri a b c).

Definition map2 {A B C : Type} (f : A -> B -> C) (l : list A) (l' : list B) : list C :=
  map (fun p => f (fst p) (snd p)) (combine l l').

(** [a.T] for [a] of shape (n, 3). *)
Definition transpose_n3 {A : Type} (l : list (tri A)) : tri (list A) :=
  Tri (map (@t0 A) l) (map (@t1 A) l) (map (@t2 A) l).

(** [a.T] for [a] of shape (3, n). *)
Definition transpose_3n {A : Type} (t : tri (list A)) : list (tri A) :=
  map2 (fun a bc => Tri a (fst bc) (snd bc)) (t0 t) (combine (t1 t) (t2 t)).

(** C-order flattening of a (3, n) array and of an (n, 3) array. *)
Definition flat_3n {A : Type} (t : tri (list A)) : list A :=
  t0 t ++ t1 t ++ t2 t.

Definition flat_n3 {A : Type} (l : list (tri A)) : list A :=
  flat_map (@tlist A) l.

(** [l.reshape(3, -1)] for a flat array of length [3 * n]. *)
Definition reshape_3n {A : Type} (n : nat) (l : list A) : tri (list A) :=
  Tri (firstn n l) (firstn n (skipn n l)) (skipn (2 * n) l).

(* ------------------------------------------------------------------ *)
(** ** numpy indexing *)

(** [a[i]] *)
Definition getitem {A : Type} (l : list A) (i : nat) : res A :=
  match nth_error l i with
  | Some x => Ret x
  | None => Err IndexError
  end.

(** [a[idx]] for an integer index array [idx] *)
Definition take {A : Type} (l : list A) (idx : list nat) : res (list A) :=
  rmap (getitem l) idx.

Fixpoint mask_aux {A : Type} (l : list A) (mask : list bool) : list A :=
  match l, mask with
  | x :: t, b :: m => if b then x :: mask_aux t m else mask_aux t m
  | _, _ => []
  end.

(** [a[mask]] for a boolean array [mask]: the lengths have to agree. *)
Definition mask_select {A : Type} (l : list A) (mask : list bool) : res (list A) :=
  if length l =? length mask then Ret (mask_aux l mask) else Err IndexError.

Fixpoint where_from (i : nat) (mask : list bool) : list nat :=
  match mask with
  | [] => []
  | b :: m => if b then i :: where_from (S i) m else where_from (S i) m
  end.

(** [numpy.where(mask)[0]] *)
Definition np_where (mask : list bool) : list nat := where_from 0 mask.

Fixpoint upd {A : Type} (l : list A) (i : nat) (x : A) : list A :=
  match l, i with
  | [], _ => []
  | _ :: t, 0 => x :: t
  | y :: t, S j => y :: upd t j x
  end.

(** [a[i] = x] *)
Definition setitem {A : Type} (l : list A) (i : nat) (x : A) : res (list A) :=
  if i <? length l then Ret (upd l i x) else Err IndexError.

(** [a[idx] = vals] with an integer index array: assignments happen in
    order, so a repeated index keeps the last value. *)
Fixpoint put_aux {A : Type} (l : list A) (iv : list (nat * A)) : res (list A) :=
  match iv with
  | [] => Ret l
  | (i, v) :: t => l' <~ setitem l i v ;; put_aux l' t
  end.

Definition put {A : Type} (l : list A) (idx : list nat) (vals : list A) : res (list A) :=
  if length idx =? length vals then put_aux l (combine idx vals) else Err ValueError.

(** [a[idx] = x] with one scalar broadcast to every index. *)
Definition put_const {A : Type} (l : list A) (idx : list nat) (x : A) : res (list A) :=
  put_aux l (map (fun i => (i, x)) idx).

(** [numpy.all], [numpy.any], [sum] of a boolean array. *)
Definition np_all (l : list bool) : bool := forallb (fun b => b) l.
Definition np_any (l : list bool) : bool := existsb (fun b => b) l.
Definition count_true (l : list bool) : nat := length (filter (fun b => b) l).

(* ------------------------------------------------------------------ *)
(** ** Sorting and deduplication *)

Fixpoint insert_uniq {A : Type} (cmp : A -> A -> comparison) (x : A) (l : list A) : list A :=
  match l with
  | [] => [x]
  | y :: t =>
      match cmp x y with
      | Lt => x :: l
      | Eq => l
      | Gt => y :: insert_uniq cmp x t
      end
  end.

Definition sort_uniq {A : Type} (cmp : A -> A -> comparison) (l : list A) : list A :=
  fold_right (insert_uniq cmp) [] l.

Fixpoint index_of {A : Type} (eqb : A -> A -> bool) (x : A) (l : list A) : nat :=
  match l with
  | [] => 0
  | y :: t => if eqb x y then 0 else S (index_of eqb x t)
  end.

Definition count_eq {A : Type} (eqb : A -> A -> bool) (x : A) (l : list A) : nat :=
  length (filter (eqb x) l).

(** [numpy.unique(a, return_counts=True)] of a flat integer array. *)
Definition np_unique (l : list nat) : list nat * list nat :=
  let u := sort_uniq Nat.compare l in
  (u, map (fun x => count_eq Nat.eqb x l) u).

(** Stable insertion of a (key, position) pair. *)
Fixpoint insert_key (kx : nat * nat) (l : list (nat * nat)) : list (nat * nat) :=
  match l with
  | [] => [kx]
  | ky :: t => if fst ky <=? fst kx then ky :: insert_key kx t else kx :: l
  end.

(** A stable [numpy.argsort(a)]: the positions of [a] in ascending order
    of the entries, equal entries in their original order. *)
Definition np_argsort (l : list nat) : list nat :=
  map snd (fold_left (fun acc kx => insert_key kx acc)
                     (combine l (seq 0 (length l))) []).

Definition pair_compare (p q : nat * nat) : comparison :=
  match Nat.compare (fst p) (fst q) with
  | Eq => Nat.compare (snd p) (snd q)
  | c => c
  end.

Definition pair_eqb (p q : nat * nat) : bool :=
  (fst p =? fst q) && (snd p =? snd q).

(** [numpy.sort] of one row of two entries. *)
Definition sort2 (p : nat * nat) : nat * nat :=
  if fst p <=? snd p then p else (snd p, fst p).

(* ------------------------------------------------------------------ *)
(** ** Floating-point vectors *)

(** One row of a coordinate array. *)
Definition point : Type := list float.

Definition vadd (p q : point) : point := map2 PrimFloat.add p q.
Definition vsub (p q : point) : point := map2 PrimFloat.sub p q.
Definition vscale (s : float) (p : point) : point := map (PrimFloat.mul s) p.
Definition vdiv (p : point) (s : float) : point := map (fun x => x / s)%float p.

(** Sum of products of one row, accumulated from left to right as
    [numpy.einsum("ij, ij->i", a, b)] does for the short rows used here. *)
Definition dot (p q : point) : float := fold_left PrimFloat.add (map2 PrimFloat.mul p q) 0%float.

Definition rows_add (a b : list point) : list point := map2 vadd a b.
Definition rows_sub (a b : list point) : list point := map2 vsub a b.
Definition rows_scale (s : list float) (a : list point) : list point := map2 vscale s a.

Definition fsum (l : list float) : float := fold_left PrimFloat.add l 0%float.

(** Broadcasting of two one-dimensional arrays. *)
Definition bcast2 (f : float -> float -> float) (a b : list float) : res (list float) :=
  if length a =? length b then Ret (map2 f a b)
  else if length a =? 1 then Ret (map (f (hd 0%float a)) b)
  else if length b =? 1 then Ret (map (fun x => f x (hd 0%float b)) a)
  else Err ValueError.

(** [numpy.linalg.norm(a)] of a matrix: the Frobenius norm. *)
Definition frobenius (a : list point) : float :=
  let x := concat a in PrimFloat.sqrt (dot x x).

Definition zeros (n : nat) : list float := repeat 0%float n.

Fixpoint add_at_aux (target : list float) (iv : list (nat * float)) : res (list float) :=
  match iv with
  | [] => Ret target
  | (i, v) :: t =>
      x <~ getitem target i ;;
      add_at_aux (upd target i (x + v)%float) t
  end.

(** [numpy.add.at(target, idx, vals)] and [fastfunc.add.at]: unbuffered,
    in the order of the flattened index array, so that repeated indices
    accumulate. *)
Definition add_at (target : list float) (idx : list nat) (vals : list float) : res (list float) :=
  if length idx =? length vals then add_at_aux target (combine idx vals)
  else Err ValueError.

Fixpoint add_at_rows_aux (target : list point) (iv : list (nat * point)) : res (list point) :=
  match iv with
  | [] => Ret target
  | (i, v) :: t =>
      x <~ getitem target i ;;
      add_at_rows_aux (upd target i (vadd x v)) t
  end.

(** The same for a target of shape (N, d) and values of shape (..., d). *)
Definition add_at_rows (target : list point) (idx : list nat) (vals : list point) : res (list point) :=
  if length idx =? length vals then add_at_rows_aux target (combine idx vals)
  else Err ValueError.

Definition tol_isosceles : float := 0x1.6849b86a12b9bp-47%float.  (* 1.0e-14 *)
Definition tol_symmetry : float := 0x1.b7cdfd9d7bdbbp-34%float.   (* 1.0e-10 *)

(* ------------------------------------------------------------------ *)
(** ** Helpers of [voropy.helpers] *)

(** Modelled from the spec: [unique_rows] lives in [voropy/helpers.py],
    which is not among the sources.  Section 6 gives its contract,
    [uniqueRowsWithInverseAndCounts(rows) -> (uniqueRows, inverseIndices,
    counts)], and section 4.1 asks for a sorted, deduplicated table with one
    row per distinct node pair. *)
Definition unique_rows (a : list (nat * nat)) : list (nat * nat) * list nat * list nat :=
  let u := sort_uniq pair_compare a in
  (u, map (fun x => index_of pair_eqb x u) a, map (fun x => count_eq pair_eqb x a) u).

Fixpoint grp_aux (start len : nat) (cur : nat) (l : list nat) : list (nat * nat) :=
  match l with
  | [] => [(start, len)]
  | x :: t =>
      if x =? cur then grp_aux start (S len) cur t
      else (start, len) :: grp_aux (start + len) 1 x t
  end.

(** Modelled from the spec: [grp_start_len] lives in [voropy/helpers.py],
    which is not among the sources.  Section 4.1 (d) needs, for the sorted
    array of edge ids, where each group of equal ids starts and how many
    entries it has; that is what this returns. *)
Definition grp_start_len (l : list nat) : list nat * list nat :=
  match l with
  | [] => ([], [])
  | x :: t => split (grp_aux 0 1 x t)
  end.

(* ------------------------------------------------------------------ *)
(** ** The geometry kernel and the flat cell corrector *)

Definition map3 {A B C D : Type} (f : A -> B -> C -> D)
    (a : list A) (b : list B) (c : list C) : list D :=
  map2 (fun x yz => f x (fst yz) (snd yz)) a (combine b c).

(** Python's [abs] and the comparison [<] on floats. *)
Definition fabs (x : float) : float := PrimFloat.abs x.

Record FlatCellCorrector : Type := {
  fc_cells : list (tri nat);
  flat_edge_local_id : list nat;
  fc_node_coords : list point;
  p0_local_id : list nat;
  p1_local_id : list nat;
  p2_local_id : list nat;
  p0_id : list nat;
  p1_id : list nat;
  p2_id : list nat;
  p0 : list point;
  p1 : list point;
  p2 : list point;
  q : list point;
  ce_ratios1 : list float * list float;
  ce_ratios2 : list float * list float;
  ghostedge_length_2 : list float
}.

(** [_mirror_point] *)
Definition _mirror_point (p0 p1 p2 : list point) : list point * list point :=
  if length p0 =? 0 then ([], [])
  else
    let alpha := map2 PrimFloat.div (map2 dot (rows_sub p0 p1) (rows_sub p2 p1))
                          (map2 dot (rows_sub p2 p1) (rows_sub p2 p1)) in
    let q := rows_add p1 (rows_scale alpha (rows_sub p2 p1)) in
    let p0d := rows_sub (map (vscale 2%float) q) p0 in
    (p0d, q).

(** [cells[i, lid]] with [i = range(len(cells))] *)
Definition pick_local (cells : list (tri nat)) (lid : list nat) : res (list nat) :=
  if length cells =? length lid then Ret (map2 (fun c k => tget k c) cells lid)
  else Err IndexError.

(* ------------------------------------------------------------------ *)
(** ** The mesh object *)

(** The [flat_cell_correction] argument: ["full"], ["boundary"], or any
    other value that is not [None]. *)
Inductive fcc_mode : Type := Full | Boundary | OtherMode.

Definition is_full (t : option fcc_mode) : bool :=
  match t with
  | Some Full => true
  | _ => false
  end.

(** The attributes of a [MeshTri].  A cached quantity that is [None] in
    Python is [None] here; [cells_nodes] and [cells_edges] are the entries
    ["nodes"] and ["edges"] of the dictionary [self.cells], [edges] is the
    entry ["nodes"] of [self.edges]; [regular_cells = None] stands for the
    slice [numpy.s_[:]].  [is_boundary_edge_individual] and [fcc_cells] are
    attributes that exist only once they have been assigned. *)
Record MeshTri : Type := {
  node_coords : list point;
  _edge_lengths : option (tri (list float));
  cells_nodes : list (tri nat);
  cells_edges : option (list (tri nat));
  _interior_ce_ratios : option (list float);
  _control_volumes : option (list float);
  _cell_partitions : option (tri (list float));
  _cv_centroids : option (list point);
  _surface_areas : option (list (tri (tri nat)) * list (tri (tri float)));
  edges : option (list (nat * nat));
  cell_circumcenters : option (list point);
  _signed_tri_areas : option (list float);
  subdomains : list (nat * list nat);
  is_boundary_node : option (list bool);
  is_boundary_edge : option (tri (list bool));
  is_boundary_face : option (tri (list bool));
  _interior_edge_lengths : option (list float);
  _ce_ratios : option (list float);
  _edges_cells : option (list nat * list (nat * nat));
  _edge_gid_to_edge_list : option (list (nat * nat));
  _edge_to_edge_gid : option (list nat * list nat);
  _centroids : option (list point);
  is_boundary_edge_individual : option (list bool);
  idx_hierarchy : tri (list nat) * tri (list nat);
  half_edge_coords : tri (list point);
  ei_dot_ej : tri (list float);
  ei_dot_ei : tri (list float);
  cell_volumes : list float;
  ce_ratios_per_half_edge : tri (list float);
  fcc_type : option fcc_mode;
  fcc : option FlatCellCorrector;
  regular_cells : option (list nat);
  fcc_cells : option (list nat)
}.

Definition set_node_coords (v : list point) (m : MeshTri) : MeshTri :=
  {| node_coords := v; _edge_lengths := _edge_lengths m;
     cells_nodes := cells_nodes m; cells_edges := cells_edges m;
     _interior_ce_ratios := _interior_ce_ratios m;
     _control_volumes := _control_volumes m;
     _cell_partitions := _cell_partitions m;
     _cv_centroids := _cv_centroids m; _surface_areas := _surface_areas m;
     edges := edges m; cell_circumcenters := cell_circumcenters m;
     _signed_tri_areas := _signed_tri_areas m; subdomains := subdomains m;
     is_boundary_node := is_boundary_node m;
     is_boundary_edge := is_boundary_edge m;
     is_boundary_face := is_boundary_face m;
     _interior_edge_lengths := _interior_edge_lengths m;
     _ce_ratios := _ce_ratios m; _edges_cells := _edges_cells m;
     _edge_gid_to_edge_list := _edge_gid_to_edge_list m;
     _edge_to_edge_gid := _edge_to_edge_gid m; _centroids := _centroids m;
     is_boundary_edge_individual := is_boundary_edge_individual m;
     idx_hierarchy := idx_hierarchy m;
     half_edge_coords := half_edge_coords m; ei_dot_ej := ei_dot_ej m;
     ei_dot_ei := ei_dot_ei m; cell_volumes := cell_volumes m;
     ce_ratios_per_half_edge := ce_ratios_per_half_edge m;
     fcc_type := fcc_type m; fcc := fcc m; regular_cells := regular_cells m;
     fcc_cells := fcc_cells m |}.

Definition set__edge_lengths (v : option (tri (list float))) (m : MeshTri) : MeshTri :=
  {| node_coords := node_coords m; _edge_lengths := v;
     cells_nodes := cells_nodes m; cells_edges := cells_edges m;
     _interior_ce_ratios := _interior_ce_ratios m;
     _control_volumes := _control_volumes m;
     _cell_partitions := _cell_partitions m;
     _cv_centroids := _cv_centroids m; _surface_areas := _surface_areas m;
     edges := edges m; cell_circumcenters := cell_circumcenters m;
     _signed_tri_areas := _signed_tri_areas m; subdomains := subdomains m;
     is_boundary_node := is_boundary_node m;
     is_boundary_edge := is_boundary_edge m;
     is_boundary_face := is_boundary_face m;
     _interior_edge_lengths := _interior_edge_lengths m;
     _ce_ratios := _ce_ratios m; _edges_cells := _edges_cells m;
     _edge_gid_to_edge_list := _edge_gid_to_edge_list m;
     _edge_to_edge_gid := _edge_to_edge_gid m; _centroids := _centroids m;
     is_boundary_edge_individual := is_boundary_edge_individual m;
     idx_hierarchy := idx_hierarchy m;
     half_edge_coords := half_edge_coords m; ei_dot_ej := ei_dot_ej m;
     ei_dot_ei := ei_dot_ei m; cell_volumes := cell_volumes m;
     ce_ratios_per_half_edge := ce_ratios_per_half_edge m;
     fcc_type := fcc_type m; fcc := fcc m; regular_cells := regular_cells m;
     fcc_cells := fcc_cells m |}.

Definition set_cells_nodes (v : list (tri nat)) (m : MeshTri) : MeshTri :=
  {| node_coords := node_coords m; _edge_lengths := _edge_lengths m;
     cells_nodes := v; cells_edges := cells_edges m;
     _interior_ce_ratios := _interior_ce_ratios m;
     _control_volumes := _control_volumes m;
     _cell_partitions := _cell_partitions m;
     _cv_centroids := _cv_centroids m; _surface_areas := _surface_areas m;
     edges := edges m; cell_circumcenters := cell_circumcenters m;
     _signed_tri_areas := _signed_tri_areas m; subdomains := subdomains m;
     is_boundary_node := is_boundary_node m;
     is_boundary_edge := is_boundary_edge m;
     is_boundary_face := is_boundary_face m;
     _interior_edge_lengths := _interior_edge_lengths m;
     _ce_ratios := _ce_ratios m; _edges_cells := _edges_cells m;
     _edge_gid_to_edge_list := _edge_gid_to_edge_list m;
     _edge_to_edge_gid := _edge_to_edge_gid m; _centroids := _centroids m;
     is_boundary_edge_individual := is_boundary_edge_individual m;
     idx_hierarchy := idx_hierarchy m;
     half_edge_coords := half_edge_coords m; ei_dot_ej := ei_dot_ej m;
     ei_dot_ei := ei_dot_ei m; cell_volumes := cell_volumes m;
     ce_ratios_per_half_edge := ce_ratios_per_half_edge m;
     fcc_type := fcc_type m; fcc := fcc m; regular_cells := regular_cells m;
     fcc_cells := fcc_cells m |}.

Definition set_cells_edges (v : option (list (tri nat))) (m : MeshTri) : MeshTri :=
  {| node_coords := node_coords m; _edge_lengths := _edge_lengths m;
     cells_nodes := cells_nodes m; cells_edges := v;
     _interior_ce_ratios := _interior_ce_ratios m;
     _control_volumes := _control_volumes m;
     _cell_partitions := _cell_partitions m;
     _cv_centroids := _cv_centroids m; _surface_areas := _surface_areas m;
     edges := edges m; cell_circumcenters := cell_circumcenters m;
     _signed_tri_areas := _signed_tri_areas m; subdomains := subdomains m;
     is_boundary_node := is_boundary_node m;
     is_boundary_edge := is_boundary_edge m;
     is_boundary_face := is_boundary_face m;
     _interior_edge_lengths := _interior_edge_lengths m;
     _ce_ratios := _ce_ratios m; _edges_cells := _edges_cells m;
     _edge_gid_to_edge_list := _edge_gid_to_edge_list m;
     _edge_to_edge_gid := _edge_to_edge_gid m; _centroids := _centroids m;
     is_boundary_edge_individual := is_boundary_edge_individual m;
     idx_hierarchy := idx_hierarchy m;
     half_edge_coords := half_edge_coords m; ei_dot_ej := ei_dot_ej m;
     ei_dot_ei := ei_dot_ei m; cell_volumes := cell_volumes m;
     ce_ratios_per_half_edge := ce_ratios_per_half_edge m;
     fcc_type := fcc_type m; fcc := fcc m; regular_cells := regular_cells m;
     fcc_cells := fcc_cells m |}.

Definition set__interior_ce_ratios (v : option (list float)) (m : MeshTri) : MeshTri :=
  {| node_coords := node_coords m; _edge_lengths := _edge_lengths m;
     cells_nodes := cells_nodes m; cells_edges := cells_edges m;
     _interior_ce_ratios := v; _control_volumes := _control_volumes m;
     _cell_partitions := _cell_partitions m;
     _cv_centroids := _cv_centroids m; _surface_areas := _surface_areas m;
     edges := edges m; cell_circumcenters := cell_circumcenters m;
     _signed_tri_areas := _signed_tri_areas m; subdomains := subdomains m;
     is_boundary_node := is_boundary_node m;
     is_boundary_edge := is_boundary_edge m;
     is_boundary_face := is_boundary_face m;
     _interior_edge_lengths := _interior_edge_lengths m;
     _ce_ratios := _ce_ratios m; _edges_cells := _edges_cells m;
     _edge_gid_to_edge_list := _edge_gid_to_edge_list m;
     _edge_to_edge_gid := _edge_to_edge_gid m; _centroids := _centroids m;
     is_boundary_edge_individual := is_boundary_edge_individual m;
     idx_hierarchy := idx_hierarchy m;
     half_edge_coords := half_edge_coords m; ei_dot_ej := ei_dot_ej m;
     ei_dot_ei := ei_dot_ei m; cell_volumes := cell_volumes m;
     ce_ratios_per_half_edge := ce_ratios_per_half_edge m;
     fcc_type := fcc_type m; fcc := fcc m; regular_cells := regular_cells m;
     fcc_cells := fcc_cells m |}.

Definition set__control_volumes (v : option (list float)) (m : MeshTri) : MeshTri :=
  {| node_coords := node_coords m; _edge_lengths := _edge_lengths m;
     cells_nodes := cells_nodes m; cells_edges := cells_edges m;
     _interior_ce_ratios := _interior_ce_ratios m; _control_volumes := v;
     _cell_partitions := _cell_partitions m;
     _cv_centroids := _cv_centroids m; _surface_areas := _surface_areas m;
     edges := edges m; cell_circumcenters := cell_circumcenters m;
     _signed_tri_areas := _signed_tri_areas m; subdomains := subdomains m;
     is_boundary_node := is_boundary_node m;
     is_boundary_edge := is_boundary_edge m;
     is_boundary_face := is_boundary_face m;
     _interior_edge_lengths := _interior_edge_lengths m;
     _ce_ratios := _ce_ratios m; _edges_cells := _edges_cells m;
     _edge_gid_to_edge_list := _edge_gid_to_edge_list m;
     _edge_to_edge_gid := _edge_to_edge_gid m; _centroids := _centroids m;
     is_boundary_edge_individual := is_boundary_edge_individual m;
     idx_hierarchy := idx_hierarchy m;
     half_edge_coords := half_edge_coords m; ei_dot_ej := ei_dot_ej m;
     ei_dot_ei := ei_dot_ei m; cell_volumes := cell_volumes m;
     ce_ratios_per_half_edge := ce_ratios_per_half_edge m;
     fcc_type := fcc_type m; fcc := fcc m; regular_cells := regular_cells m;
     fcc_cells := fcc_cells m |}.

Definition set__cell_partitions (v : option (tri (list float))) (m : MeshTri) : MeshTri :=
  {| node_coords := node_coords m; _edge_lengths := _edge_lengths m;
     cells_nodes := cells_nodes m; cells_edges := cells_edges m;
     _interior_ce_ratios := _interior_ce_ratios m;
     _control_volumes := _control_volumes m; _cell_partitions := v;
     _cv_centroids := _cv_centroids m; _surface_areas := _surface_areas m;
     edges := edges m; cell_circumcenters := cell_circumcenters m;
     _signed_tri_areas := _signed_tri_areas m; subdomains := subdomains m;
     is_boundary_node := is_boundary_node m;
     is_boundary_edge := is_boundary_edge m;
     is_boundary_face := is_boundary_face m;
     _interior_edge_lengths := _interior_edge_lengths m;
     _ce_ratios := _ce_ratios m; _edges_cells := _edges_cells m;
     _edge_gid_to_edge_list := _edge_gid_to_edge_list m;
     _edge_to_edge_gid := _edge_to_edge_gid m; _centroids := _centroids m;
     is_boundary_edge_individual := is_boundary_edge_individual m;
     idx_hierarchy := idx_hierarchy m;
     half_edge_coords := half_edge_coords m; ei_dot_ej := ei_dot_ej m;
     ei_dot_ei := ei_dot_ei m; cell_volumes := cell_volumes m;
     ce_ratios_per_half_edge := ce_ratios_per_half_edge m;
     fcc_type := fcc_type m; fcc := fcc m; regular_cells := regular_cells m;
     fcc_cells := fcc_cells m |}.

Definition set__cv_centroids (v : option (list point)) (m : MeshTri) : MeshTri :=
  {| node_coords := node_coords m; _edge_lengths := _edge_lengths m;
     cells_nodes := cells_nodes m; cells_edges := cells_edges m;
     _interior_ce_ratios := _interior_ce_ratios m;
     _control_volumes := _control_volumes m;
     _cell_partitions := _cell_partitions m; _cv_centroids := v;
     _surface_areas := _surface_areas m; edges := edges m;
     cell_circumcenters := cell_circumcenters m;
     _signed_tri_areas := _signed_tri_areas m; subdomains := subdomains m;
     is_boundary_node := is_boundary_node m;
     is_boundary_edge := is_boundary_edge m;
     is_boundary_face := is_boundary_face m;
     _interior_edge_lengths := _interior_edge_lengths m;
     _ce_ratios := _ce_ratios m; _edges_cells := _edges_cells m;
     _edge_gid_to_edge_list := _edge_gid_to_edge_list m;
     _edge_to_edge_gid := _edge_to_edge_gid m; _centroids := _centroids m;
     is_boundary_edge_individual := is_boundary_edge_individual m;
     idx_hierarchy := idx_hierarchy m;
     half_edge_coords := half_edge_coords m; ei_dot_ej := ei_dot_ej m;
     ei_dot_ei := ei_dot_ei m; cell_volumes := cell_volumes m;
     ce_ratios_per_half_edge := ce_ratios_per_half_edge m;
     fcc_type := fcc_type m; fcc := fcc m; regular_cells := regular_cells m;
     fcc_cells := fcc_cells m |}.

Definition set__surface_areas (v : option (list (tri (tri nat)) * list (tri (tri float)))) (m : MeshTri) : MeshTri :=
  {| node_coords := node_coords m; _edge_lengths := _edge_lengths m;
     cells_nodes := cells_nodes m; cells_edges := cells_edges m;
     _interior_ce_ratios := _interior_ce_ratios m;
     _control_volumes := _control_volumes m;
     _cell_partitions := _cell_partitions m;
     _cv_centroids := _cv_centroids m; _surface_areas := v; edges := edges m;
     cell_circumcenters := cell_circumcenters m;
     _signed_tri_areas := _signed_tri_areas m; subdomains := subdomains m;
     is_boundary_node := is_boundary_node m;
     is_boundary_edge := is_boundary_edge m;
     is_boundary_face := is_boundary_face m;
     _interior_edge_lengths := _interior_edge_lengths m;
     _ce_ratios := _ce_ratios m; _edges_cells := _edges_cells m;
     _edge_gid_to_edge_list := _edge_gid_to_edge_list m;
     _edge_to_edge_gid := _edge_to_edge_gid m; _centroids := _centroids m;
     is_boundary_edge_individual := is_boundary_edge_individual m;
     idx_hierarchy := idx_hierarchy m;
     half_edge_coords := half_edge_coords m; ei_dot_ej := ei_dot_ej m;
     ei_dot_ei := ei_dot_ei m; cell_volumes := cell_volumes m;
     ce_ratios_per_half_edge := ce_ratios_per_half_edge m;
     fcc_type := fcc_type m; fcc := fcc m; regular_cells := regular_cells m;
     fcc_cells := fcc_cells m |}.

Definition set_edges (v : option (list (nat * nat))) (m : MeshTri) : MeshTri :=
  {| node_coords := node_coords m; _edge_lengths := _edge_lengths m;
     cells_nodes := cells_nodes m; cells_edges := cells_edges m;
     _interior_ce_ratios := _interior_ce_ratios m;
     _control_volumes := _control_volumes m;
     _cell_partitions := _cell_partitions m;
     _cv_centroids := _cv_centroids m; _surface_areas := _surface_areas m;
     edges := v; cell_circumcenters := cell_circumcenters m;
     _signed_tri_areas := _signed_tri_areas m; subdomains := subdomains m;
     is_boundary_node := is_boundary_node m;
     is_boundary_edge := is_boundary_edge m;
     is_boundary_face := is_boundary_face m;
     _interior_edge_lengths := _interior_edge_lengths m;
     _ce_ratios := _ce_ratios m; _edges_cells := _edges_cells m;
     _edge_gid_to_edge_list := _edge_gid_to_edge_list m;
     _edge_to_edge_gid := _edge_to_edge_gid m; _centroids := _centroids m;
     is_boundary_edge_individual := is_boundary_edge_individual m;
     idx_hierarchy := idx_hierarchy m;
     half_edge_coords := half_edge_coords m; ei_dot_ej := ei_dot_ej m;
     ei_dot_ei := ei_dot_ei m; cell_volumes := cell_volumes m;
     ce_ratios_per_half_edge := ce_ratios_per_half_edge m;
     fcc_type := fcc_type m; fcc := fcc m; regular_cells := regular_cells m;
     fcc_cells := fcc_cells m |}.

Definition set_cell_circumcenters (v : option (list point)) (m : MeshTri) : MeshTri :=
  {| node_coords := node_coords m; _edge_lengths := _edge_lengths m;
     cells_nodes := cells_nodes m; cells_edges := cells_edges m;
     _interior_ce_ratios := _interior_ce_ratios m;
     _control_volumes := _control_volumes m;
     _cell_partitions := _cell_partitions m;
     _cv_centroids := _cv_centroids m; _surface_areas := _surface_areas m;
     edges := edges m; cell_circumcenters := v;
     _signed_tri_areas := _signed_tri_areas m; subdomains := subdomains m;
     is_boundary_node := is_boundary_node m;
     is_boundary_edge := is_boundary_edge m;
     is_boundary_face := is_boundary_face m;
     _interior_edge_lengths := _interior_edge_lengths m;
     _ce_ratios := _ce_ratios m; _edges_cells := _edges_cells m;
     _edge_gid_to_edge_list := _edge_gid_to_edge_list m;
     _edge_to_edge_gid := _edge_to_edge_gid m; _centroids := _centroids m;
     is_boundary_edge_individual := is_boundary_edge_individual m;
     idx_hierarchy := idx_hierarchy m;
     half_edge_coords := half_edge_coords m; ei_dot_ej := ei_dot_ej m;
     ei_dot_ei := ei_dot_ei m; cell_volumes := cell_volumes m;
     ce_ratios_per_half_edge := ce_ratios_per_half_edge m;
     fcc_type := fcc_type m; fcc := fcc m; regular_cells := regular_cells m;
     fcc_cells := fcc_cells m |}.

Definition set__signed_tri_areas (v : option (list float)) (m : MeshTri) : MeshTri :=
  {| node_coords := node_coords m; _edge_lengths := _edge_lengths m;
     cells_nodes := cells_nodes m; cells_edges := cells_edges m;
     _interior_ce_ratios := _interior_ce_ratios m;
     _control_volumes := _control_volumes m;
     _cell_partitions := _cell_partitions m;
     _cv_centroids := _cv_centroids m; _surface_areas := _surface_areas m;
     edges := edges m; cell_circumcenters := cell_circumcenters m;
     _signed_tri_areas := v; subdomains := subdomains m;
     is_boundary_node := is_boundary_node m;
     is_boundary_edge := is_boundary_edge m;
     is_boundary_face := is_boundary_face m;
     _interior_edge_lengths := _interior_edge_lengths m;
     _ce_ratios := _ce_ratios m; _edges_cells := _edges_cells m;
     _edge_gid_to_edge_list := _edge_gid_to_edge_list m;
     _edge_to_edge_gid := _edge_to_edge_gid m; _centroids := _centroids m;
     is_boundary_edge_individual := is_boundary_edge_individual m;
     idx_hierarchy := idx_hierarchy m;
     half_edge_coords := half_edge_coords m; ei_dot_ej := ei_dot_ej m;
     ei_dot_ei := ei_dot_ei m; cell_volumes := cell_volumes m;
     ce_ratios_per_half_edge := ce_ratios_per_half_edge m;
     fcc_type := fcc_type m; fcc := fcc m; regular_cells := regular_cells m;
     fcc_cells := fcc_cells m |}.

Definition set_subdomains (v : list (nat * list nat)) (m : MeshTri) : MeshTri :=
  {| node_coords := node_coords m; _edge_lengths := _edge_lengths m;
     cells_nodes := cells_nodes m; cells_edges := cells_edges m;
     _interior_ce_ratios := _interior_ce_ratios m;
     _control_volumes := _control_volumes m;
     _cell_partitions := _cell_partitions m;
     _cv_centroids := _cv_centroids m; _surface_areas := _surface_areas m;
     edges := edges m; cell_circumcenters := cell_circumcenters m;
     _signed_tri_areas := _signed_tri_areas m; subdomains := v;
     is_boundary_node := is_boundary_node m;
     is_boundary_edge := is_boundary_edge m;
     is_boundary_face := is_boundary_face m;
     _interior_edge_lengths := _interior_edge_lengths m;
     _ce_ratios := _ce_ratios m; _edges_cells := _edges_cells m;
     _edge_gid_to_edge_list := _edge_gid_to_edge_list m;
     _edge_to_edge_gid := _edge_to_edge_gid m; _centroids := _centroids m;
     is_boundary_edge_individual := is_boundary_edge_individual m;
     idx_hierarchy := idx_hierarchy m;
     half_edge_coords := half_edge_coords m; ei_dot_ej := ei_dot_ej m;
     ei_dot_ei := ei_dot_ei m; cell_volumes := cell_volumes m;
     ce_ratios_per_half_edge := ce_ratios_per_half_edge m;
     fcc_type := fcc_type m; fcc := fcc m; regular_cells := regular_cells m;
     fcc_cells := fcc_cells m |}.

Definition set_is_boundary_node (v : option (list bool)) (m : MeshTri) : MeshTri :=
  {| node_coords := node_coords m; _edge_lengths := _edge_lengths m;
     cells_nodes := cells_nodes m; cells_edges := cells_edges m;
     _interior_ce_ratios := _interior_ce_ratios m;
     _control_volumes := _control_volumes m;
     _cell_partitions := _cell_partitions m;
     _cv_centroids := _cv_centroids m; _surface_areas := _surface_areas m;
     edges := edges m; cell_circumcenters := cell_circumcenters m;
     _signed_tri_areas := _signed_tri_areas m; subdomains := subdomains m;
     is_boundary_node := v; is_boundary_edge := is_boundary_edge m;
     is_boundary_face := is_boundary_face m;
     _interior_edge_lengths := _interior_edge_lengths m;
     _ce_ratios := _ce_ratios m; _edges_cells := _edges_cells m;
     _edge_gid_to_edge_list := _edge_gid_to_edge_list m;
     _edge_to_edge_gid := _edge_to_edge_gid m; _centroids := _centroids m;
     is_boundary_edge_individual := is_boundary_edge_individual m;
     idx_hierarchy := idx_hierarchy m;
     half_edge_coords := half_edge_coords m; ei_dot_ej := ei_dot_ej m;
     ei_dot_ei := ei_dot_ei m; cell_volumes := cell_volumes m;
     ce_ratios_per_half_edge := ce_ratios_per_half_edge m;
     fcc_type := fcc_type m; fcc := fcc m; regular_cells := regular_cells m;
     fcc_cells := fcc_cells m |}.

Definition set_is_boundary_edge (v : option (tri (list bool))) (m : MeshTri) : MeshTri :=
  {| node_coords := node_coords m; _edge_lengths := _edge_lengths m;
     cells_nodes := cells_nodes m; cells_edges := cells_edges m;
     _interior_ce_ratios := _interior_ce_ratios m;
     _control_volumes := _control_volumes m;
     _cell_partitions := _cell_partitions m;
     _cv_centroids := _cv_centroids m; _surface_areas := _surface_areas m;
     edges := edges m; cell_circumcenters := cell_circumcenters m;
     _signed_tri_areas := _signed_tri_areas m; subdomains := subdomains m;
     is_boundary_node := is_boundary_node m; is_boundary_edge := v;
     is_boundary_face := is_boundary_face m;
     _interior_edge_lengths := _interior_edge_lengths m;
     _ce_ratios := _ce_ratios m; _edges_cells := _edges_cells m;
     _edge_gid_to_edge_list := _edge_gid_to_edge_list m;
     _edge_to_edge_gid := _edge_to_edge_gid m; _centroids := _centroids m;
     is_boundary_edge_individual := is_boundary_edge_individual m;
     idx_hierarchy := idx_hierarchy m;
     half_edge_coords := half_edge_coords m; ei_dot_ej := ei_dot_ej m;
     ei_dot_ei := ei_dot_ei m; cell_volumes := cell_volumes m;
     ce_ratios_per_half_edge := ce_ratios_per_half_edge m;
     fcc_type := fcc_type m; fcc := fcc m; regular_cells := regular_cells m;
     fcc_cells := fcc_cells m |}.

Definition set_is_boundary_face (v : option (tri (list bool))) (m : MeshTri) : MeshTri :=
  {| node_coords := node_coords m; _edge_lengths := _edge_lengths m;
     cells_nodes := cells_nodes m; cells_edges := cells_edges m;
     _interior_ce_ratios := _interior_ce_ratios m;
     _control_volumes := _control_volumes m;
     _cell_partitions := _cell_partitions m;
     _cv_centroids := _cv_centroids m; _surface_areas := _surface_areas m;
     edges := edges m; cell_circumcenters := cell_circumcenters m;
     _signed_tri_areas := _signed_tri_areas m; subdomains := subdomains m;
     is_boundary_node := is_boundary_node m;
     is_boundary_edge := is_boundary_edge m; is_boundary_face := v;
     _interior_edge_lengths := _interior_edge_lengths m;
     _ce_ratios := _ce_ratios m; _edges_cells := _edges_cells m;
     _edge_gid_to_edge_list := _edge_gid_to_edge_list m;
     _edge_to_edge_gid := _edge_to_edge_gid m; _centroids := _centroids m;
     is_boundary_edge_individual := is_boundary_edge_individual m;
     idx_hierarchy := idx_hierarchy m;
     half_edge_coords := half_edge_coords m; ei_dot_ej := ei_dot_ej m;
     ei_dot_ei := ei_dot_ei m; cell_volumes := cell_volumes m;
     ce_ratios_per_half_edge := ce_ratios_per_half_edge m;
     fcc_type := fcc_type m; fcc := fcc m; regular_cells := regular_cells m;
     fcc_cells := fcc_cells m |}.

Definition set__interior_edge_lengths (v : option (list float)) (m : MeshTri) : MeshTri :=
  {| node_coords := node_coords m; _edge_lengths := _edge_lengths m;
     cells_nodes := cells_nodes m; cells_edges := cells_edges m;
     _interior_ce_ratios := _interior_ce_ratios m;
     _control_volumes := _control_volumes m;
     _cell_partitions := _cell_partitions m;
     _cv_centroids := _cv_centroids m; _surface_areas := _surface_areas m;
     edges := edges m; cell_circumcenters := cell_circumcenters m;
     _signed_tri_areas := _signed_tri_areas m; subdomains := subdomains m;
     is_boundary_node := is_boundary_node m;
     is_boundary_edge := is_boundary_edge m;
     is_boundary_face := is_boundary_face m; _interior_edge_lengths := v;
     _ce_ratios := _ce_ratios m; _edges_cells := _edges_cells m;
     _edge_gid_to_edge_list := _edge_gid_to_edge_list m;
     _edge_to_edge_gid := _edge_to_edge_gid m; _centroids := _centroids m;
     is_boundary_edge_individual := is_boundary_edge_individual m;
     idx_hierarchy := idx_hierarchy m;
     half_edge_coords := half_edge_coords m; ei_dot_ej := ei_dot_ej m;
     ei_dot_ei := ei_dot_ei m; cell_volumes := cell_volumes m;
     ce_ratios_per_half_edge := ce_ratios_per_half_edge m;
     fcc_type := fcc_type m; fcc := fcc m; regular_cells := regular_cells m;
     fcc_cells := fcc_cells m |}.

Definition set__ce_ratios (v : option (list float)) (m : MeshTri) : MeshTri :=
  {| node_coords := node_coords m; _edge_lengths := _edge_lengths m;
     cells_nodes := cells_nodes m; cells_edges := cells_edges m;
     _interior_ce_ratios := _interior_ce_ratios m;
     _control_volumes := _control_volumes m;
     _cell_partitions := _cell_partitions m;
     _cv_centroids := _cv_centroids m; _surface_areas := _surface_areas m;
     edges := edges m; cell_circumcenters := cell_circumcenters m;
     _signed_tri_areas := _signed_tri_areas m; subdomains := subdomains m;
     is_boundary_node := is_boundary_node m;
     is_boundary_edge := is_boundary_edge m;
     is_boundary_face := is_boundary_face m;
     _interior_edge_lengths := _interior_edge_lengths m; _ce_ratios := v;
     _edges_cells := _edges_cells m;
     _edge_gid_to_edge_list := _edge_gid_to_edge_list m;
     _edge_to_edge_gid := _edge_to_edge_gid m; _centroids := _centroids m;
     is_boundary_edge_individual := is_boundary_edge_individual m;
     idx_hierarchy := idx_hierarchy m;
     half_edge_coords := half_edge_coords m; ei_dot_ej := ei_dot_ej m;
     ei_dot_ei := ei_dot_ei m; cell_volumes := cell_volumes m;
     ce_ratios_per_half_edge := ce_ratios_per_half_edge m;
     fcc_type := fcc_type m; fcc := fcc m; regular_cells := regular_cells m;
     fcc_cells := fcc_cells m |}.

Definition set__edges_cells (v : option (list nat * list (nat * nat))) (m : MeshTri) : MeshTri :=
  {| node_coords := node_coords m; _edge_lengths := _edge_lengths m;
     cells_nodes := cells_nodes m; cells_edges := cells_edges m;
     _interior_ce_ratios := _interior_ce_ratios m;
     _control_volumes := _control_volumes m;
     _cell_partitions := _cell_partitions m;
     _cv_centroids := _cv_centroids m; _surface_areas := _surface_areas m;
     edges := edges m; cell_circumcenters := cell_circumcenters m;
     _signed_tri_areas := _signed_tri_areas m; subdomains := subdomains m;
     is_boundary_node := is_boundary_node m;
     is_boundary_edge := is_boundary_edge m;
     is_boundary_face := is_boundary_face m;
     _interior_edge_lengths := _interior_edge_lengths m;
     _ce_ratios := _ce_ratios m; _edges_cells := v;
     _edge_gid_to_edge_list := _edge_gid_to_edge_list m;
     _edge_to_edge_gid := _edge_to_edge_gid m; _centroids := _centroids m;
     is_boundary_edge_individual := is_boundary_edge_individual m;
     idx_hierarchy := idx_hierarchy m;
     half_edge_coords := half_edge_coords m; ei_dot_ej := ei_dot_ej m;
     ei_dot_ei := ei_dot_ei m; cell_volumes := cell_volumes m;
     ce_ratios_per_half_edge := ce_ratios_per_half_edge m;
     fcc_type := fcc_type m; fcc := fcc m; regular_cells := regular_cells m;
     fcc_cells := fcc_cells m |}.

Definition set__edge_gid_to_edge_list (v : option (list (nat * nat))) (m : MeshTri) : MeshTri :=
  {| node_coords := node_coords m; _edge_lengths := _edge_lengths m;
     cells_nodes := cells_nodes m; cells_edges := cells_edges m;
     _interior_ce_ratios := _interior_ce_ratios m;
     _control_volumes := _control_volumes m;
     _cell_partitions := _cell_partitions m;
     _cv_centroids := _cv_centroids m; _surface_areas := _surface_areas m;
     edges := edges m; cell_circumcenters := cell_circumcenters m;
     _signed_tri_areas := _signed_tri_areas m; subdomains := subdomains m;
     is_boundary_node := is_boundary_node m;
     is_boundary_edge := is_boundary_edge m;
     is_boundary_face := is_boundary_face m;
     _interior_edge_lengths := _interior_edge_lengths m;
     _ce_ratios := _ce_ratios m; _edges_cells := _edges_cells m;
     _edge_gid_to_edge_list := v; _edge_to_edge_gid := _edge_to_edge_gid m;
     _centroids := _centroids m;
     is_boundary_edge_individual := is_boundary_edge_individual m;
     idx_hierarchy := idx_hierarchy m;
     half_edge_coords := half_edge_coords m; ei_dot_ej := ei_dot_ej m;
     ei_dot_ei := ei_dot_ei m; cell_volumes := cell_volumes m;
     ce_ratios_per_half_edge := ce_ratios_per_half_edge m;
     fcc_type := fcc_type m; fcc := fcc m; regular_cells := regular_cells m;
     fcc_cells := fcc_cells m |}.

Definition set__edge_to_edge_gid (v : option (list nat * list nat)) (m : MeshTri) : MeshTri :=
  {| node_coords := node_coords m; _edge_lengths := _edge_lengths m;
     cells_nodes := cells_nodes m; cells_edges := cells_edges m;
     _interior_ce_ratios := _interior_ce_ratios m;
     _control_volumes := _control_volumes m;
     _cell_partitions := _cell_partitions m;
     _cv_centroids := _cv_centroids m; _surface_areas := _surface_areas m;
     edges := edges m; cell_circumcenters := cell_circumcenters m;
     _signed_tri_areas := _signed_tri_areas m; subdomains := subdomains m;
     is_boundary_node := is_boundary_node m;
     is_boundary_edge := is_boundary_edge m;
     is_boundary_face := is_boundary_face m;
     _interior_edge_lengths := _interior_edge_lengths m;
     _ce_ratios := _ce_ratios m; _edges_cells := _edges_cells m;
     _edge_gid_to_edge_list := _edge_gid_to_edge_list m;
     _edge_to_edge_gid := v; _centroids := _centroids m;
     is_boundary_edge_individual := is_boundary_edge_individual m;
     idx_hierarchy := idx_hierarchy m;
     half_edge_coords := half_edge_coords m; ei_dot_ej := ei_dot_ej m;
     ei_dot_ei := ei_dot_ei m; cell_volumes := cell_volumes m;
     ce_ratios_per_half_edge := ce_ratios_per_half_edge m;
     fcc_type := fcc_type m; fcc := fcc m; regular_cells := regular_cells m;
     fcc_cells := fcc_cells m |}.

Definition set__centroids (v : option (list point)) (m : MeshTri) : MeshTri :=
  {| node_coords := node_coords m; _edge_lengths := _edge_lengths m;
     cells_nodes := cells_nodes m; cells_edges := cells_edges m;
     _interior_ce_ratios := _interior_ce_ratios m;
     _control_volumes := _control_volumes m;
     _cell_partitions := _cell_partitions m;
     _cv_centroids := _cv_centroids m; _surface_areas := _surface_areas m;
     edges := edges m; cell_circumcenters := cell_circumcenters m;
     _signed_tri_areas := _signed_tri_areas m; subdomains := subdomains m;
     is_boundary_node := is_boundary_node m;
     is_boundary_edge := is_boundary_edge m;
     is_boundary_face := is_boundary_face m;
     _interior_edge_lengths := _interior_edge_lengths m;
     _ce_ratios := _ce_ratios m; _edges_cells := _edges_cells m;
     _edge_gid_to_edge_list := _edge_gid_to_edge_list m;
     _edge_to_edge_gid := _edge_to_edge_gid m; _centroids := v;
     is_boundary_edge_individual := is_boundary_edge_individual m;
     idx_hierarchy := idx_hierarchy m;
     half_edge_coords := half_edge_coords m; ei_dot_ej := ei_dot_ej m;
     ei_dot_ei := ei_dot_ei m; cell_volumes := cell_volumes m;
     ce_ratios_per_half_edge := ce_ratios_per_half_edge m;
     fcc_type := fcc_type m; fcc := fcc m; regular_cells := regular_cells m;
     fcc_cells := fcc_cells m |}.

Definition set_is_boundary_edge_individual (v : option (list bool)) (m : MeshTri) : MeshTri :=
  {| node_coords := node_coords m; _edge_lengths := _edge_lengths m;
     cells_nodes := cells_nodes m; cells_edges := cells_edges m;
     _interior_ce_ratios := _interior_ce_ratios m;
     _control_volumes := _control_volumes m;
     _cell_partitions := _cell_partitions m;
     _cv_centroids := _cv_centroids m; _surface_areas := _surface_areas m;
     edges := edges m; cell_circumcenters := cell_circumcenters m;
     _signed_tri_areas := _signed_tri_areas m; subdomains := subdomains m;
     is_boundary_node := is_boundary_node m;
     is_boundary_edge := is_boundary_edge m;
     is_boundary_face := is_boundary_face m;
     _interior_edge_lengths := _interior_edge_lengths m;
     _ce_ratios := _ce_ratios m; _edges_cells := _edges_cells m;
     _edge_gid_to_edge_list := _edge_gid_to_edge_list m;
     _edge_to_edge_gid := _edge_to_edge_gid m; _centroids := _centroids m;
     is_boundary_edge_individual := v; idx_hierarchy := idx_hierarchy m;
     half_edge_coords := half_edge_coords m; ei_dot_ej := ei_dot_ej m;
     ei_dot_ei := ei_dot_ei m; cell_volumes := cell_volumes m;
     ce_ratios_per_half_edge := ce_ratios_per_half_edge m;
     fcc_type := fcc_type m; fcc := fcc m; regular_cells := regular_cells m;
     fcc_cells := fcc_cells m |}.

Definition set_idx_hierarchy (v : tri (list nat) * tri (list nat)) (m : MeshTri) : MeshTri :=
  {| node_coords := node_coords m; _edge_lengths := _edge_lengths m;
     cells_nodes := cells_nodes m; cells_edges := cells_edges m;
     _interior_ce_ratios := _interior_ce_ratios m;
     _control_volumes := _control_volumes m;
     _cell_partitions := _cell_partitions m;
     _cv_centroids := _cv_centroids m; _surface_areas := _surface_areas m;
     edges := edges m; cell_circumcenters := cell_circumcenters m;
     _signed_tri_areas := _signed_tri_areas m; subdomains := subdomains m;
     is_boundary_node := is_boundary_node m;
     is_boundary_edge := is_boundary_edge m;
     is_boundary_face := is_boundary_face m;
     _interior_edge_lengths := _interior_edge_lengths m;
     _ce_ratios := _ce_ratios m; _edges_cells := _edges_cells m;
     _edge_gid_to_edge_list := _edge_gid_to_edge_list m;
     _edge_to_edge_gid := _edge_to_edge_gid m; _centroids := _centroids m;
     is_boundary_edge_individual := is_boundary_edge_individual m;
     idx_hierarchy := v; half_edge_coords := half_edge_coords m;
     ei_dot_ej := ei_dot_ej m; ei_dot_ei := ei_dot_ei m;
     cell_volumes := cell_volumes m;
     ce_ratios_per_half_edge := ce_ratios_per_half_edge m;
     fcc_type := fcc_type m; fcc := fcc m; regular_cells := regular_cells m;
     fcc_cells := fcc_cells m |}.

Definition set_half_edge_coords (v : tri (list point)) (m : MeshTri) : MeshTri :=
  {| node_coords := node_coords m; _edge_lengths := _edge_lengths m;
     cells_nodes := cells_nodes m; cells_edges := cells_edges m;
     _interior_ce_ratios := _interior_ce_ratios m;
     _control_volumes := _control_volumes m;
     _cell_partitions := _cell_partitions m;
     _cv_centroids := _cv_centroids m; _surface_areas := _surface_areas m;
     edges := edges m; cell_circumcenters := cell_circumcenters m;
     _signed_tri_areas := _signed_tri_areas m; subdomains := subdomains m;
     is_boundary_node := is_boundary_node m;
     is_boundary_edge := is_boundary_edge m;
     is_boundary_face := is_boundary_face m;
     _interior_edge_lengths := _interior_edge_lengths m;
     _ce_ratios := _ce_ratios m; _edges_cells := _edges_cells m;
     _edge_gid_to_edge_list := _edge_gid_to_edge_list m;
     _edge_to_edge_gid := _edge_to_edge_gid m; _centroids := _centroids m;
     is_boundary_edge_individual := is_boundary_edge_individual m;
     idx_hierarchy := idx_hierarchy m; half_edge_coords := v;
     ei_dot_ej := ei_dot_ej m; ei_dot_ei := ei_dot_ei m;
     cell_volumes := cell_volumes m;
     ce_ratios_per_half_edge := ce_ratios_per_half_edge m;
     fcc_type := fcc_type m; fcc := fcc m; regular_cells := regular_cells m;
     fcc_cells := fcc_cells m |}.

Definition set_ei_dot_ej (v : tri (list float)) (m : MeshTri) : MeshTri :=
  {| node_coords := node_coords m; _edge_lengths := _edge_lengths m;
     cells_nodes := cells_nodes m; cells_edges := cells_edges m;
     _interior_ce_ratios := _interior_ce_ratios m;
     _control_volumes := _control_volumes m;
     _cell_partitions := _cell_partitions m;
     _cv_centroids := _cv_centroids m; _surface_areas := _surface_areas m;
     edges := edges m; cell_circumcenters := cell_circumcenters m;
     _signed_tri_areas := _signed_tri_areas m; subdomains := subdomains m;
     is_boundary_node := is_boundary_node m;
     is_boundary_edge := is_boundary_edge m;
     is_boundary_face := is_boundary_face m;
     _interior_edge_lengths := _interior_edge_lengths m;
     _ce_ratios := _ce_ratios m; _edges_cells := _edges_cells m;
     _edge_gid_to_edge_list := _edge_gid_to_edge_list m;
     _edge_to_edge_gid := _edge_to_edge_gid m; _centroids := _centroids m;
     is_boundary_edge_individual := is_boundary_edge_individual m;
     idx_hierarchy := idx_hierarchy m;
     half_edge_coords := half_edge_coords m; ei_dot_ej := v;
     ei_dot_ei := ei_dot_ei m; cell_volumes := cell_volumes m;
     ce_ratios_per_half_edge := ce_ratios_per_half_edge m;
     fcc_type := fcc_type m; fcc := fcc m; regular_cells := regular_cells m;
     fcc_cells := fcc_cells m |}.

Definition set_ei_dot_ei (v : tri (list float)) (m : MeshTri) : MeshTri :=
  {| node_coords := node_coords m; _edge_lengths := _edge_lengths m;
     cells_nodes := cells_nodes m; cells_edges := cells_edges m;
     _interior_ce_ratios := _interior_ce_ratios m;
     _control_volumes := _control_volumes m;
     _cell_partitions := _cell_partitions m;
     _cv_centroids := _cv_centroids m; _surface_areas := _surface_areas m;
     edges := edges m; cell_circumcenters := cell_circumcenters m;
     _signed_tri_areas := _signed_tri_areas m; subdomains := subdomains m;
     is_boundary_node := is_boundary_node m;
     is_boundary_edge := is_boundary_edge m;
     is_boundary_face := is_boundary_face m;
     _interior_edge_lengths := _interior_edge_lengths m;
     _ce_ratios := _ce_ratios m; _edges_cells := _edges_cells m;
     _edge_gid_to_edge_list := _edge_gid_to_edge_list m;
     _edge_to_edge_gid := _edge_to_edge_gid m; _centroids := _centroids m;
     is_boundary_edge_individual := is_boundary_edge_individual m;
     idx_hierarchy := idx_hierarchy m;
     half_edge_coords := half_edge_coords m; ei_dot_ej := ei_dot_ej m;
     ei_dot_ei := v; cell_volumes := cell_volumes m;
     ce_ratios_per_half_edge := ce_ratios_per_half_edge m;
     fcc_type := fcc_type m; fcc := fcc m; regular_cells := regular_cells m;
     fcc_cells := fcc_cells m |}.

Definition set_cell_volumes (v : list float) (m : MeshTri) : MeshTri :=
  {| node_coords := node_coords m; _edge_lengths := _edge_lengths m;
     cells_nodes := cells_nodes m; cells_edges := cells_edges m;
     _interior_ce_ratios := _interior_ce_ratios m;
     _control_volumes := _control_volumes m;
     _cell_partitions := _cell_partitions m;
     _cv_centroids := _cv_centroids m; _surface_areas := _surface_areas m;
     edges := edges m; cell_circumcenters := cell_circumcenters m;
     _signed_tri_areas := _signed_tri_areas m; subdomains := subdomains m;
     is_boundary_node := is_boundary_node m;
     is_boundary_edge := is_boundary_edge m;
     is_boundary_face := is_boundary_face m;
     _interior_edge_lengths := _interior_edge_lengths m;
     _ce_ratios := _ce_ratios m; _edges_cells := _edges_cells m;
     _edge_gid_to_edge_list := _edge_gid_to_edge_list m;
     _edge_to_edge_gid := _edge_to_edge_gid m; _centroids := _centroids m;
     is_boundary_edge_individual := is_boundary_edge_individual m;
     idx_hierarchy := idx_hierarchy m;
     half_edge_coords := half_edge_coords m; ei_dot_ej := ei_dot_ej m;
     ei_dot_ei := ei_dot_ei m; cell_volumes := v;
     ce_ratios_per_half_edge := ce_ratios_per_half_edge m;
     fcc_type := fcc_type m; fcc := fcc m; regular_cells := regular_cells m;
     fcc_cells := fcc_cells m |}.

Definition set_ce_ratios_per_half_edge (v : tri (list float)) (m : MeshTri) : MeshTri :=
  {| node_coords := node_coords m; _edge_lengths := _edge_lengths m;
     cells_nodes := cells_nodes m; cells_edges := cells_edges m;
     _interior_ce_ratios := _interior_ce_ratios m;
     _control_volumes := _control_volumes m;
     _cell_partitions := _cell_partitions m;
     _cv_centroids := _cv_centroids m; _surface_areas := _surface_areas m;
     edges := edges m; cell_circumcenters := cell_circumcenters m;
     _signed_tri_areas := _signed_tri_areas m; subdomains := subdomains m;
     is_boundary_node := is_boundary_node m;
     is_boundary_edge := is_boundary_edge m;
     is_boundary_face := is_boundary_face m;
     _interior_edge_lengths := _interior_edge_lengths m;
     _ce_ratios := _ce_ratios m; _edges_cells := _edges_cells m;
     _edge_gid_to_edge_list := _edge_gid_to_edge_list m;
     _edge_to_edge_gid := _edge_to_edge_gid m; _centroids := _centroids m;
     is_boundary_edge_individual := is_boundary_edge_individual m;
     idx_hierarchy := idx_hierarchy m;
     half_edge_coords := half_edge_coords m; ei_dot_ej := ei_dot_ej m;
     ei_dot_ei := ei_dot_ei m; cell_volumes := cell_volumes m;
     ce_ratios_per_half_edge := v; fcc_type := fcc_type m; fcc := fcc m;
     regular_cells := regular_cells m; fcc_cells := fcc_cells m |}.

Definition set_fcc_type (v : option fcc_mode) (m : MeshTri) : MeshTri :=
  {| node_coords := node_coords m; _edge_lengths := _edge_lengths m;
     cells_nodes := cells_nodes m; cells_edges := cells_edges m;
     _interior_ce_ratios := _interior_ce_ratios m;
     _control_volumes := _control_volumes m;
     _cell_partitions := _cell_partitions m;
     _cv_centroids := _cv_centroids m; _surface_areas := _surface_areas m;
     edges := edges m; cell_circumcenters := cell_circumcenters m;
     _signed_tri_areas := _signed_tri_areas m; subdomains := subdomains m;
     is_boundary_node := is_boundary_node m;
     is_boundary_edge := is_boundary_edge m;
     is_boundary_face := is_boundary_face m;
     _interior_edge_lengths := _interior_edge_lengths m;
     _ce_ratios := _ce_ratios m; _edges_cells := _edges_cells m;
     _edge_gid_to_edge_list := _edge_gid_to_edge_list m;
     _edge_to_edge_gid := _edge_to_edge_gid m; _centroids := _centroids m;
     is_boundary_edge_individual := is_boundary_edge_individual m;
     idx_hierarchy := idx_hierarchy m;
     half_edge_coords := half_edge_coords m; ei_dot_ej := ei_dot_ej m;
     ei_dot_ei := ei_dot_ei m; cell_volumes := cell_volumes m;
     ce_ratios_per_half_edge := ce_ratios_per_half_edge m; fcc_type := v;
     fcc := fcc m; regular_cells := regular_cells m;
     fcc_cells := fcc_cells m |}.

Definition set_fcc (v : option FlatCellCorrector) (m : MeshTri) : MeshTri :=
  {| node_coords := node_coords m; _edge_lengths := _edge_lengths m;
     cells_nodes := cells_nodes m; cells_edges := cells_edges m;
     _interior_ce_ratios := _interior_ce_ratios m;
     _control_volumes := _control_volumes m;
     _cell_partitions := _cell_partitions m;
     _cv_centroids := _cv_centroids m; _surface_areas := _surface_areas m;
     edges := edges m; cell_circumcenters := cell_circumcenters m;
     _signed_tri_areas := _signed_tri_areas m; subdomains := subdomains m;
     is_boundary_node := is_boundary_node m;
     is_boundary_edge := is_boundary_edge m;
     is_boundary_face := is_boundary_face m;
     _interior_edge_lengths := _interior_edge_lengths m;
     _ce_ratios := _ce_ratios m; _edges_cells := _edges_cells m;
     _edge_gid_to_edge_list := _edge_gid_to_edge_list m;
     _edge_to_edge_gid := _edge_to_edge_gid m; _centroids := _centroids m;
     is_boundary_edge_individual := is_boundary_edge_individual m;
     idx_hierarchy := idx_hierarchy m;
     half_edge_coords := half_edge_coords m; ei_dot_ej := ei_dot_ej m;
     ei_dot_ei := ei_dot_ei m; cell_volumes := cell_volumes m;
     ce_ratios_per_half_edge := ce_ratios_per_half_edge m;
     fcc_type := fcc_type m; fcc := v; regular_cells := regular_cells m;
     fcc_cells := fcc_cells m |}.

Definition set_regular_cells (v : option (list nat)) (m : MeshTri) : MeshTri :=
  {| node_coords := node_coords m; _edge_lengths := _edge_lengths m;
     cells_nodes := cells_nodes m; cells_edges := cells_edges m;
     _interior_ce_ratios := _interior_ce_ratios m;
     _control_volumes := _control_volumes m;
     _cell_partitions := _cell_partitions m;
     _cv_centroids := _cv_centroids m; _surface_areas := _surface_areas m;
     edges := edges m; cell_circumcenters := cell_circumcenters m;
     _signed_tri_areas := _signed_tri_areas m; subdomains := subdomains m;
     is_boundary_node := is_boundary_node m;
     is_boundary_edge := is_boundary_edge m;
     is_boundary_face := is_boundary_face m;
     _interior_edge_lengths := _interior_edge_lengths m;
     _ce_ratios := _ce_ratios m; _edges_cells := _edges_cells m;
     _edge_gid_to_edge_list := _edge_gid_to_edge_list m;
     _edge_to_edge_gid := _edge_to_edge_gid m; _centroids := _centroids m;
     is_boundary_edge_individual := is_boundary_edge_individual m;
     idx_hierarchy := idx_hierarchy m;
     half_edge_coords := half_edge_coords m; ei_dot_ej := ei_dot_ej m;
     ei_dot_ei := ei_dot_ei m; cell_volumes := cell_volumes m;
     ce_ratios_per_half_edge := ce_ratios_per_half_edge m;
     fcc_type := fcc_type m; fcc := fcc m; regular_cells := v;
     fcc_cells := fcc_cells m |}.

Definition set_fcc_cells (v : option (list nat)) (m : MeshTri) : MeshTri :=
  {| node_coords := node_coords m; _edge_lengths := _edge_lengths m;
     cells_nodes := cells_nodes m; cells_edges := cells_edges m;
     _interior_ce_ratios := _interior_ce_ratios m;
     _control_volumes := _control_volumes m;
     _cell_partitions := _cell_partitions m;
     _cv_centroids := _cv_centroids m; _surface_areas := _surface_areas m;
     edges := edges m; cell_circumcenters := cell_circumcenters m;
     _signed_tri_areas := _signed_tri_areas m; subdomains := subdomains m;
     is_boundary_node := is_boundary_node m;
     is_boundary_edge := is_boundary_edge m;
     is_boundary_face := is_boundary_face m;
     _interior_edge_lengths := _interior_edge_lengths m;
     _ce_ratios := _ce_ratios m; _edges_cells := _edges_cells m;
     _edge_gid_to_edge_list := _edge_gid_to_edge_list m;
     _edge_to_edge_gid := _edge_to_edge_gid m; _centroids := _centroids m;
     is_boundary_edge_individual := is_boundary_edge_individual m;
     idx_hierarchy := idx_hierarchy m;
     half_edge_coords := half_edge_coords m; ei_dot_ej := ei_dot_ej m;
     ei_dot_ei := ei_dot_ei m; cell_volumes := cell_volumes m;
     ce_ratios_per_half_edge := ce_ratios_per_half_edge m;
     fcc_type := fcc_type m; fcc := fcc m; regular_cells := regular_cells m;
     fcc_cells := v |}.
(* ------------------------------------------------------------------ *)
(** ** Methods: state and exceptions

    A method takes the object and either returns a value and the object
    as it has left it, or raises with the object as it is at that point
    (Python does not roll back). *)

Inductive outcome (A : Type) : Type :=
| Done (a : A) (m : MeshTri)
| Fail (e : exn) (m : MeshTri).

Arguments Done {A} a m.
Arguments Fail {A} e m.

Definition M (A : Type) : Type := MeshTri -> outcome A.

Definition mret {A : Type} (a : A) : M A := fun m => Done a m.

Definition mbind {A B : Type} (c : M A) (k : A -> M B) : M B :=
  fun m =>
    match c m with
    | Done a m' => k a m'
    | Fail e m' => Fail e m'
    end.

Definition lift {A : Type} (r : res A) : M A :=
  fun m =>
    match r with
    | Ret a => Done a m
    | Err e => Fail e m
    end.

(** Read an attribute of [self]. *)
Definition attr {A : Type} (f : MeshTri -> A) : M A := fun m => Done (f m) m.

(** Assign to an attribute of [self]. *)
Definition modify (f : MeshTri -> MeshTri) : M unit := fun m => Done tt (f m).

(** Use an optional attribute as an array: [e] is what Python raises when
    it is [None] or missing. *)
Definition need {A : Type} (e : exn) (f : MeshTri -> option A) : M A :=
  fun m =>
    match f m with
    | Some a => Done a m
    | None => Fail e m
    end.

Definition when (b : bool) (c : M unit) : M unit :=
  if b then c else mret tt.

Definition is_none {A : Type} (o : option A) : bool :=
  match o with
  | None => true
  | Some _ => false
  end.

Declare Scope mesh_scope.
Delimit Scope mesh_scope with mesh.

Notation "x <- c ;; k" := (mbind c (fun x => k))
  (at level 61, c at next level, right associativity) : mesh_scope.
Notation "' p <- c ;; k" := (mbind c (fun x => match x with p => k end))
  (at level 61, p pattern, c at next level, right associativity) : mesh_scope.
Notation "x <-? r ;; k" := (mbind (lift r) (fun x => k))
  (at level 61, r at next level, right associativity) : mesh_scope.
Notation "' p <-? r ;; k" := (mbind (lift r) (fun x => match x with p => k end))
  (at level 61, p pattern, r at next level, right associativity) : mesh_scope.
Notation "c ;;; k" := (mbind c (fun _ => k))
  (at level 61, right associativity) : mesh_scope.


Section Kernel.

(** Modelled from the spec: [compute_tri_areas_and_ce_ratios] lives in
    [voropy/base.py], which is not among the sources.  Section 6 gives its
    contract per triangle, [triangleAreaAndCovolumeRatios
    (pairwiseDotProducts[3]) -> (area, ratios[3])]; it is a parameter of
    the development. *)
Variable triangleAreaAndCovolumeRatios : tri float -> float * tri float.

(** Modelled from the spec: [compute_triangle_circumcenters] lives in
    [voropy/base.py], which is not among the sources.  Section 6 gives its
    contract per triangle, [circumcenter(cornerCoords[3],
    squaredEdgeLengths[3], pairwiseDotProducts[3]) -> point]; it is a
    parameter of the development. *)
Variable circumcenter : tri point -> tri float -> tri float -> point.

(** [numpy.argsort] with the default [kind]: the positions of the entries
    in ascending order of the entries.  The default sort is not stable,
    so the order among equal entries is whatever the installed numpy
    produces; the function is a parameter of the development, and
    [np_argsort] above is one instance of it. *)
Variable argsort : list nat -> list nat.

(** The batched form the source calls: one triangle per column. *)
Definition compute_tri_areas_and_ce_ratios (ei_dot_ej : tri (list float))
  : list float * tri (list float) :=
  let r := map triangleAreaAndCovolumeRatios (transpose_3n ei_dot_ej) in
  (map fst r, transpose_n3 (map snd r)).

Definition compute_triangle_circumcenters (X : tri (list point))
    (ei_dot_ei ei_dot_ej : tri (list float)) : list point :=
  map3 circumcenter (transpose_3n X) (transpose_3n ei_dot_ei) (transpose_3n ei_dot_ej).

(** [_isosceles_ce_ratios]: the result has shape (2, n). *)
Definition _isosceles_ce_ratios (p0 p1 p2 : list point) : res (list float * list float) :=
  let e0 := rows_sub p2 p1 in
  let e1 := rows_sub p0 p2 in
  let e2 := rows_sub p1 p0 in
  _ <~ py_assert (forallb (fun x => fabs x <? tol_isosceles)%float
                    (map2 PrimFloat.sub (map2 dot e2 e2) (map2 dot e1 e1))) ;;
  let ei_dot_ej := Tri (map2 dot e1 e2) (map2 dot e2 e0) (map2 dot e0 e1) in
  let ce_ratios := snd (compute_tri_areas_and_ce_ratios ei_dot_ej) in
  _ <~ py_assert (forallb (fun ab => fabs (fst ab - snd ab) <? tol_symmetry * fst ab)%float
                    (combine (t1 ce_ratios) (t2 ce_ratios))) ;;
  Ret (t0 ce_ratios, t1 ce_ratios).

(** [FlatCellCorrector.__init__] *)
Definition fcc_init (cells : list (tri nat)) (flat_edge_local_id : list nat)
    (node_coords : list point) : res FlatCellCorrector :=
  let p0_local_id := flat_edge_local_id in
  let p1_local_id := map (fun k => (k + 1) mod 3) flat_edge_local_id in
  let p2_local_id := map (fun k => (k + 2) mod 3) flat_edge_local_id in
  p0_id <~ pick_local cells p0_local_id ;;
  p1_id <~ pick_local cells p1_local_id ;;
  p2_id <~ pick_local cells p2_local_id ;;
  p0 <~ take node_coords p0_id ;;
  p1 <~ take node_coords p1_id ;;
  p2 <~ take node_coords p2_id ;;
  let '(ghost, q) := _mirror_point p0 p1 p2 in
  ce <~ _isosceles_ce_ratios (p1 ++ p2) (p0 ++ p0) (ghost ++ ghost) ;;
  let n := length p0 in
  Ret {| fc_cells := cells;
         flat_edge_local_id := flat_edge_local_id;
         fc_node_coords := node_coords;
         p0_local_id := p0_local_id;
         p1_local_id := p1_local_id;
         p2_local_id := p2_local_id;
         p0_id := p0_id; p1_id := p1_id; p2_id := p2_id;
         p0 := p0; p1 := p1; p2 := p2;
         q := q;
         ce_ratios1 := (firstn n (fst ce), firstn n (snd ce));
         ce_ratios2 := (skipn n (fst ce), skipn n (snd ce));
         ghostedge_length_2 := map2 dot (rows_sub ghost p0) (rows_sub ghost p0) |}.

(** [FlatCellCorrector.get_ce_ratios]: shape (n, 3).  The three writes
    fill the three distinct slots of every row of the uninitialised
    array. *)
Definition fcc_get_ce_ratios (f : FlatCellCorrector) : list (tri float) :=
  map3 (fun (_ : tri nat) (k : nat) (c : float * float) =>
          tset ((k + 2) mod 3) (snd c)
            (tset ((k + 1) mod 3) (fst c)
               (tset k 0%float (Tri 0%float 0%float 0%float))))
       (fc_cells f) (p0_local_id f)
       (combine (snd (ce_ratios2 f)) (snd (ce_ratios1 f))).

Definition quarter_times (r l2 : list float) : list float :=
  map2 (fun x y => 0.25 * x * y)%float r l2.

(** [FlatCellCorrector.get_control_volumes]: ids and values of shape
    (n, 3, 2). *)
Definition fcc_get_control_volumes (f : FlatCellCorrector)
  : list (tri (nat * nat)) * list (tri (float * float)) :=
  let e1 := rows_sub (p0 f) (p2 f) in
  let e2 := rows_sub (p1 f) (p0 f) in
  let e1_length2 := map2 dot e1 e1 in
  let e2_length2 := map2 dot e2 e2 in
  let ids := map3 (fun i0 i1 i2 => Tri (i0, i0) (i0, i1) (i0, i2))
                  (p0_id f) (p1_id f) (p2_id f) in
  let a := quarter_times (fst (ce_ratios1 f)) (ghostedge_length_2 f) in
  let b := quarter_times (fst (ce_ratios2 f)) (ghostedge_length_2 f) in
  let c := quarter_times (snd (ce_ratios1 f)) e2_length2 in
  let d := quarter_times (snd (ce_ratios2 f)) e1_length2 in
  let vals := map3 (fun ab c d => Tri ab (c, c) (d, d)) (combine a b) c d in
  (ids, vals).

(** [FlatCellCorrector.surface_areas].  [self.ce_ratios1[:, 0]] is the
    first column of a (2, n) array, which is then multiplied with an array
    of length n by broadcasting; the norms are taken over the whole
    matrix. *)
Definition fcc_surface_areas (f : FlatCellCorrector)
  : res (list (nat * nat) * list (float * float)) :=
  let ghostedge_length := map PrimFloat.sqrt (ghostedge_length_2 f) in
  c10 <~ getitem (fst (ce_ratios1 f)) 0 ;;
  c11 <~ getitem (snd (ce_ratios1 f)) 0 ;;
  cv1 <~ bcast2 PrimFloat.mul [c10; c11] ghostedge_length ;;
  c20 <~ getitem (fst (ce_ratios2 f)) 0 ;;
  c21 <~ getitem (snd (ce_ratios2 f)) 0 ;;
  cv2 <~ bcast2 PrimFloat.mul [c20; c21] ghostedge_length ;;
  let ids0 := combine (p0_id f) (p0_id f) in
  let vals0 := combine cv1 cv2 in
  let ids1 := combine (p1_id f) (p2_id f) in
  let n1 := frobenius (rows_sub (q f) (p1 f)) in
  let n2 := frobenius (rows_sub (q f) (p2 f)) in
  let vals1 := combine (map (fun x => n1 - x)%float cv1) (map (fun x => n2 - x)%float cv2) in
  Ret (ids0 ++ ids1, vals0 ++ vals1).

Definition third_of (area : float) (a b c : point) : point :=
  vdiv (vscale area (vadd (vadd a b) c)) 3%float.

(** [FlatCellCorrector.integral_x]: ids of shape (n, 3, 2), values of
    shape (n, 3, 2, d). *)
Definition fcc_integral_x (f : FlatCellCorrector)
  : list (tri (nat * nat)) * list (tri (point * point)) :=
  let e0 := rows_sub (p2 f) (p1 f) in
  let e1 := rows_sub (p0 f) (p2 f) in
  let e2 := rows_sub (p1 f) (p0 f) in
  let neg := map (map PrimFloat.opp) in
  let lambda1 := map2 PrimFloat.div (map (PrimFloat.mul 0.5%float) (map2 dot e2 e2)) (map2 dot e0 (neg e2)) in
  let lambda2 := map2 PrimFloat.div (map (PrimFloat.mul 0.5%float) (map2 dot e1 e1)) (map2 dot e0 (neg e1)) in
  let q1 := rows_add (p1 f) (rows_scale lambda1 (rows_sub (p2 f) (p1 f))) in
  let q2 := rows_add (p2 f) (rows_scale lambda2 (rows_sub (p1 f) (p2 f))) in
  let em1 := map (vscale 0.5%float) (rows_add (p0 f) (p2 f)) in
  let em2 := map (vscale 0.5%float) (rows_add (p1 f) (p0 f)) in
  let e1_length2 := map2 dot e1 e1 in
  let e2_length2 := map2 dot e2 e2 in
  let area_p0_q_q1 := quarter_times (fst (ce_ratios1 f)) (ghostedge_length_2 f) in
  let area_p0_q_q2 := quarter_times (fst (ce_ratios2 f)) (ghostedge_length_2 f) in
  let area_p0_q1_em2 := quarter_times (snd (ce_ratios1 f)) e2_length2 in
  let area_p1_q1_em2 := area_p0_q1_em2 in
  let area_p0_q2_em1 := quarter_times (snd (ce_ratios2 f)) e1_length2 in
  let area_p2_q2_em1 := area_p0_q2_em1 in
  let ids := map3 (fun i0 i1 i2 => Tri (i0, i0) (i0, i1) (i0, i2))
                  (p0_id f) (p1_id f) (p2_id f) in
  let w (area : list float) (a b c : list point) : list point :=
    map2 (fun ar abc => third_of ar (fst abc) (fst (snd abc)) (snd (snd abc)))
         area (combine a (combine b c)) in
  let v0 := combine (w area_p0_q_q1 (p0 f) (q f) q1) (w area_p0_q_q2 (p0 f) (q f) q2) in
  let v1 := combine (w area_p0_q1_em2 (p0 f) q1 em2) (w area_p1_q1_em2 (p1 f) q1 em2) in
  let v2 := combine (w area_p0_q2_em1 (p0 f) q2 em1) (w area_p2_q2_em1 (p2 f) q2 em1) in
  (ids, map3 (fun a b c => Tri a b c) v0 v1 v2).

Open Scope mesh_scope.

(** [self.local_idx = [[1, 2], [2, 0], [0, 1]].T]: half-edge [k] of a
    cell runs from its node [k + 1] to its node [k + 2]. *)
Definition local_idx {A : Type} (nds : tri A) : tri A * tri A :=
  (Tri (t1 nds) (t2 nds) (t0 nds), Tri (t2 nds) (t0 nds) (t1 nds)).

(** ** Topology *)

(** [a[mask]] for a (3, n) array and a mask of the same shape, in C
    order. *)
Definition mask_select_3n {A : Type} (t : tri (list A)) (mask : tri (list bool))
  : res (list A) :=
  a <~ mask_select (t0 t) (t0 mask) ;;
  b <~ mask_select (t1 t) (t1 mask) ;;
  c <~ mask_select (t2 t) (t2 mask) ;;
  Ret (a ++ b ++ c).

(** [MeshTri.create_edges] *)
Definition create_edges : M unit :=
  ih <- attr idx_hierarchy ;;
  let n := length (t0 (fst ih)) in
  let a := map sort2 (combine (flat_3n (fst ih)) (flat_3n (snd ih))) in
  let '(a_unique, inv, cts) := unique_rows a in
  _ <-? py_assert (forallb (fun c => c <? 3) cts) ;;
  cts_inv <-? take cts inv ;;
  modify (set_is_boundary_edge (Some (reshape_3n n (map (fun c => c =? 1) cts_inv)))) ;;;
  modify (set_is_boundary_edge_individual (Some (map (fun c => c =? 1) cts))) ;;;
  modify (set_edges (Some a_unique)) ;;;
  modify (set_cells_edges (Some (transpose_3n (reshape_3n n inv)))) ;;;
  modify (set__edges_cells None) ;;;
  modify (set__edge_gid_to_edge_list None) ;;;
  modify (set__edge_to_edge_gid
            (Some (np_where (map (fun c => c =? 1) cts),
                   np_where (map (fun c => negb (c =? 1)) cts)))).

(** The second column of [_edge_gid_to_edge_list]: the rank of an edge
    among the edges with as many adjacent cells.  The array is allocated
    with [numpy.empty]; a slot that is never written is shown as 0. *)
Fixpoint gid_to_list (count : list nat) (n1 n2 : nat) : list (nat * nat) :=
  match count with
  | [] => []
  | c :: t =>
      if c =? 1 then (c, n1) :: gid_to_list t (S n1) n2
      else if c =? 2 then (c, n2) :: gid_to_list t n1 (S n2)
      else (c, 0) :: gid_to_list t n1 n2
  end.

(** [MeshTri._compute_edges_cells] *)
Definition _compute_edges_cells : M unit :=
  e <- need TypeError edges ;;
  ce <- need KeyError cells_edges ;;
  let num_edges := length e in
  (* counts: accumulated with add.at, never read *)
  _ <-? take (repeat 0 num_edges) (flat_n3 ce) ;;
  let edges_flat := flat_n3 ce in
  let idx_sort := argsort edges_flat in
  sorted <-? take edges_flat idx_sort ;;
  let '(idx_start, count) := grp_start_len sorted in
  start1 <-? mask_select idx_start (map (fun c => c =? 1) count) ;;
  res1 <-? take idx_sort start1 ;;
  idx <-? mask_select idx_start (map (fun c => c =? 2) count) ;;
  res2a <-? take idx_sort idx ;;
  res2b <-? take idx_sort (map S idx) ;;
  modify (set__edges_cells
            (Some (map (fun i => i / 3) res1,
                   map2 (fun i j => (i / 3, j / 3)) res2a res2b))) ;;;
  modify (set__edge_gid_to_edge_list (Some (repeat (0, 0) num_edges))) ;;;
  _ <-? (if length count =? num_edges then Ret tt
         else if length count =? 1 then Err IndexError
         else Err ValueError) ;;
  modify (set__edge_gid_to_edge_list (Some (gid_to_list count 0 0))) ;;;
  let l1 := count_true (map (fun c => c =? 1) count) in
  let l2 := count_true (map (fun c => c =? 2) count) in
  lift (py_assert (l1 + l2 =? length count)).

(** [MeshTri.mark_boundary] *)
Definition mark_boundary : M unit :=
  e <- attr edges ;;
  when (is_none e) create_edges ;;;
  nc <- attr node_coords ;;
  ih <- attr idx_hierarchy ;;
  ibe <- attr is_boundary_edge ;;
  let unmarked := repeat false (length nc) in
  match ibe with
  | Some mask =>
      i0 <-? mask_select_3n (fst ih) mask ;;
      i1 <-? mask_select_3n (snd ih) mask ;;
      marked <-? put_const unmarked (i0 ++ i1) true ;;
      modify (set_is_boundary_node (Some marked)) ;;;
      modify (set_is_boundary_face (Some mask))
  | None =>
      (* indexing with [None] inserts an axis and selects everything *)
      marked <-? put_const unmarked (flat_3n (fst ih) ++ flat_3n (snd ih)) true ;;
      modify (set_is_boundary_node (Some marked)) ;;;
      lift (Err AssertionError)
  end.

Definition ltb0 (x : float) : bool := (x <? 0)%float.
Definition gtb0 (x : float) : bool := (0 <? x)%float.

(** [MeshTri.get_ce_ratios_per_interior_edge] *)
Definition get_ce_ratios_per_interior_edge : M (list float) :=
  cached <- attr _interior_ce_ratios ;;
  match cached with
  | Some r => mret r
  | None =>
      ce0 <- attr cells_edges ;;
      when (is_none ce0) create_edges ;;;
      e <- need TypeError edges ;;
      modify (set__ce_ratios (Some (zeros (length e)))) ;;;
      ce <- need KeyError cells_edges ;;
      ratios <- attr ce_ratios_per_half_edge ;;
      r <-? add_at (zeros (length e)) (flat_3n (transpose_n3 ce)) (flat_3n ratios) ;;
      modify (set__ce_ratios (Some r)) ;;;
      bnd <- need AttributeError is_boundary_edge_individual ;;
      ir <-? mask_select r (map negb bnd) ;;
      modify (set__interior_ce_ratios (Some ir)) ;;;
      mret ir
  end.

(** [MeshTri.get_ce_ratios] with [cell_ids=None] *)
Definition get_ce_ratios : M (tri (list float)) := attr ce_ratios_per_half_edge.

(** [MeshTri.num_delaunay_violations] *)
Definition num_delaunay_violations : M nat :=
  r <- get_ce_ratios_per_interior_edge ;;
  mret (count_true (map ltb0 r)).

(** ** Geometric quantities *)

(** [node_coords[idx_hierarchy[1]] - node_coords[idx_hierarchy[0]]] *)
Definition gather_half_edges (nc : list point)
    (ih : tri (list nat) * tri (list nat)) : res (tri (list point)) :=
  (x1 <~ trmap (take nc) (snd ih) ;;
   x0 <~ trmap (take nc) (fst ih) ;;
   Ret (tmap2 rows_sub x1 x0))%res.

(** [einsum("ijk, ijk->ij", e[[1, 2, 0]], e[[2, 0, 1]])] *)
Definition shifted_dots (e : tri (list point)) : tri (list float) :=
  Tri (map2 dot (t1 e) (t2 e)) (map2 dot (t2 e) (t0 e)) (map2 dot (t0 e) (t1 e)).

(** [einsum("ijk, ijk->ij", e, e)] *)
Definition self_dots (e : tri (list point)) : tri (list float) :=
  tmap (fun r => map2 dot r r) e.

(** Rows of an (n, 3) array and columns of a (3, n) array selected by
    [regular_cells]. *)
Definition select_rows {A : Type} (l : list A) (sel : option (list nat)) : res (list A) :=
  match sel with
  | None => Ret l
  | Some ids => take l ids
  end.

Definition select_cols {A : Type} (t : tri (list A)) (sel : option (list nat))
  : res (tri (list A)) :=
  trmap (fun r => select_rows r sel) t.

(** [a[:, ids] = vals] for (3, n) arrays. *)
Definition put_cols {A : Type} (t : tri (list A)) (ids : list nat) (vals : tri (list A))
  : res (tri (list A)) :=
  (a <~ put (t0 t) ids (t0 vals) ;;
   b <~ put (t1 t) ids (t1 vals) ;;
   c <~ put (t2 t) ids (t2 vals) ;;
   Ret (Tri a b c))%res.

(** [numpy.where(mask)] of a (3, n) mask: row indices and column
    indices, in C order. *)
Definition np_where_3n (mask : tri (list bool)) : list nat * list nat :=
  let w0 := np_where (t0 mask) in
  let w1 := np_where (t1 mask) in
  let w2 := np_where (t2 mask) in
  (map (fun _ => 0) w0 ++ map (fun _ => 1) w1 ++ map (fun _ => 2) w2,
   w0 ++ w1 ++ w2).

(** [numpy.sort] of one row of three entries. *)
Definition sort3 (c : tri nat) : tri nat :=
  let lo (x y : nat) := if x <=? y then x else y in
  let hi (x y : nat) := if x <=? y then y else x in
  let a := lo (t0 c) (t1 c) in
  let b := hi (t0 c) (t1 c) in
  Tri (lo a (t2 c)) (hi a (lo b (t2 c))) (hi b (t2 c)).

Definition fresh_mesh (nodes : list point) (cells : list (tri nat))
    (ih : tri (list nat) * tri (list nat)) (hec : tri (list point))
    (dij dii : tri (list float)) (vol : list float) (ce : tri (list float))
    (mode : option fcc_mode) : MeshTri :=
  {| node_coords := nodes;
     _edge_lengths := None;
     cells_nodes := cells;
     cells_edges := None;
     _interior_ce_ratios := None;
     _control_volumes := None;
     _cell_partitions := None;
     _cv_centroids := None;
     _surface_areas := None;
     edges := None;
     cell_circumcenters := None;
     _signed_tri_areas := None;
     subdomains := [];
     is_boundary_node := None;
     is_boundary_edge := None;
     is_boundary_face := None;
     _interior_edge_lengths := None;
     _ce_ratios := None;
     _edges_cells := None;
     _edge_gid_to_edge_list := None;
     _edge_to_edge_gid := None;
     _centroids := None;
     is_boundary_edge_individual := None;
     idx_hierarchy := ih;
     half_edge_coords := hec;
     ei_dot_ej := dij;
     ei_dot_ei := dii;
     cell_volumes := vol;
     ce_ratios_per_half_edge := ce;
     fcc_type := mode;
     fcc := None;
     regular_cells := None;
     fcc_cells := None |}.

(** The part of [MeshTri.__init__] that installs the flat cell
    corrector. *)
Definition init_fcc (mode : fcc_mode) : M unit :=
  ce <- attr ce_ratios_per_half_edge ;;
  edge_needs_fcc <-
    match mode with
    | Full => mret (tmap (map ltb0) ce)
    | _ =>
        _ <-? py_assert (match mode with Boundary => true | _ => false end) ;;
        e <- attr edges ;;
        when (is_none e) create_edges ;;;
        b <- need TypeError is_boundary_edge ;;
        mret (tmap2 (map2 andb) (tmap (map ltb0) ce) b)
    end ;;
  let '(fcc_local_edge, cells_fcc) := np_where_3n edge_needs_fcc in
  modify (set_fcc_cells (Some cells_fcc)) ;;;
  let any_col := map3 (fun a b c => a || b || c)
                   (t0 edge_needs_fcc) (t1 edge_needs_fcc) (t2 edge_needs_fcc) in
  modify (set_regular_cells (Some (np_where (map negb any_col)))) ;;;
  cn <- attr cells_nodes ;;
  nc <- attr node_coords ;;
  sub <-? take cn cells_fcc ;;
  f <-? fcc_init sub fcc_local_edge nc ;;
  modify (set_fcc (Some f)) ;;;
  ce' <-? put_cols ce cells_fcc (transpose_n3 (fcc_get_ce_ratios f)) ;;
  modify (set_ce_ratios_per_half_edge ce').

(** The optional pre-pass of [MeshTri.__init__]:
    [cells = numpy.sort(cells, axis=1); cells = cells[cells[:, 0].argsort()]]. *)
Definition prepare_cells (sort_cells : bool) (cells : list (tri nat)) : list (tri nat) :=
  if sort_cells then
    let sorted := map sort3 cells in
    map (fun i => nth i sorted (Tri 0 0 0)) (argsort (map (@t0 nat) sorted))
  else cells.

(** The check of [MeshTri.__init__] that all vertices are used:
    [is_used = zeros(len(nodes)); is_used[cells] = True;
    assert all(is_used)]. *)
Definition assert_all_used (num_nodes : nat) (cells : list (tri nat)) : res unit :=
  (is_used <~ put_const (repeat false num_nodes) (flat_n3 cells) true ;;
   py_assert (np_all is_used))%res.

(** An exception in the constructor leaves no object behind. *)
Definition constructed (o : outcome unit) : res MeshTri :=
  match o with
  | Done _ m => Ret m
  | Fail e _ => Err e
  end.

(** [MeshTri.__init__(nodes, cells, flat_cell_correction, sort_cells)] *)
Definition init (nodes : list point) (cells : list (tri nat))
    (flat_cell_correction : option fcc_mode) (sort_cells : bool) : res MeshTri :=
  (let cells := prepare_cells sort_cells cells in
   _ <~ assert_all_used (length nodes) cells ;;
   let nds := transpose_n3 cells in
   let ih := local_idx nds in
   hec <~ gather_half_edges nodes ih ;;
   let dij := shifted_dots hec in
   let dii := self_dots hec in
   let '(vol, ce) := compute_tri_areas_and_ce_ratios dij in
   let m0 := fresh_mesh nodes cells ih hec dij dii vol ce flat_cell_correction in
   match flat_cell_correction with
   | None => Ret m0
   | Some mode => constructed (init_fcc mode m0)
   end)%res.

(** [MeshTri.update_node_coordinates(X)] *)
Definition update_node_coordinates (X : list point) : M unit :=
  f <- attr fcc ;;
  _ <-? py_assert (is_none f) ;;
  nc <- attr node_coords ;;
  _ <-? py_assert ((length X =? length nc)
                   && (length (hd [] X) =? length (hd [] nc))) ;;
  modify (set_node_coords X) ;;;
  ih <- attr idx_hierarchy ;;
  hec <-? gather_half_edges X ih ;;
  modify (set_half_edge_coords hec) ;;;
  modify (set_ei_dot_ej (shifted_dots hec)) ;;;
  modify (set_ei_dot_ei (self_dots hec)) ;;;
  let '(vol, ce) := compute_tri_areas_and_ce_ratios (shifted_dots hec) in
  modify (set_cell_volumes vol) ;;;
  modify (set_ce_ratios_per_half_edge ce) ;;;
  modify (set__interior_edge_lengths None) ;;;
  modify (set_cell_circumcenters None) ;;;
  modify (set__interior_ce_ratios None) ;;;
  modify (set__control_volumes None) ;;;
  modify (set__cell_partitions None) ;;;
  modify (set__cv_centroids None) ;;;
  modify (set__surface_areas None) ;;;
  modify (set__signed_tri_areas None) ;;;
  modify (set__centroids None).

(** Modelled from the spec: [get_edge_lengths] belongs to the base class
    [_base_mesh] of [voropy/base.py], which is not among the sources.
    Section 4.2 makes the squared length of every half-edge a cached
    quantity; the length is its square root, kept in [_edge_lengths]. *)
Definition get_edge_lengths : M (tri (list float)) :=
  cached <- attr _edge_lengths ;;
  match cached with
  | Some l => mret l
  | None =>
      dii <- attr ei_dot_ei ;;
      let l := tmap (map PrimFloat.sqrt) dii in
      modify (set__edge_lengths (Some l)) ;;;
      mret l
  end.

(** [MeshTri.get_cell_partitions] *)
Definition get_cell_partitions : M (tri (list float)) :=
  cached <- attr _cell_partitions ;;
  match cached with
  | Some v => mret v
  | None =>
      dii <- attr ei_dot_ei ;;
      ce <- attr ce_ratios_per_half_edge ;;
      let v := tmap2 (map2 (fun l2 r => 0.25 * l2 * r)%float) dii ce in
      modify (set__cell_partitions (Some v)) ;;;
      mret v
  end.

(** [MeshTri.get_cell_circumcenters] *)
Definition get_cell_circumcenters : M (list point) :=
  cached <- attr cell_circumcenters ;;
  match cached with
  | Some c => mret c
  | None =>
      cn <- attr cells_nodes ;;
      nc <- attr node_coords ;;
      X <-? trmap (take nc) (transpose_n3 cn) ;;
      dii <- attr ei_dot_ei ;;
      dij <- attr ei_dot_ej ;;
      let c := compute_triangle_circumcenters X dii dij in
      modify (set_cell_circumcenters (Some c)) ;;;
      mret c
  end.

(** C-order flattening of the (n, 3, 2) arrays of the corrector. *)
Definition flat_n32 {A : Type} (l : list (tri (A * A))) : list A :=
  flat_map (fun t => [fst (t0 t); snd (t0 t); fst (t1 t); snd (t1 t);
                      fst (t2 t); snd (t2 t)]) l.

(** Python's [sum([a, b])] of two arrays: it starts from the integer 0. *)
Definition py_sum2 (a b : list float) : list float :=
  map2 PrimFloat.add (map (PrimFloat.add 0%float) a) b.

(** [MeshTri.get_control_volumes] *)
Definition get_control_volumes : M (list float) :=
  cached <- attr _control_volumes ;;
  match cached with
  | Some v => mret v
  | None =>
      parts <- get_cell_partitions ;;
      rc <- attr regular_cells ;;
      v <-? select_cols parts rc ;;
      cn <- attr cells_nodes ;;
      rows <-? select_rows cn rc ;;
      let ids := transpose_n3 rows in
      let vals := Tri (py_sum2 (t1 v) (t2 v)) (py_sum2 (t0 v) (t2 v))
                      (py_sum2 (t0 v) (t1 v)) in
      f <- attr fcc ;;
      nc <- attr node_coords ;;
      modify (set__control_volumes (Some (zeros (length nc)))) ;;;
      cv <-? add_at (zeros (length nc)) (flat_3n ids) (flat_3n vals) ;;
      modify (set__control_volumes (Some cv)) ;;;
      match f with
      | None => mret cv
      | Some f =>
          let d := fcc_get_control_volumes f in
          cv' <-? add_at cv (flat_n32 (fst d)) (flat_n32 (snd d)) ;;
          modify (set__control_volumes (Some cv')) ;;;
          mret cv'
      end
  end.

(** [MeshTri._compute_surface_areas(cell_ids)]: ids and values of shape
    (m, 3, 3). *)
Definition _compute_surface_areas (cell_ids : option (list nat))
  : M (list (tri (tri nat)) * list (tri (tri float))) :=
  all_cn <- attr cells_nodes ;;
  cn <-? select_rows all_cn cell_ids ;;
  let ids := map (fun c => Tri c c c) cn in
  el <- get_edge_lengths ;;
  el' <-? select_cols el cell_ids ;;
  let half_el := tmap (map (PrimFloat.mul 0.5%float)) el' in
  let zero := 0%float in
  let vals := map3 (fun h0 h1 h2 =>
                      Tri (Tri zero h0 h0) (Tri h1 zero h1) (Tri h2 h2 zero))
                   (t0 half_el) (t1 half_el) (t2 half_el) in
  mret (ids, vals).

(** [numpy.append(a, b)]: a new flat array; neither argument changes. *)
Definition np_append {A : Type} (a b : list A) : list A := a ++ b.

Definition flat_n33 {A : Type} (l : list (tri (tri A))) : list A :=
  flat_map (fun t => tlist (t0 t) ++ tlist (t1 t) ++ tlist (t2 t)) l.

Definition flat_pairs {A : Type} (l : list (A * A)) : list A :=
  flat_map (fun p => [fst p; snd p]) l.

(** [MeshTri.get_surface_areas].  The two calls of [numpy.append] are
    expression statements: their results are not bound to anything. *)
Definition get_surface_areas
  : M (list (tri (tri nat)) * list (tri (tri float))) :=
  cached <- attr _surface_areas ;;
  match cached with
  | Some s => mret s
  | None =>
      rc <- attr regular_cells ;;
      s <- _compute_surface_areas rc ;;
      modify (set__surface_areas (Some s)) ;;;
      f <- attr fcc ;;
      match f with
      | None => mret s
      | Some f =>
          ' (ffc_ids, ffc_vals) <-? fcc_surface_areas f ;;
          let _ := np_append (flat_n33 (fst s)) (flat_pairs ffc_ids) in
          let _ := np_append (flat_n33 (snd s)) (flat_pairs ffc_vals) in
          r <- need TypeError _surface_areas ;;
          mret r
      end
  end.

(** [MeshTri._compute_integral_x(cell_ids)]: the contributions, of shape
    (2, 3, m, d). *)
Definition _compute_integral_x (cell_ids : option (list nat))
  : M ((tri (list nat) * tri (list nat)) * (tri (list point) * tri (list point))) :=
  parts <- get_cell_partitions ;;
  right_triangle_vols <-? select_cols parts cell_ids ;;
  ih <- attr idx_hierarchy ;;
  ne0 <-? select_cols (fst ih) cell_ids ;;
  ne1 <-? select_cols (snd ih) cell_ids ;;
  nc <- attr node_coords ;;
  corner0 <-? trmap (take nc) ne0 ;;
  corner1 <-? trmap (take nc) ne1 ;;
  let edge_midpoints := tmap (map (vscale 0.5%float)) (tmap2 rows_add corner0 corner1) in
  all_cc <- get_cell_circumcenters ;;
  cc <-? select_rows all_cc cell_ids ;;
  let average (corner : tri (list point)) : tri (list point) :=
    tmap2 (fun c em => map (fun p => vdiv p 3%float) (rows_add (rows_add c em) cc))
          corner edge_midpoints in
  let contribs (corner : tri (list point)) : tri (list point) :=
    tmap2 rows_scale right_triangle_vols (average corner) in
  mret ((ne0, ne1), (contribs corner0, contribs corner1)).

(** [MeshTri.get_control_volume_centroids] *)
Definition get_control_volume_centroids : M (list point) :=
  cached <- attr _cv_centroids ;;
  match cached with
  | Some c => mret c
  | None =>
      rc <- attr regular_cells ;;
      ' (_, v) <- _compute_integral_x rc ;;
      cn <- attr cells_nodes ;;
      rows <-? select_rows cn rc ;;
      let ids := transpose_n3 rows in
      let v0 := fst v in
      let v1 := snd v in
      let vals := Tri (rows_add (t1 v1) (t2 v0)) (rows_add (t2 v1) (t0 v0))
                      (rows_add (t0 v1) (t1 v0)) in
      f <- attr fcc ;;
      nc <- attr node_coords ;;
      let num_components := length (hd [] nc) in
      let start := repeat (zeros num_components) (length nc) in
      modify (set__cv_centroids (Some start)) ;;;
      acc <-? add_at_rows start (flat_3n ids) (flat_3n vals) ;;
      modify (set__cv_centroids (Some acc)) ;;;
      acc' <- match f with
              | None => mret acc
              | Some f =>
                  let d := fcc_integral_x f in
                  a <-? add_at_rows acc (flat_n32 (fst d)) (flat_n32 (snd d)) ;;
                  modify (set__cv_centroids (Some a)) ;;;
                  mret a
              end ;;
      (* Divide by the control volume *)
      cv <- get_control_volumes ;;
      let c := map2 vdiv acc' cv in
      modify (set__cv_centroids (Some c)) ;;;
      mret c
  end.

(** ** The edge-flip engine *)

(** [a[idx] += vals] with an index array: numpy reads [a[idx]], adds and
    writes back. *)
Definition iadd_at (a : list float) (idx : list nat) (vals : list float)
  : res (list float) :=
  (old <~ take a idx ;;
   if length old =? length vals then put a idx (map2 PrimFloat.add old vals)
   else Err ValueError)%res.

(** How many slots of a row of [cells["edges"]] hold the edge [g], and
    the slot that does when there is one. *)
Definition hit_count (row : tri nat) (g : nat) : nat :=
  count_true (map (fun e => e =? g) (tlist row)).

Definition hit_index (row : tri nat) (g : nat) : nat :=
  if t0 row =? g then 0 else if t1 row =? g then 1 else 2.

(** One half of the re-summation in [_update_cell_values]: the
    contributions of the adjacent cells in one column of
    [_edges_cells[2]]. *)
Definition resum_column (interior_edge_ids edge_gids adj : list nat)
    (icr : list float) : M (list float) :=
  ce <- need KeyError cells_edges ;;
  rows <-? take ce adj ;;
  let is0 := map2 (fun r g => t0 r =? g) rows edge_gids in
  let is1 := map2 (fun r g => t1 r =? g) rows edge_gids in
  let is2 := map2 (fun r g => t2 r =? g) rows edge_gids in
  _ <-? py_assert (forallb (fun n => n =? 1)
                     (map3 (fun a b c => count_true [a; b; c]) is0 is1 is2)) ;;
  ratios <- attr ce_ratios_per_half_edge ;;
  let step (is_k : list bool) (row : list float) (icr : list float) : res (list float) :=
    (ids <~ mask_select interior_edge_ids is_k ;;
     cells <~ mask_select adj is_k ;;
     vals <~ take row cells ;;
     iadd_at icr ids vals)%res in
  icr0 <-? step is0 (t0 ratios) icr ;;
  modify (set__interior_ce_ratios (Some icr0)) ;;;
  icr1 <-? step is1 (t1 ratios) icr0 ;;
  modify (set__interior_ce_ratios (Some icr1)) ;;;
  icr2 <-? step is2 (t2 ratios) icr1 ;;
  modify (set__interior_ce_ratios (Some icr2)) ;;;
  mret icr2.

(** The signed area of one triangle from the first two coordinates of
    its corners. *)
Definition signed_area (c : tri point) : res float :=
  (x0 <~ getitem (t0 c) 0 ;; x1 <~ getitem (t1 c) 0 ;; x2 <~ getitem (t2 c) 0 ;;
   y0 <~ getitem (t0 c) 1 ;; y1 <~ getitem (t1 c) 1 ;; y2 <~ getitem (t2 c) 1 ;;
   Ret ((x2 * (y0 - y1) + x0 * (y1 - y2) + x1 * (y2 - y0)) / 2)%float)%res.

(** [MeshTri._update_cell_values(cell_ids, interior_edge_ids)] *)
Definition _update_cell_values (cell_ids interior_edge_ids : list nat) : M unit :=
  (* update idx_hierarchy *)
  cn <- attr cells_nodes ;;
  rows <-? take cn cell_ids ;;
  let new_ih := local_idx (transpose_n3 rows) in
  ih <- attr idx_hierarchy ;;
  ih0 <-? put_cols (fst ih) cell_ids (fst new_ih) ;;
  ih1 <-? put_cols (snd ih) cell_ids (snd new_ih) ;;
  modify (set_idx_hierarchy (ih0, ih1)) ;;;
  (* update self.half_edge_coords *)
  nc <- attr node_coords ;;
  sel1 <-? select_cols ih1 (Some cell_ids) ;;
  sel0 <-? select_cols ih0 (Some cell_ids) ;;
  new_hec <-? gather_half_edges nc (sel0, sel1) ;;
  hec <- attr half_edge_coords ;;
  hec' <-? put_cols hec cell_ids new_hec ;;
  modify (set_half_edge_coords hec') ;;;
  (* update self.ei_dot_ej *)
  e <-? select_cols hec' (Some cell_ids) ;;
  dij <- attr ei_dot_ej ;;
  dij' <-? put_cols dij cell_ids (shifted_dots e) ;;
  modify (set_ei_dot_ej dij') ;;;
  (* update self.ei_dot_ei *)
  dii <- attr ei_dot_ei ;;
  dii' <-? put_cols dii cell_ids (self_dots e) ;;
  modify (set_ei_dot_ei dii') ;;;
  (* update cell_volumes, ce_ratios_per_half_edge *)
  d <-? select_cols dij' (Some cell_ids) ;;
  let '(cv, ce) := compute_tri_areas_and_ce_ratios d in
  vol <- attr cell_volumes ;;
  vol' <-? put vol cell_ids cv ;;
  modify (set_cell_volumes vol') ;;;
  ratios <- attr ce_ratios_per_half_edge ;;
  ratios' <-? put_cols ratios cell_ids ce ;;
  modify (set_ce_ratios_per_half_edge ratios') ;;;
  cached <- attr _interior_ce_ratios ;;
  match cached with
  | None => mret tt
  | Some icr =>
      icr0 <-? put_const icr interior_edge_ids 0%float ;;
      modify (set__interior_ce_ratios (Some icr0)) ;;;
      e2g <- need TypeError _edge_to_edge_gid ;;
      edge_gids <-? take (snd e2g) interior_edge_ids ;;
      ec <- need TypeError _edges_cells ;;
      adj_cells <-? take (snd ec) interior_edge_ids ;;
      icr1 <- resum_column interior_edge_ids edge_gids (map fst adj_cells) icr0 ;;
      _ <- resum_column interior_edge_ids edge_gids (map snd adj_cells) icr1 ;;
      mret tt
  end ;;;
  sta <- attr _signed_tri_areas ;;
  match sta with
  | None => mret tt
  | Some a =>
      cn <- attr cells_nodes ;;
      rows <-? take cn cell_ids ;;
      p <-? rmap (fun c => trmap (getitem nc) c) rows ;;
      areas <-? rmap signed_area p ;;
      a' <-? put a cell_ids areas ;;
      modify (set__signed_tri_areas (Some a'))
  end ;;;
  modify (set__centroids None) ;;;
  modify (set__edge_lengths None) ;;;
  modify (set_cell_circumcenters None) ;;;
  modify (set__control_volumes None) ;;;
  modify (set__cell_partitions None) ;;;
  modify (set__cv_centroids None) ;;;
  modify (set__surface_areas None) ;;;
  modify (set_subdomains []).

Fixpoint nodupb (l : list nat) : bool :=
  match l with
  | [] => true
  | x :: t => negb (existsb (Nat.eqb x) t) && nodupb t
  end.

(** One round of the loop over [confs] in [_flip_edges]: the edges
    [edge_gids] leave the cells [adj_c] and join the cells [adj_d]. *)
Definition move_edges (adj_c adj_d edge_gids : list nat) : M unit :=
  (* make sure the list is unique *)
  _ <-? py_assert (nodupb edge_gids) ;;
  g2l <- need TypeError _edge_gid_to_edge_list ;;
  rows <-? take g2l edge_gids ;;
  let num_adj_cells := map fst rows in
  let edge_id := map snd rows in
  let k1 := map (fun n => n =? 1) num_adj_cells in
  let k2 := map (fun n => n =? 2) num_adj_cells in
  _ <-? py_assert (np_all (map2 xorb k1 k2)) ;;
  (* outer boundary edges *)
  edge_id1 <-? mask_select edge_id k1 ;;
  ec <- need TypeError _edges_cells ;;
  b_rows <-? take (fst ec) edge_id1 ;;
  c_k1 <-? mask_select adj_c k1 ;;
  _ <-? py_assert (np_all (map2 Nat.eqb b_rows c_k1)) ;;
  (* the assignment goes to the copy made by the index array
     [edge_id1]; [self._edges_cells[1]] keeps its entries *)
  d_k1 <-? mask_select adj_d k1 ;;
  _ <-? put b_rows (seq 0 (length b_rows)) d_k1 ;;
  (* interior edges *)
  edge_id2 <-? mask_select edge_id k2 ;;
  i_rows <-? take (snd ec) edge_id2 ;;
  c_k2 <-? mask_select adj_c k2 ;;
  let is_column0 := map2 (fun r c => fst r =? c) i_rows c_k2 in
  let is_column1 := map2 (fun r c => snd r =? c) i_rows c_k2 in
  _ <-? py_assert (np_all (map2 xorb is_column0 is_column1)) ;;
  d_k2 <-? mask_select adj_d k2 ;;
  ids0 <-? mask_select edge_id2 is_column0 ;;
  new0 <-? mask_select d_k2 is_column0 ;;
  old0 <-? take (snd ec) ids0 ;;
  interior0 <-? put (snd ec) ids0 (map2 (fun r c => (c, snd r)) old0 new0) ;;
  modify (set__edges_cells (Some (fst ec, interior0))) ;;;
  ids1 <-? mask_select edge_id2 is_column1 ;;
  new1 <-? mask_select d_k2 is_column1 ;;
  old1 <-? take interior0 ids1 ;;
  interior1 <-? put interior0 ids1 (map2 (fun r c => (fst r, c)) old1 new1) ;;
  modify (set__edges_cells (Some (fst ec, interior1))).

(** The first part of [_flip_edges]: the edge->cells index is built when
    it is missing, the rows of the edges to flip are selected and the
    batch is checked. *)
Definition select_flip_cells (is_flip_interior_edge : list bool) : M (list (nat * nat)) :=
  mode <- attr fcc_type ;;
  _ <-? py_assert (negb (is_full mode)) ;;
  ec0 <- attr _edges_cells ;;
  when (is_none ec0) _compute_edges_cells ;;;
  ec <- need TypeError _edges_cells ;;
  let interior_edges_cells := snd ec in
  (* For now, can only handle the case where each cell has at most one
     edge to flip. *)
  flipped <-? mask_select interior_edges_cells is_flip_interior_edge ;;
  let counts := snd (np_unique (flat_pairs flipped)) in
  _ <-? py_assert (forallb (fun c => c <? 2) counts) ;;
  mret flipped.

(** [MeshTri._flip_edges(is_flip_interior_edge)] *)
Definition _flip_edges (is_flip_interior_edge : list bool) : M unit :=
  flipped <- select_flip_cells is_flip_interior_edge ;;
  let adj0 := map fst flipped in
  let adj1 := map snd flipped in
  e2g <- need TypeError _edge_to_edge_gid ;;
  edge_gids <-? mask_select (snd e2g) is_flip_interior_edge ;;
  (* Get the local ids of the edge in the two adjacent cells. *)
  cedges <- need KeyError cells_edges ;;
  prev0 <-? take cedges adj0 ;;
  prev1 <-? take cedges adj1 ;;
  (* Make sure that there is exactly one match per cell *)
  _ <-? py_assert (forallb (fun n => n =? 1)
                     (map2 hit_count prev0 edge_gids ++ map2 hit_count prev1 edge_gids)) ;;
  let lids0 := map2 hit_index prev0 edge_gids in
  let lids1 := map2 hit_index prev1 edge_gids in
  cn <- attr cells_nodes ;;
  cn0 <-? take cn adj0 ;;
  cn1 <-? take cn adj1 ;;
  let at_lid (shift : nat) (rows : list (tri nat)) (lids : list nat) : list nat :=
    map2 (fun r l => tget ((l + shift) mod 3) r) rows lids in
  let verts0 := at_lid 0 cn0 lids0 in
  let verts1 := at_lid 0 cn1 lids1 in
  let verts2 := at_lid 1 cn0 lids0 in
  let verts3 := at_lid 2 cn0 lids0 in
  e <- need TypeError edges ;;
  e' <-? put e edge_gids (map sort2 (combine verts0 verts1)) ;;
  modify (set_edges (Some e')) ;;;
  (* Do the neighboring cells have equal orientation? *)
  let equal_orientation := map2 Nat.eqb (at_lid 1 cn0 lids0) (at_lid 2 cn1 lids1) in
  (* Set new cells *)
  cn' <-? put cn adj0 (map3 (fun a b c => Tri a b c) verts0 verts1 verts2) ;;
  modify (set_cells_nodes cn') ;;;
  cn'' <-? put cn' adj1 (map3 (fun a b c => Tri a b c) verts0 verts1 verts3) ;;
  modify (set_cells_nodes cn'') ;;;
  (* Set up new cells->edges relationships. *)
  let i0 := map (fun b : bool => if b then 1 else 2) equal_orientation in
  let i1 := map (fun b : bool => if b then 2 else 1) equal_orientation in
  let choose (lids shift : list nat) (prev : list (tri nat)) : list nat :=
    map3 (fun l s r => tget ((l + s) mod 3) r) lids shift prev in
  let twos := map (fun _ => 2) lids0 in
  let ones := map (fun _ => 1) lids0 in
  ce1 <-? put cedges adj0
            (map3 (fun a b c => Tri a b c)
               (choose lids1 i0 prev1) (choose lids0 twos prev0) edge_gids) ;;
  modify (set_cells_edges (Some ce1)) ;;;
  ce2 <-? put ce1 adj1
            (map3 (fun a b c => Tri a b c)
               (choose lids1 i1 prev1) (choose lids0 ones prev0) edge_gids) ;;
  modify (set_cells_edges (Some ce2)) ;;;
  (* Update the edge->cells relationship. *)
  move_edges adj0 adj1 (choose lids0 ones prev0) ;;;
  move_edges adj1 adj0 (choose lids1 i0 prev1) ;;;
  (* Schedule the cell ids for updates. *)
  let update_cell_ids := fst (np_unique (flat_pairs flipped)) in
  ce_now <- need KeyError cells_edges ;;
  rows <-? take ce_now update_cell_ids ;;
  g2l <- need TypeError _edge_gid_to_edge_list ;;
  kg <-? take g2l (flat_n3 rows) ;;
  let update_interior_edge_ids :=
    sort_uniq Nat.compare (map snd (filter (fun r => fst r =? 2) kg)) in
  _update_cell_values update_cell_ids update_interior_edge_ids.

(** The [while] loop of [flip_until_delaunay].  [fuel] bounds the number
    of iterations the model follows; [None] means that the loop is still
    running when the fuel is used up. *)
Fixpoint flip_loop (fuel : nat) (num_flip_steps : nat) (needs_flipping : list bool)
    (m : MeshTri) : option (outcome bool) :=
  if np_any needs_flipping then
    match fuel with
    | 0 => None
    | S fuel' =>
        match (_flip_edges needs_flipping ;;; get_ce_ratios_per_interior_edge) m with
        | Done r m' => flip_loop fuel' (S num_flip_steps) (map ltb0 r) m'
        | Fail e m' => Some (Fail e m')
        end
    end
  else Some (Done (1 <? num_flip_steps) m).

(** The part of [flip_until_delaunay] before the loop: [None] when one
    of the two positivity checks returns [False] at once, the first
    needs-flip set otherwise. *)
Definition flip_precheck : M (option (list bool)) :=
  (* There are no interior edges with negative covolume-edge ratio
     when using full flat cell correction. *)
  mode <- attr fcc_type ;;
  _ <-? py_assert (negb (is_full mode)) ;;
  (* If all coedge/edge ratios are positive, all cells are Delaunay. *)
  ce_ratios <- get_ce_ratios ;;
  if np_all (map gtb0 (flat_3n ce_ratios)) then mret None
  else
    (* If all _interior_ coedge/edge ratios are positive, all cells are
       Delaunay. *)
    ibe <- attr is_boundary_edge ;;
    when (is_none ibe) create_edges ;;;
    mark_boundary ;;;
    mask <- need TypeError is_boundary_edge ;;
    interior <-? mask_select_3n ce_ratios (tmap (map negb) mask) ;;
    if np_all (map gtb0 interior) then mret None
    else
      r <- get_ce_ratios_per_interior_edge ;;
      mret (Some (map ltb0 r)).

(** [MeshTri.flip_until_delaunay] *)
Definition flip_until_delaunay (fuel : nat) (m : MeshTri) : option (outcome bool) :=
  match flip_precheck m with
  | Fail e m' => Some (Fail e m')
  | Done None m' => Some (Done false m')
  | Done (Some needs_flipping) m' => flip_loop fuel 0 needs_flipping m'
  end.

(** ** Further queries *)

(** [MeshTri.get_boundary_vertices].  [numpy.where(None)] is empty. *)
Definition get_boundary_vertices : M (list nat) :=
  mark_boundary ;;;
  ibn <- attr is_boundary_node ;;
  match ibn with
  | Some marks => mret (np_where marks)
  | None => mret []
  end.

(** [MeshTri.get_ce_ratios(cell_ids)] with an index array: the index
    selects along the first axis of the (3, n) array. *)
Definition get_ce_ratios_at (cell_ids : list nat) : M (list (list float)) :=
  ce <- attr ce_ratios_per_half_edge ;;
  lift (take (tlist ce) cell_ids).

(** [MeshTri.get_centroids]: [numpy.sum(..., axis=1)] adds the three
    corners of a cell in their order. *)
Definition get_centroids : M (list point) :=
  cached <- attr _centroids ;;
  match cached with
  | Some c => mret c
  | None =>
      cn <- attr cells_nodes ;;
      nc <- attr node_coords ;;
      p <-? rmap (fun c => trmap (getitem nc) c) cn ;;
      let c := map (fun t => vdiv (vadd (vadd (t0 t) (t1 t)) (t2 t)) 3%float) p in
      modify (set__centroids (Some c)) ;;;
      mret c
  end.

(** [MeshTri.get_signed_tri_areas] *)
Definition get_signed_tri_areas : M (list float) :=
  nc <- attr node_coords ;;
  _ <-? py_assert (length (hd [] nc) =? 2) ;;
  cached <- attr _signed_tri_areas ;;
  match cached with
  | Some a => mret a
  | None =>
      cn <- attr cells_nodes ;;
      p <-? rmap (fun c => trmap (getitem nc) c) cn ;;
      areas <-? rmap signed_area p ;;
      modify (set__signed_tri_areas (Some areas)) ;;;
      mret areas
  end.

End Kernel.

(* ------------------------------------------------------------------ *)
(** ** A concrete geometry kernel *)

(** Modelled from the spec: the geometry kernel of [voropy/base.py] is not
    among the sources.  Section 4.2 fixes the ratio of a half-edge by the
    law of cosines: the squares of the two adjacent edges minus the square
    of the opposite edge, over a multiple of the area.  With
    [e0 + e1 + e2 = 0] that numerator is [-2 <e_i, e_j>], so the ratio is a
    multiple of [-<e_i, e_j> / area]; the factor 1/4 is the one for which
    the cell partitions of section 4.2 add up to the area of the cell, as
    section 8 requires.  The area is half the norm of the cross product of
    two edges, written with the three dot products. *)
Definition kernel_area_ce (d : tri float) : float * tri float :=
  let vol := (0.5 * sqrt (t2 d * t0 d + t0 d * t1 d + t1 d * t2 d))%float in
  (vol, tmap (fun x => (- x * 0.25 / vol)%float) d).

(** Modelled from the spec: the circumcenter of section 6, from the corner
    coordinates, the squared edge lengths and the pairwise dot products,
    by its barycentric coordinates [|e_k|^2 <e_i, e_j>]. *)
Definition kernel_circumcenter (X : tri point) (dii dij : tri float) : point :=
  let alpha := tmap2 PrimFloat.mul dii dij in
  let s := (t0 alpha + t1 alpha + t2 alpha)%float in
  let beta := tmap (fun a => (a / s)%float) alpha in
  vadd (vadd (vscale (t0 beta) (t0 X)) (vscale (t1 beta) (t1 X)))
       (vscale (t2 beta) (t2 X)).

(* ------------------------------------------------------------------ *)
(** ** Notions used in the statements *)

(** The sign of a number as far as the comparison with zero sees it. *)
Definition sf_negative (x : spec_float) : bool :=
  match x with
  | S754_finite true _ _ | S754_infinity true => true
  | _ => false
  end.

Definition sf_positive (x : spec_float) : bool :=
  match x with
  | S754_finite false _ _ | S754_infinity false => true
  | _ => false
  end.

Definition sf_is_zero (x : spec_float) : bool :=
  match x with
  | S754_zero _ => true
  | _ => false
  end.

Definition sf_nonfinite (x : spec_float) : bool :=
  match x with
  | S754_nan | S754_infinity _ => true
  | _ => false
  end.

(** A float that is [+0.0] or [-0.0], and one that is an infinity or
    NaN. *)
Definition is_zero (x : float) : Prop := sf_is_zero (Prim2SF x) = true.
Definition nonfinite (x : float) : Prop := sf_nonfinite (Prim2SF x) = true.

(** What [numpy.argsort] guarantees of its result: it lists every
    position of the array once, and the entries at these positions are in
    ascending order.  Nothing is said about the order of the positions of
    equal entries. *)
Definition sorts (srt : list nat -> list nat) : Prop :=
  forall l, Permutation (srt l) (seq 0 (length l)) /\
            StronglySorted le (map (fun p => nth p l 0) (srt l)).

(** The cache of the cell partitions is empty or holds what
    [get_cell_partitions] makes of the arrays of the object. *)
Definition cell_partitions_coherent (m : MeshTri) : Prop :=
  match _cell_partitions m with
  | None => True
  | Some v =>
      v = tmap2 (map2 (fun l2 r => 0.25 * l2 * r)%float)
                (ei_dot_ei m) (ce_ratios_per_half_edge m)
  end.

(** ** Example meshes *)

(** One flat triangle: the angle at node 0 is obtuse, the edge opposite
    to it is on the boundary. *)
Definition flat_nodes : list point :=
  [[0; 1]; [-2; 0]; [2; 0]]%float.

Definition one_cell : list (tri nat) := [Tri 0 1 2].

(** One triangle with an obtuse angle at node 2, such that the two
    partitions of node 0 cancel. *)
Definition cancelling_nodes : list point :=
  [[5; 0]; [-3; 6]; [0; 0]]%float.

(** The object that a call of the constructor leaves, for the examples
    (the empty mesh stands in when the constructor raises). *)
Definition empty_mesh : MeshTri :=
  fresh_mesh [] [] (Tri [] [] [], Tri [] [] []) (Tri [] [] [])
    (Tri [] [] []) (Tri [] [] []) [] (Tri [] [] []) None.

Definition built (r : res MeshTri) : MeshTri :=
  match r with
  | Ret m => m
  | Err _ => empty_mesh
  end.

Definition cancelling_mesh : MeshTri :=
  built (init kernel_area_ce np_argsort cancelling_nodes one_cell None false).

Definition flat_mesh : MeshTri :=
  built (init kernel_area_ce np_argsort flat_nodes one_cell (Some Boundary) false).

(** Node [i] is a corner of cell [c]. *)
Definition uses (c : tri nat) (i : nat) : Prop :=
  t0 c = i \/ t1 c = i \/ t2 c = i.

(** Every entry of the cell table is the id of a node. *)
Definition cells_in_range (num_nodes : nat) (cells : list (tri nat)) : Prop :=
  forall c i, In c cells -> uses c i -> i < num_nodes.

(** The pairs of ratios that [_isosceles_ce_ratios] compares: for every
    isosceles triangle the ratios of its two legs. *)
Definition leg_ratios (K : tri float -> float * tri float)
    (p0 p1 p2 : list point) : list (float * float) :=
  let e0 := rows_sub p2 p1 in
  let e1 := rows_sub p0 p2 in
  let e2 := rows_sub p1 p0 in
  let ce := snd (compute_tri_areas_and_ce_ratios K
                   (Tri (map2 dot e1 e2) (map2 dot e2 e0) (map2 dot e0 e1))) in
  combine (t1 ce) (t2 ce).

(** The two ratios agree within the relative tolerance 1e-10; their
    difference exceeds it. *)
Definition within_tolerance (ab : float * float) : bool :=
  (fabs (fst ab - snd ab) <? tol_symmetry * fst ab)%float.

Definition exceeds_tolerance (ab : float * float) : bool :=
  (tol_symmetry * fst ab <? fabs (fst ab - snd ab))%float.

(** The points of the cells that a corrector is built for: the vertex
    opposite to the flat edge and the two ends of that edge. *)
Definition corrected_points (cells : list (tri nat)) (flat_edge_local_id : list nat)
    (node_coords : list point) (P0 P1 P2 : list point) : Prop :=
  exists i0 i1 i2,
    pick_local cells flat_edge_local_id = Ret i0 /\
    pick_local cells (map (fun k => (k + 1) mod 3) flat_edge_local_id) = Ret i1 /\
    pick_local cells (map (fun k => (k + 2) mod 3) flat_edge_local_id) = Ret i2 /\
    take node_coords i0 = Ret P0 /\
    take node_coords i1 = Ret P1 /\
    take node_coords i2 = Ret P2.

(** The ratios of the legs of the two isosceles triangles of every
    corrected cell: those at [p1] first, then those at [p2]. *)
Definition mirror_leg_ratios (K : tri float -> float * tri float)
    (P0 P1 P2 : list point) : list (float * float) :=
  let ghost := fst (_mirror_point P0 P1 P2) in
  leg_ratios K (P1 ++ P2) (P0 ++ P0) (ghost ++ ghost).

(** What [get_control_volume_centroids] does before it divides: the
    contributions of the regular cells and of the flat cell corrector to
    the integral of x over each control volume are added up, node by
    node, in [_cv_centroids]. *)
Definition accumulated_integral_x (C : tri point -> tri float -> tri float -> point)
  : M (list point) :=
  (rc <- attr regular_cells ;;
   ' (_, v) <- _compute_integral_x C rc ;;
   cn <- attr cells_nodes ;;
   rows <-? select_rows cn rc ;;
   let ids := transpose_n3 rows in
   let v0 := fst v in
   let v1 := snd v in
   let vals := Tri (rows_add (t1 v1) (t2 v0)) (rows_add (t2 v1) (t0 v0))
                   (rows_add (t0 v1) (t1 v0)) in
   f <- attr fcc ;;
   nc <- attr node_coords ;;
   let num_components := length (hd [] nc) in
   let start := repeat (zeros num_components) (length nc) in
   modify (set__cv_centroids (Some start)) ;;;
   acc <-? add_at_rows start (flat_3n ids) (flat_3n vals) ;;
   modify (set__cv_centroids (Some acc)) ;;;
   match f with
   | None => mret acc
   | Some f =>
       let d := fcc_integral_x f in
       a <-? add_at_rows acc (flat_n32 (fst d)) (flat_n32 (snd d)) ;;
       modify (set__cv_centroids (Some a)) ;;;
       mret a
   end)%mesh.

(** One triangle whose three corners are on a line, node 0 between the
    other two. *)
Definition collinear_nodes : list point :=
  [[0; 0]; [-1; 0]; [1; 0]]%float.

(** The object as a method call leaves it, whether it returns or
    raises. *)
Definition after {A : Type} (o : outcome A) : MeshTri :=
  match o with
  | Done _ m => m
  | Fail _ m => m
  end.

(** How many adjacency slots of the edges selected for flipping hold the
    cell [c]. *)
Definition times_selected (flipped : list (nat * nat)) (c : nat) : nat :=
  count_eq Nat.eqb c (flat_pairs flipped).

(** [m'] is [m] except, at most, for the edge->cells index that
    [_compute_edges_cells] builds. *)
Definition same_but_edge_index (m m' : MeshTri) : Prop :=
  m' = set__edge_gid_to_edge_list (_edge_gid_to_edge_list m')
         (set__edges_cells (_edges_cells m') m).

(** A fan of three triangles around node 0: its two interior edges are
    both edges of the middle cell. *)
Definition fan_nodes : list point :=
  [[0; 0]; [1; 0]; [1; 1]; [0; 1]; [-1; 1]]%float.

Definition fan_cells : list (tri nat) := [Tri 0 1 2; Tri 0 2 3; Tri 0 3 4].

Definition fan_mesh : MeshTri :=
  after (create_edges (built (init kernel_area_ce np_argsort fan_nodes fan_cells None false))).

(** One pass of the loop of [flip_until_delaunay]: flip the batch, then
    recompute the aggregated ratios. *)
Definition flip_step (K : tri float -> float * tri float) (srt : list nat -> list nat)
    (needs_flipping : list bool)
  : M (list float) :=
  (_flip_edges K srt needs_flipping ;;; get_ce_ratios_per_interior_edge)%mesh.

Set Warnings "-inexact-float".

(** A quadrilateral with its corners on the circle of radius 2.15 around
    the origin (1.29 and 1.72 are 0.6 and 0.8 times 2.15), split along the
    diagonal from node 0 to node 2, and one more triangle on each of its
    four sides. *)
Definition cocircular_nodes : list point :=
  [[2.15; 0]; [0; 2.15]; [-1.72; 1.29]; [1.29; -1.72];
   [6.3; 3.1]; [-1; 6.9]; [-7; 0]; [2.2; -6.6]]%float.

Set Warnings "inexact-float".

Definition cocircular_cells : list (tri nat) :=
  [Tri 0 1 2; Tri 0 2 3; Tri 0 1 4; Tri 1 2 5; Tri 2 3 6; Tri 3 0 7].

Definition cocircular_mesh : MeshTri :=
  built (init kernel_area_ce np_argsort cocircular_nodes cocircular_cells None false).

(** The batch that every pass finds on that mesh: the diagonal of the
    quadrilateral, the second of the five interior edges. *)
Definition diagonal_only : list bool := [false; true; false; false; false].

(** The object when the loop starts. *)
Definition cocircular_start : MeshTri := after (flip_precheck cocircular_mesh).

(** The array that [_compute_edges_cells] sorts in the first pass. *)
Definition cocircular_edges_flat : list nat :=
  match cells_edges cocircular_start with
  | Some ce => flat_n3 ce
  | None => []
  end.

(** Every list of the positions [rem] in which the keys ascend: the head
    is any position whose key is least, the tail orders the others. *)
Fixpoint ascending_orders (key : nat -> nat) (fuel : nat) (rem : list nat)
  : list (list nat) :=
  match fuel with
  | 0 => [[]]
  | S fuel' =>
      flat_map (fun i =>
                  if forallb (fun j => key i <=? key j) rem
                  then map (cons i) (ascending_orders key fuel' (remove Nat.eq_dec i rem))
                  else [])
               rem
  end.

(** Everything that an argsort of an array may return. *)
Definition argsort_results (l : list nat) : list (list nat) :=
  ascending_orders (fun i => nth i l 0) (length l) (seq 0 (length l)).

(** The object after one pass and after two, when the argsort of the
    first pass returned [order]. *)
Definition cocircular_odd (order : list nat) : MeshTri :=
  after (flip_step kernel_area_ce (fun _ => order) diagonal_only cocircular_start).

Definition cocircular_even (order : list nat) : MeshTri :=
  after (flip_step kernel_area_ce (fun _ => order) diagonal_only (cocircular_odd order)).

(** With that argsort result the loop goes from the start to the odd
    state, on to the even state and back to the odd state, the diagonal
    being the batch each time; the index of the first pass stays. *)
Definition diagonal_flips_back (order : list nat) : Prop :=
  (exists r, flip_step kernel_area_ce (fun _ => order) diagonal_only cocircular_start
             = Done r (cocircular_odd order) /\ map ltb0 r = diagonal_only) /\
  (exists r, flip_step kernel_area_ce (fun _ => order) diagonal_only (cocircular_odd order)
             = Done r (cocircular_even order) /\ map ltb0 r = diagonal_only) /\
  (exists r, flip_step kernel_area_ce (fun _ => order) diagonal_only (cocircular_even order)
             = Done r (cocircular_odd order) /\ map ltb0 r = diagonal_only) /\
  _edges_cells (cocircular_odd order) <> None /\
  _edges_cells (cocircular_even order) <> None.

(** A kite split along its long diagonal: the angles opposite to the
    diagonal are obtuse, one flip repairs it. *)
Definition kite_nodes : list point :=
  [[-2; 0]; [0; -1]; [2; 0]; [0; 1]]%float.

Definition two_cells : list (tri nat) := [Tri 0 1 2; Tri 0 2 3].

Definition kite_mesh : MeshTri :=
  built (init kernel_area_ce np_argsort kite_nodes two_cells None false).

(** ** Shapes and freshly built edges *)

(** The three rows of a (3, n) array have length [n]. *)
Definition shape3 {A : Type} (n : nat) (t : tri (list A)) : Prop :=
  length (t0 t) = n /\ length (t1 t) = n /\ length (t2 t) = n.

(** The arrays that the flip engine indexes with each other agree in
    shape, and every node id is the index of a node. *)
Record well_shaped (m : MeshTri) : Prop := {
  ws_cells :
    Forall (fun c => forall i, uses c i -> i < length (node_coords m)) (cells_nodes m);
  ws_ih0 : shape3 (length (cells_nodes m)) (fst (idx_hierarchy m));
  ws_ih1 : shape3 (length (cells_nodes m)) (snd (idx_hierarchy m));
  ws_ih0_range :
    Forall (fun i => i < length (node_coords m)) (flat_3n (fst (idx_hierarchy m)));
  ws_ih1_range :
    Forall (fun i => i < length (node_coords m)) (flat_3n (snd (idx_hierarchy m)));
  ws_ratios : shape3 (length (cells_nodes m)) (ce_ratios_per_half_edge m);
  ws_mask :
    forall mask, is_boundary_edge m = Some mask -> shape3 (length (cells_nodes m)) mask
}.

(** The rows that [create_edges] deduplicates: one sorted node pair per
    half-edge, and the result of the deduplication. *)
Definition half_edge_rows (ih : tri (list nat) * tri (list nat)) : list (nat * nat) :=
  map sort2 (combine (flat_3n (fst ih)) (flat_3n (snd ih))).

Definition edge_ids (m : MeshTri) : list nat :=
  snd (fst (unique_rows (half_edge_rows (idx_hierarchy m)))).

Definition edge_counts (m : MeshTri) : list nat :=
  snd (unique_rows (half_edge_rows (idx_hierarchy m))).

(** No edges have been built yet. *)
Definition edges_absent (m : MeshTri) : Prop :=
  edges m = None /\ cells_edges m = None /\ is_boundary_edge m = None.

(** The edges of the object are the ones [create_edges] makes of its
    present cells. *)
Definition edges_current (m : MeshTri) : Prop :=
  let n := length (t0 (fst (idx_hierarchy m))) in
  forallb (fun c => c <? 3) (edge_counts m) = true /\
  edges m = Some (fst (fst (unique_rows (half_edge_rows (idx_hierarchy m))))) /\
  cells_edges m = Some (transpose_3n (reshape_3n n (edge_ids m))) /\
  is_boundary_edge_individual m = Some (map (fun c => c =? 1) (edge_counts m)) /\
  is_boundary_edge m =
    Some (reshape_3n n (map (fun g => nth g (edge_counts m) 0 =? 1) (edge_ids m))).

(** The state in which the constructor leaves a mesh, as far as the
    queries on interior edges and the flip engine are concerned. *)
Record constructed_state (m : MeshTri) : Prop := {
  cs_shaped : well_shaped m;
  cs_edges : edges_absent m \/ edges_current m;
  cs_interior : _interior_ce_ratios m = None
}.

(** The object with the edges that [create_edges] installs. *)
Definition install_edges (m : MeshTri) : MeshTri :=
  let n := length (t0 (fst (idx_hierarchy m))) in
  let cts := edge_counts m in
  set__edge_to_edge_gid
    (Some (np_where (map (fun c => c =? 1) cts),
           np_where (map (fun c => negb (c =? 1)) cts)))
    (set__edge_gid_to_edge_list None
       (set__edges_cells None
          (set_cells_edges (Some (transpose_3n (reshape_3n n (edge_ids m))))
             (set_edges (Some (fst (fst (unique_rows (half_edge_rows (idx_hierarchy m))))))
                (set_is_boundary_edge_individual (Some (map (fun c => c =? 1) cts))
                   (set_is_boundary_edge
                      (Some (reshape_3n n
                               (map (fun g => nth g cts 0 =? 1) (edge_ids m))))
                      m)))))).

(** The object with the boundary marks that [mark_boundary] installs for
    the mask [mask]. *)
Definition boundary_marks (m : MeshTri) (mask : tri (list bool)) : list bool :=
  let ih := idx_hierarchy m in
  let sel (t : tri (list nat)) :=
    mask_aux (t0 t) (t0 mask) ++ mask_aux (t1 t) (t1 mask) ++ mask_aux (t2 t) (t2 mask) in
  match put_const (repeat false (length (node_coords m))) (sel (fst ih) ++ sel (snd ih)) true with
  | Ret marked => marked
  | Err _ => []
  end.

Definition install_boundary (m : MeshTri) (mask : tri (list bool)) : MeshTri :=
  set_is_boundary_face (Some mask)
    (set_is_boundary_node (Some (boundary_marks m mask)) m).

(** Two acute triangles with a common edge. *)
Definition rhombus_nodes : list point := [[0; 0]; [2; 0]; [1; 2]; [3; 2]]%float.

Definition rhombus_cells : list (tri nat) := [Tri 0 1 2; Tri 1 3 2].

Definition rhombus_full_mesh : MeshTri :=
  built (init kernel_area_ce np_argsort rhombus_nodes rhombus_cells (Some Full) false).

(** An obtuse triangle whose longest edge lies on the boundary, and an
    acute neighbour. *)
Definition wedge_nodes : list point := [[0; 1]; [-2; 0]; [2; 0]; [-2; 2]]%float.

Definition wedge_cells : list (tri nat) := [Tri 0 1 2; Tri 0 3 1].

Definition wedge_mesh : MeshTri :=
  built (init kernel_area_ce np_argsort wedge_nodes wedge_cells None false).

(** What [flip_until_delaunay] may change when it does not flip: the
    lazily built edges, the boundary marks and the cached interior
    ratios. *)
Definition only_lazy_structures_built (m m' : MeshTri) : Prop :=
  cells_nodes m' = cells_nodes m /\
  node_coords m' = node_coords m /\
  ce_ratios_per_half_edge m' = ce_ratios_per_half_edge m /\
  idx_hierarchy m' = idx_hierarchy m /\
  cell_volumes m' = cell_volumes m /\
  (forall e, edges m = Some e -> edges m' = Some e) /\
  (forall ce, cells_edges m = Some ce -> cells_edges m' = Some ce).

(** The values that [add.at] adds to the slot [g], in the order in which
    it adds them. *)
Definition contributions (g : nat) (iv : list (nat * float)) : list float :=
  map snd (filter (fun p => fst p =? g) iv).

(** The attributes that no step of the flip engine writes, and the tables
    that only [_flip_edges] and [_update_cell_values] themselves write. *)
Definition fixed_part (m : MeshTri) :=
  (fcc_type m, node_coords m, is_boundary_edge m, is_boundary_face m,
   is_boundary_node m, is_boundary_edge_individual m).

Definition table_part (m : MeshTri) :=
  (cells_nodes m, idx_hierarchy m, ce_ratios_per_half_edge m, edges m, cells_edges m).

(** [m'] is [m] except, at most, for the marks of the boundary nodes. *)
Definition same_but_boundary_nodes (m m' : MeshTri) : Prop :=
  m' = set_is_boundary_node (is_boundary_node m') m.

(** A fan of four triangles around the interior node 0 and one flat
    triangle on top of the edge between the nodes 1 and 2. *)
Definition cap_nodes : list point :=
  [[0; 0]; [1; -2]; [1; 2]; [-3; 1]; [-3; -1]; [1.5; 0]]%float.

Definition cap_cells : list (tri nat) :=
  [Tri 1 5 2; Tri 0 1 2; Tri 0 2 3; Tri 0 3 4; Tri 0 4 1].

Definition cap_mesh : MeshTri :=
  built (init kernel_area_ce np_argsort cap_nodes cap_cells None false).

(** The state in which a call of [flip_until_delaunay] leaves its
    object. *)
Definition after_flipping (fuel : nat) (m : MeshTri) : MeshTri :=
  match flip_until_delaunay kernel_area_ce np_argsort fuel m with
  | Some o => after o
  | None => m
  end.

(** Three acute triangles in space that share the edge between the
    nodes 0 and 1. *)
Definition book_nodes : list point :=
  [[0; 0; 0]; [2; 0; 0]; [1; 2; 0]; [1; 0; 2]; [1; -2; 0]]%float.

Definition book_cells : list (tri nat) := [Tri 0 1 2; Tri 0 1 3; Tri 0 1 4].

Definition book_mesh : MeshTri :=
  built (init kernel_area_ce np_argsort book_nodes book_cells None false).

(** What the loop of [flip_until_delaunay] maintains: the mode allows
    flips, the tables agree in shape, the edges exist, and the boundary
    mask is the one that was built before the first flip. *)
Record flip_ready (mask : tri (list bool)) (m : MeshTri) : Prop := {
  fr_mode : is_full (fcc_type m) = false;
  fr_shaped : well_shaped m;
  fr_edges : edges m <> None;
  fr_cells_edges : cells_edges m <> None;
  fr_mask : is_boundary_edge m = Some mask;
  fr_face : is_boundary_face m = Some mask
}.

(** Every half-edge of an edge with two half-edges has a positive
    covolume-edge ratio. *)
Definition interior_half_edges_positive (m : MeshTri) : Prop :=
  forall p g a,
    nth_error (edge_ids m) p = Some g ->
    nth_error (edge_counts m) g = Some 2 ->
    nth_error (flat_3n (ce_ratios_per_half_edge m)) p = Some a ->
    gtb0 a = true.

(** [passes K srt k nf m m']: the loop of [flip_until_delaunay], started with
    the needs-flip set [nf] on [m], runs exactly [k] times and stops
    with [m']. *)
Fixpoint passes (K : tri float -> float * tri float) (srt : list nat -> list nat) (k : nat)
    (nf : list bool) (m m' : MeshTri) : Prop :=
  match k with
  | 0 => np_any nf = false /\ m' = m
  | S k' =>
      np_any nf = true /\
      exists r m1, flip_step K srt nf m = Done r m1 /\ passes K srt k' (map ltb0 r) m1 m'
  end.

(** The kite with its cells listed in another order, built with
    [sort_cells=True]. *)
Definition shuffled_cells : list (tri nat) := [Tri 2 3 0; Tri 2 1 0].

Definition sorted_kite_mesh : MeshTri :=
  built (init kernel_area_ce np_argsort kite_nodes shuffled_cells None true).

(* ------------------------------------------------------------------ *)
(** ** Facts on binary64 arithmetic *)

Lemma Prim2SF_zero : Prim2SF 0%float = S754_zero false.
Proof. reflexivity. Qed.

Lemma ltb0_spec (x : float) : ltb0 x = sf_negative (Prim2SF x).
Proof.
  unfold ltb0. rewrite ltb_spec, Prim2SF_zero.
  destruct (Prim2SF x) as [s | s | | s m e]; try destruct s; reflexivity.
Qed.

Lemma gtb0_spec (x : float) : gtb0 x = sf_positive (Prim2SF x).
Proof.
  unfold gtb0. rewrite ltb_spec, Prim2SF_zero.
  destruct (Prim2SF x) as [s | s | | s m e]; try destruct s; reflexivity.
Qed.

(** A positive number is not negative. *)
Lemma gtb0_not_ltb0 (x : float) : gtb0 x = true -> ltb0 x = false.
Proof.
  rewrite gtb0_spec, ltb0_spec.
  destruct (Prim2SF x) as [s | s | | s m e]; try destruct s; simpl; congruence.
Qed.

Lemma SFcompare_antisym (x y : spec_float) :
  SFcompare x y = Some Lt -> SFcompare y x = Some Gt.
Proof.
  destruct x as [sx | sx | | sx mx ex], y as [sy | sy | | sy my ey]; simpl;
    try destruct sx; try destruct sy; simpl; try congruence;
    rewrite (Z.compare_antisym ex ey), (ZC4 my mx);
    destruct (ex ?= ey)%Z; simpl; try congruence;
    destruct (Pos.compare_cont Eq mx my); simpl; congruence.
Qed.

(** [<] on floats is asymmetric. *)
Lemma fltb_asym (x y : float) : (x <? y)%float = true -> (y <? x)%float = false.
Proof.
  rewrite !ltb_spec. unfold SFltb.
  destruct (SFcompare (Prim2SF x) (Prim2SF y)) as [[ | | ] | ] eqn:E; try discriminate.
  intros _. now rewrite (SFcompare_antisym _ _ E).
Qed.

Lemma SFadd_comm (x y : spec_float) : SF64add x y = SF64add y x.
Proof.
  destruct x as [sx | sx | | sx mx ex], y as [sy | sy | | sy my ey]; simpl;
    try reflexivity; try (destruct sx, sy; reflexivity).
  unfold SF64add, SFadd. rewrite (Z.min_comm ex ey). f_equal. apply Z.add_comm.
Qed.

(** Addition of floats is commutative. *)
Lemma fadd_comm (x y : float) : (x + y = y + x)%float.
Proof. apply Prim2SF_inj. rewrite !add_spec. apply SFadd_comm. Qed.

(** The accumulator of a scatter-add starts from zero: the sum of two
    contributions does not depend on which is added first. *)
Lemma fadd_zero_swap (a b : float) : (0 + a + b = 0 + b + a)%float.
Proof.
  apply Prim2SF_inj. rewrite !add_spec, Prim2SF_zero.
  destruct (Prim2SF a) as [sa | sa | | sa ma ea], (Prim2SF b) as [sb | sb | | sb mb eb];
    try reflexivity; try (destruct sa, sb; reflexivity);
    try (destruct sa; reflexivity); try (destruct sb; reflexivity).
  change (SF64add (S754_zero false) (S754_finite sa ma ea)) with (S754_finite sa ma ea).
  change (SF64add (S754_zero false) (S754_finite sb mb eb)) with (S754_finite sb mb eb).
  apply SFadd_comm.
Qed.

Lemma binary_round_aux_sign (sx : bool) (mx ex : Z) (lx : location) :
  sf_negative (binary_round_aux prec emax sx mx ex lx) = true -> sx = true.
Proof.
  unfold binary_round_aux.
  destruct (shr_fexp prec emax mx ex lx) as [mrs' e'].
  destruct (shr_fexp prec emax _ e' loc_Exact) as [mrs'' e''].
  destruct (shr_m mrs''); simpl; try discriminate.
  match goal with |- context [if ?c then _ else _] => destruct c end;
    destruct sx; simpl; congruence.
Qed.

Lemma binary_round_pos_sign (m : positive) (e : Z) :
  sf_negative (binary_round prec emax false m e) = false.
Proof.
  unfold binary_round.
  destruct (shl_align m e _) as [mz ez].
  destruct (sf_negative _) eqn:E; [ | reflexivity].
  apply binary_round_aux_sign in E. discriminate.
Qed.

(** Adding a positive number to one that is not negative gives a number
    that is not negative. *)
Lemma SFadd_not_negative (x y : spec_float) :
  sf_negative x = false -> sf_positive y = true -> sf_negative (SF64add x y) = false.
Proof.
  destruct x as [sx | sx | | sx mx ex], y as [sy | sy | | sy my ey]; simpl;
    try destruct sx; try destruct sy; simpl; try congruence.
  intros _ _. unfold SF64add, SFadd. simpl.
  apply binary_round_pos_sign.
Qed.

Lemma fadd_not_negative (x y : float) :
  ltb0 x = false -> gtb0 y = true -> ltb0 (x + y)%float = false.
Proof.
  rewrite !ltb0_spec, gtb0_spec, add_spec. apply SFadd_not_negative.
Qed.

(** Division by a zero gives an infinity or NaN, never a finite number. *)
Lemma fdiv_zero_nonfinite (x z : float) :
  sf_is_zero (Prim2SF z) = true -> sf_nonfinite (Prim2SF (x / z)%float) = true.
Proof.
  rewrite div_spec.
  destruct (Prim2SF z) as [sz | sz | | sz mz ez]; simpl; try discriminate.
  intros _. destruct (Prim2SF x) as [sx | sx | | sx mx ex]; reflexivity.
Qed.

(* ------------------------------------------------------------------ *)
(** ** Reasoning about methods *)

Lemma rbind_Ret {A B : Type} (r : res A) (k : A -> res B) (b : B) :
  rbind r k = Ret b -> exists a, r = Ret a /\ k a = Ret b.
Proof. destruct r; simpl; intros H; [eauto | discriminate]. Qed.

Lemma mbind_Done {A B : Type} (c : M A) (k : A -> M B) (m m' : MeshTri) (b : B) :
  mbind c k m = Done b m' -> exists a m1, c m = Done a m1 /\ k a m1 = Done b m'.
Proof. unfold mbind. destruct (c m); intros H; [eauto | discriminate]. Qed.

Lemma lift_Done {A : Type} (r : res A) (m m' : MeshTri) (a : A) :
  lift r m = Done a m' -> r = Ret a /\ m' = m.
Proof. unfold lift. destruct r; intros H; inversion H; auto. Qed.

Lemma attr_Done {A : Type} (f : MeshTri -> A) (m m' : MeshTri) (a : A) :
  attr f m = Done a m' -> a = f m /\ m' = m.
Proof. unfold attr. intros H; inversion H; auto. Qed.

Lemma modify_Done (f : MeshTri -> MeshTri) (m m' : MeshTri) (u : unit) :
  modify f m = Done u m' -> m' = f m.
Proof. unfold modify. intros H; inversion H; auto. Qed.

Lemma need_Done {A : Type} (e : exn) (f : MeshTri -> option A) (m m' : MeshTri) (a : A) :
  need e f m = Done a m' -> f m = Some a /\ m' = m.
Proof. unfold need. destruct (f m); intros H; inversion H; auto. Qed.

Lemma mret_Done {A : Type} (x a : A) (m m' : MeshTri) :
  mret x m = Done a m' -> a = x /\ m' = m.
Proof. unfold mret. intros H; inversion H; auto. Qed.

(** Peel the first statement off a method body that returned. *)
Ltac peel H :=
  let a := fresh "a" in
  let m1 := fresh "m" in
  let H1 := fresh "E" in
  match type of H with
  | mbind _ _ _ = Done _ _ =>
      apply mbind_Done in H; destruct H as (a & m1 & H1 & H);
      try match type of H1 with
      | lift _ _ = Done _ _ => apply lift_Done in H1; destruct H1 as [H1 ->]
      | attr _ _ = Done _ _ => apply attr_Done in H1; destruct H1 as [-> ->]
      | modify _ _ = Done _ _ => apply modify_Done in H1; subst m1
      | need _ _ _ = Done _ _ => apply need_Done in H1; destruct H1 as [H1 ->]
      | mret _ _ = Done _ _ => apply mret_Done in H1; destruct H1 as [-> ->]
      end
  end.

Ltac split_let H :=
  match type of H with
  | context [match ?X with (_, _) => _ end] => destruct X eqn:?
  end.

Ltac peel_all H := repeat first [ peel H | split_let H ].


(* ------------------------------------------------------------------ *)
(** ** Arrays *)

Lemma nth_error_map2 {A B C : Type} (f : A -> B -> C) (l : list A) (l' : list B)
    (i : nat) (x : A) (y : B) :
  nth_error l i = Some x -> nth_error l' i = Some y ->
  nth_error (map2 f l l') i = Some (f x y).
Proof.
  unfold map2. revert l' i. induction l as [ | a l IH]; intros [ | b l'] [ | i]; simpl;
    try discriminate.
  - intros [= ->] [= ->]. reflexivity.
  - apply IH.
Qed.

Lemma nth_error_map2_inv {A B C : Type} (f : A -> B -> C) (l : list A) (l' : list B)
    (i : nat) (z : C) :
  nth_error (map2 f l l') i = Some z ->
  exists x y, nth_error l i = Some x /\ nth_error l' i = Some y /\ z = f x y.
Proof.
  unfold map2. revert l' i. induction l as [ | a l IH]; intros [ | b l'] [ | i]; simpl;
    try discriminate.
  - intros [= <-]. eauto.
  - apply IH.
Qed.

Lemma length_map2 {A B C : Type} (f : A -> B -> C) (l : list A) (l' : list B) :
  length (map2 f l l') = Nat.min (length l) (length l').
Proof. unfold map2. now rewrite length_map, length_combine. Qed.

Lemma tget_tmap2 {A B C : Type} (f : A -> B -> C) (s : tri A) (t : tri B) (k : nat) :
  tget k (tmap2 f s t) = f (tget k s) (tget k t).
Proof. destruct k as [ | [ | k]]; reflexivity. Qed.

Lemma tget_tmap {A B : Type} (f : A -> B) (t : tri A) (k : nat) :
  tget k (tmap f t) = f (tget k t).
Proof. destruct k as [ | [ | k]]; reflexivity. Qed.

(* ------------------------------------------------------------------ *)
(** ** Indexing, masks and assignment *)

Lemma getitem_Ret {A : Type} (l : list A) (i : nat) (x : A) :
  getitem l i = Ret x <-> nth_error l i = Some x.
Proof.
  unfold getitem. destruct (nth_error l i); split; intros H; inversion H; auto.
Qed.

Lemma take_length {A : Type} (l : list A) (idx : list nat) (r : list A) :
  take l idx = Ret r -> length r = length idx.
Proof.
  unfold take. revert r. induction idx as [ | i idx IH]; simpl; intros r H.
  - now injection H as <-.
  - apply rbind_Ret in H. destruct H as (x & _ & H).
    apply rbind_Ret in H. destruct H as (xs & Hxs & H).
    injection H as <-. simpl. f_equal. now apply IH.
Qed.

Lemma take_nth {A : Type} (l : list A) (idx : list nat) (r : list A) (j i : nat) :
  take l idx = Ret r -> nth_error idx j = Some i -> nth_error r j = nth_error l i.
Proof.
  unfold take. revert r j. induction idx as [ | i0 idx IH]; simpl; intros r j H Hj.
  - destruct j; discriminate.
  - apply rbind_Ret in H. destruct H as (x & Hx & H).
    apply rbind_Ret in H. destruct H as (xs & Hxs & H).
    injection H as <-. destruct j as [ | j]; simpl in *.
    + injection Hj as ->. symmetry. now apply getitem_Ret.
    + now apply IH.
Qed.

Lemma take_Forall {A : Type} (P : A -> Prop) (l : list A) (idx : list nat) (r : list A) :
  Forall P l -> take l idx = Ret r -> Forall P r.
Proof.
  unfold take. intros Hl. revert r. induction idx as [ | i idx IH]; simpl; intros r H.
  - injection H as <-. constructor.
  - apply rbind_Ret in H. destruct H as (x & Hx & H).
    apply rbind_Ret in H. destruct H as (xs & Hxs & H).
    injection H as <-. constructor; [ | now apply IH].
    apply getitem_Ret in Hx. rewrite Forall_forall in Hl.
    apply Hl. now apply nth_error_In in Hx.
Qed.

Lemma take_total {A : Type} (l : list A) (idx : list nat) :
  Forall (fun i => i < length l) idx -> exists r, take l idx = Ret r.
Proof.
  unfold take. induction idx as [ | i idx IH]; simpl; intros H.
  - eauto.
  - inversion H as [ | ? ? Hi Hrest]; subst.
    destruct (IH Hrest) as (xs & Hxs). rewrite Hxs.
    unfold getitem. destruct (nth_error l i) as [x | ] eqn:E.
    + simpl. eauto.
    + apply nth_error_None in E. lia.
Qed.

Lemma mask_select_Ret {A : Type} (l : list A) (mask : list bool) :
  length l = length mask -> mask_select l mask = Ret (mask_aux l mask).
Proof. unfold mask_select. intros ->. now rewrite Nat.eqb_refl. Qed.

Lemma mask_select_inv {A : Type} (l : list A) (mask : list bool) (r : list A) :
  mask_select l mask = Ret r -> length l = length mask /\ r = mask_aux l mask.
Proof.
  unfold mask_select. destruct (Nat.eqb_spec (length l) (length mask)); intros Hs;
    inversion Hs; auto.
Qed.

Lemma mask_aux_In {A : Type} (l : list A) (mask : list bool) (x : A) :
  In x (mask_aux l mask) -> In x l.
Proof.
  revert mask. induction l as [ | y l IH]; intros [ | b mask]; simpl; try tauto.
  destruct b; simpl; intros Hin; [destruct Hin; eauto | eauto].
Qed.

Lemma mask_aux_nth {A : Type} (l : list A) (mask : list bool) (j : nat) (x : A) :
  nth_error l j = Some x -> nth_error mask j = Some true -> In x (mask_aux l mask).
Proof.
  revert mask j. induction l as [ | y l IH]; intros [ | b mask] [ | j]; simpl;
    try discriminate.
  - intros [= ->] [= ->]. now left.
  - intros Hx Hb. destruct b; [right | ]; eauto.
Qed.

Lemma setitem_Ret {A : Type} (l : list A) (i : nat) (x : A) (l' : list A) :
  setitem l i x = Ret l' -> i < length l /\ l' = upd l i x.
Proof.
  unfold setitem. destruct (Nat.ltb_spec i (length l)); intros Hs; inversion Hs; auto.
Qed.

Lemma upd_length' {A : Type} (l : list A) (i : nat) (x : A) :
  length (upd l i x) = length l.
Proof. revert i. induction l as [ | y l IH]; intros [ | i]; simpl; auto. Qed.

Lemma upd_Forall {A : Type} (P : A -> Prop) (l : list A) (i : nat) (x : A) :
  Forall P l -> P x -> Forall P (upd l i x).
Proof.
  intros Hl Hx. revert i. induction Hl as [ | y l Hy Hl IH]; intros [ | i]; simpl;
    constructor; auto.
Qed.

Lemma put_aux_length {A : Type} (l : list A) (iv : list (nat * A)) (l' : list A) :
  put_aux l iv = Ret l' -> length l' = length l.
Proof.
  revert l. induction iv as [ | [i v] iv IH]; simpl; intros l H.
  - now injection H as <-.
  - apply rbind_Ret in H. destruct H as (l1 & H1 & H).
    apply setitem_Ret in H1. destruct H1 as [_ ->].
    erewrite IH by exact H. apply upd_length'.
Qed.

Lemma put_aux_Forall {A : Type} (P : A -> Prop) (l : list A) (iv : list (nat * A))
    (l' : list A) :
  Forall P l -> Forall (fun p => P (snd p)) iv -> put_aux l iv = Ret l' -> Forall P l'.
Proof.
  revert l. induction iv as [ | [i v] iv IH]; simpl; intros l Hl Hiv H.
  - now injection H as <-.
  - inversion Hiv as [ | ? ? Hv Hrest]; subst.
    apply rbind_Ret in H. destruct H as (l1 & H1 & H).
    apply setitem_Ret in H1. destruct H1 as [_ ->].
    eapply IH; [apply upd_Forall; [exact Hl | exact Hv] | exact Hrest | exact H].
Qed.

Lemma put_length {A : Type} (l : list A) (idx : list nat) (vals l' : list A) :
  put l idx vals = Ret l' -> length l' = length l.
Proof.
  unfold put. destruct (length idx =? length vals); [ | discriminate].
  apply put_aux_length.
Qed.

Lemma put_Forall {A : Type} (P : A -> Prop) (l : list A) (idx : list nat)
    (vals l' : list A) :
  Forall P l -> Forall P vals -> put l idx vals = Ret l' -> Forall P l'.
Proof.
  unfold put. destruct (length idx =? length vals); [ | discriminate].
  intros Hl Hv. apply put_aux_Forall; [exact Hl | ].
  apply Forall_forall. intros [i v] Hin. apply in_combine_r in Hin.
  rewrite Forall_forall in Hv. now apply Hv.
Qed.

Lemma put_const_length {A : Type} (l : list A) (idx : list nat) (x : A) (l' : list A) :
  put_const l idx x = Ret l' -> length l' = length l.
Proof. apply put_aux_length. Qed.

Lemma Forall_map2 {A B C : Type} (P : C -> Prop) (f : A -> B -> C)
    (l : list A) (l' : list B) :
  (forall x y, In x l -> In y l' -> P (f x y)) -> Forall P (map2 f l l').
Proof.
  intros H. unfold map2. apply Forall_forall. intros z Hz.
  apply in_map_iff in Hz. destruct Hz as ([x y] & <- & Hin).
  apply H; [eapply in_combine_l | eapply in_combine_r]; exact Hin.
Qed.

(** Shapes *)

Lemma shape3_tmap {A B : Type} (f : list A -> list B) (n : nat) (t : tri (list A)) :
  (forall l, length (f l) = length l) -> shape3 n t -> shape3 n (tmap f t).
Proof. unfold shape3. intros Hf (H0 & H1 & H2). simpl. now rewrite !Hf. Qed.

Lemma put_cols_shape {A : Type} (n : nat) (t : tri (list A)) (ids : list nat)
    (vals t' : tri (list A)) :
  shape3 n t -> put_cols t ids vals = Ret t' -> shape3 n t'.
Proof.
  unfold put_cols, shape3. intros (H0 & H1 & H2) H.
  apply rbind_Ret in H. destruct H as (a & Ha & H).
  apply rbind_Ret in H. destruct H as (b & Hb & H).
  apply rbind_Ret in H. destruct H as (c & Hc & H).
  injection H as <-. simpl.
  apply put_length in Ha, Hb, Hc. now rewrite Ha, Hb, Hc.
Qed.

Lemma put_cols_Forall {A : Type} (P : A -> Prop) (t : tri (list A)) (ids : list nat)
    (vals t' : tri (list A)) :
  Forall P (flat_3n t) -> Forall P (flat_3n vals) ->
  put_cols t ids vals = Ret t' -> Forall P (flat_3n t').
Proof.
  unfold put_cols, flat_3n. rewrite !Forall_app. intros (H0 & H1 & H2) (V0 & V1 & V2) H.
  apply rbind_Ret in H. destruct H as (a & Ha & H).
  apply rbind_Ret in H. destruct H as (b & Hb & H).
  apply rbind_Ret in H. destruct H as (c & Hc & H).
  injection H as <-. simpl.
  split; [ | split].
  - eapply put_Forall; [exact H0 | exact V0 | exact Ha].
  - eapply put_Forall; [exact H1 | exact V1 | exact Hb].
  - eapply put_Forall; [exact H2 | exact V2 | exact Hc].
Qed.

Lemma mask_select_3n_Ret {A : Type} (n : nat) (t : tri (list A)) (mask : tri (list bool)) :
  shape3 n t -> shape3 n mask ->
  mask_select_3n t mask =
    Ret (mask_aux (t0 t) (t0 mask) ++ mask_aux (t1 t) (t1 mask)
         ++ mask_aux (t2 t) (t2 mask)).
Proof.
  unfold shape3, mask_select_3n. intros (H0 & H1 & H2) (M0 & M1 & M2).
  rewrite !mask_select_Ret by congruence. reflexivity.
Qed.

Lemma firstn_skipn_3 {A : Type} (n : nat) (l : list A) :
  length l = 3 * n ->
  firstn n l ++ firstn n (skipn n l) ++ skipn (2 * n) l = l.
Proof.
  intros H.
  replace (skipn (2 * n) l) with (skipn n (skipn n l)).
  - now rewrite firstn_skipn, firstn_skipn.
  - rewrite skipn_skipn. f_equal. lia.
Qed.

Lemma reshape_3n_shape {A : Type} (n : nat) (l : list A) :
  length l = 3 * n -> shape3 n (reshape_3n n l).
Proof.
  unfold shape3, reshape_3n. intros H. simpl.
  rewrite !length_firstn, !length_skipn. lia.
Qed.

Lemma flat_reshape_3n {A : Type} (n : nat) (l : list A) :
  length l = 3 * n -> flat_3n (reshape_3n n l) = l.
Proof. intros H. unfold flat_3n, reshape_3n. simpl. now apply firstn_skipn_3. Qed.

Lemma transpose_n3_3n {A : Type} (n : nat) (t : tri (list A)) :
  shape3 n t -> transpose_n3 (transpose_3n t) = t.
Proof.
  destruct t as [a b c]. unfold shape3, transpose_n3, transpose_3n, map2. simpl.
  intros (Ha & Hb & Hc). subst n.
  revert b c Hb Hc. induction a as [ | x a IH]; intros [ | y b] [ | z c]; simpl;
    intros Hb Hc; try discriminate; [reflexivity | ].
  injection Hb as Hb. injection Hc as Hc.
  specialize (IH b c Hb Hc). injection IH as I0 I1 I2.
  rewrite !map_map in *. simpl in *. now rewrite I0, I1, I2.
Qed.

Lemma flat_3n_length {A : Type} (n : nat) (t : tri (list A)) :
  shape3 n t -> length (flat_3n t) = 3 * n.
Proof. unfold shape3, flat_3n. intros (H0 & H1 & H2). rewrite !length_app. lia. Qed.

Lemma transpose_n3_shape {A : Type} (l : list (tri A)) :
  shape3 (length l) (transpose_n3 l).
Proof. unfold shape3, transpose_n3. simpl. now rewrite !length_map. Qed.

(* ------------------------------------------------------------------ *)
(** ** Cell partitions *)

Section CellPartitions.

Variable K : tri float -> float * tri float.
Variable srt : list nat -> list nat.

Lemma get_cell_partitions_returns (m : MeshTri) :
  exists v m', get_cell_partitions m = Done v m'.
Proof.
  unfold get_cell_partitions, mbind, attr, modify, mret.
  destruct (_cell_partitions m); eauto.
Qed.

Lemma get_cell_partitions_value (m m' : MeshTri) (v : tri (list float)) :
  cell_partitions_coherent m ->
  get_cell_partitions m = Done v m' ->
  v = tmap2 (map2 (fun l2 r => 0.25 * l2 * r)%float)
            (ei_dot_ei m) (ce_ratios_per_half_edge m).
Proof.
  unfold cell_partitions_coherent, get_cell_partitions, mbind, attr, modify, mret.
  destruct (_cell_partitions m) as [w | ]; intros Hc [= <- <-]; auto.
Qed.

(** The cache stays coherent: reading it keeps it so, and the methods
    that change the squared lengths or the ratios empty it. *)
Lemma get_cell_partitions_coherent (m m' : MeshTri) (v : tri (list float)) :
  cell_partitions_coherent m ->
  get_cell_partitions m = Done v m' ->
  cell_partitions_coherent m'.
Proof.
  unfold cell_partitions_coherent, get_cell_partitions, mbind, attr, modify, mret.
  destruct (_cell_partitions m) as [w | ] eqn:E; intros Hc [= <- <-]; simpl.
  - now rewrite E.
  - reflexivity.
Qed.

Lemma update_cell_values_partitions (cell_ids ids : list nat) (m m' : MeshTri) (u : unit) :
  _update_cell_values K cell_ids ids m = Done u m' -> _cell_partitions m' = None.
Proof.
  unfold _update_cell_values. intros H. peel_all H.
  apply modify_Done in H. subst m'. reflexivity.
Qed.

Lemma flip_edges_partitions (mask : list bool) (m m' : MeshTri) (u : unit) :
  _flip_edges K srt mask m = Done u m' -> cell_partitions_coherent m'.
Proof.
  unfold _flip_edges. intros H. peel_all H.
  apply update_cell_values_partitions in H.
  unfold cell_partitions_coherent. now rewrite H.
Qed.

Lemma update_node_coordinates_partitions (X : list point) (m m' : MeshTri) (u : unit) :
  update_node_coordinates K X m = Done u m' -> cell_partitions_coherent m'.
Proof.
  unfold update_node_coordinates. intros H. peel_all H.
  apply modify_Done in H. subst m'. exact I.
Qed.

Lemma init_fcc_partitions (mode : fcc_mode) (m m' : MeshTri) (u : unit) :
  _cell_partitions m = None ->
  init_fcc K mode m = Done u m' -> _cell_partitions m' = None.
Proof.
  unfold init_fcc. intros Hn H. peel H. peel H.
  assert (Hm : _cell_partitions m0 = None).
  { destruct mode; simpl in E.
    - apply mret_Done in E. destruct E as [_ ->]. exact Hn.
    - peel_all E. unfold when in E1. destruct (is_none (edges m)).
      + unfold create_edges in E1. peel_all E1.
        apply modify_Done in E1. subst. apply mret_Done in E. destruct E as [_ ->].
        exact Hn.
      + apply mret_Done in E1. destruct E1 as [_ ->].
        apply mret_Done in E. destruct E as [_ ->]. exact Hn.
    - peel E. discriminate. }
  peel_all H. apply modify_Done in H. subst m'. exact Hm.
Qed.

Lemma init_partitions (nodes : list point) (cells : list (tri nat))
    (mode : option fcc_mode) (sort_cells : bool) (m : MeshTri) :
  init K srt nodes cells mode sort_cells = Ret m -> cell_partitions_coherent m.
Proof.
  unfold init. intros H.
  apply rbind_Ret in H. destruct H as (_ & _ & H).
  apply rbind_Ret in H. destruct H as (hec & _ & H).
  destruct (compute_tri_areas_and_ce_ratios K _) as [vol ce].
  unfold cell_partitions_coherent.
  destruct mode as [mode | ].
  - unfold constructed in H.
    destruct (init_fcc K mode _) as [u m' | ] eqn:E; [ | discriminate].
    injection H as ->. apply init_fcc_partitions in E; [ | reflexivity].
    now rewrite E.
  - injection H as <-. exact I.
Qed.

(** The squared length that enters the partition of half-edge [k] of a
    cell is the one of the half-edge opposite to its local node [k]. *)
Lemma init_squared_lengths (nodes : list point) (cells : list (tri nat))
    (sort_cells : bool) (m : MeshTri) (k c : nat) (e : point) :
  init K srt nodes cells None sort_cells = Ret m ->
  nth_error (tget k (half_edge_coords m)) c = Some e ->
  nth_error (tget k (ei_dot_ei m)) c = Some (dot e e).
Proof.
  unfold init. intros H He.
  apply rbind_Ret in H. destruct H as (_ & _ & H).
  apply rbind_Ret in H. destruct H as (hec & _ & H).
  destruct (compute_tri_areas_and_ce_ratios K _) as [vol ce].
  injection H as <-. simpl in *. unfold self_dots. rewrite tget_tmap.
  now apply nth_error_map2.
Qed.

(** C6: for every cell and every local edge index, the cell partition
    that [get_cell_partitions] returns is one quarter times the squared
    length of the half-edge ([ei_dot_ei]) times its covolume-edge ratio
    ([ce_ratios_per_half_edge]). *)
Theorem cell_partitions_quarter (m : MeshTri) (k c : nat) (l2 r : float) :
  cell_partitions_coherent m ->
  nth_error (tget k (ei_dot_ei m)) c = Some l2 ->
  nth_error (tget k (ce_ratios_per_half_edge m)) c = Some r ->
  exists v m',
    get_cell_partitions m = Done v m' /\
    nth_error (tget k v) c = Some (0.25 * l2 * r)%float.
Proof.
  intros Hc Hl Hr.
  destruct (get_cell_partitions_returns m) as (v & m' & Hv).
  exists v, m'. split; [exact Hv | ].
  rewrite (get_cell_partitions_value m Hc Hv), tget_tmap2.
  exact (nth_error_map2 _ _ _ _ Hl Hr) || apply nth_error_map2; assumption.
Qed.

End CellPartitions.

(** A constructed mesh to which the theorem applies. *)
Lemma cell_partitions_quarter_witness :
  exists v m',
    get_cell_partitions cancelling_mesh = Done v m' /\
    nth_error (tget 2 v) 0 = Some (0.25 * 100 * -0.25)%float.
Proof.
  apply (cell_partitions_quarter cancelling_mesh 2 0 (l2 := 100%float) (r := (-0.25)%float));
    vm_compute; [exact I | reflexivity | reflexivity].
Defined.

(* ------------------------------------------------------------------ *)
(** ** Boundary surface areas *)

Lemma flat_mesh_constructed :
  init kernel_area_ce np_argsort flat_nodes one_cell (Some Boundary) false = Ret flat_mesh.
Proof. vm_compute. reflexivity. Qed.

(** Whatever the corrector contributes, a fresh call of
    [get_surface_areas] returns the arrays of the regular cells and
    nothing else. *)
Lemma get_surface_areas_regular_only (m m' : MeshTri)
    (r : list (tri (tri nat)) * list (tri (tri float))) :
  _surface_areas m = None ->
  get_surface_areas m = Done r m' ->
  exists m1, _compute_surface_areas (regular_cells m) m = Done r m1.
Proof.
  unfold get_surface_areas. intros Hn H. peel H. rewrite Hn in H.
  peel H. peel H. peel H. peel H.
  destruct (fcc _) as [f | ].
  - peel H. destruct a1 as [ffc_ids ffc_vals]. peel H.
    apply mret_Done in H. destruct H as [-> _].
    simpl in E1. injection E1 as <-. eauto.
  - apply mret_Done in H. destruct H as [-> _]. eauto.
Qed.

(** C1: on the mesh of one flat boundary triangle built with the
    ["boundary"] correction, [FlatCellCorrector.surface_areas] produces
    index/value pairs for the corrected cell, and [get_surface_areas]
    returns empty arrays: the pairs are dropped. *)
Theorem fcc_surface_areas_dropped :
  exists f ids vals m',
    fcc flat_mesh = Some f /\
    regular_cells flat_mesh = Some [] /\
    fcc_surface_areas f = Ret (ids, vals) /\
    ids = [(0, 0); (1, 2)] /\
    vals = [(0.75, 0.75); (0.5, 0.5); (1.25, 1.25); (1.5, 1.5)]%float /\
    get_surface_areas flat_mesh = Done ([], []) m'.
Proof.
  do 4 eexists. repeat split; vm_compute; reflexivity.
Qed.

(* ------------------------------------------------------------------ *)
(** ** Control-volume centroids *)

Section Centroids.

Variable C : tri point -> tri float -> tri float -> point.

Lemma get_control_volumes_cached (m m' : MeshTri) (cv : list float) :
  get_control_volumes m = Done cv m' -> _control_volumes m' = Some cv.
Proof.
  unfold get_control_volumes. intros H. peel H.
  destruct (_control_volumes m) as [v | ] eqn:Ev.
  - apply mret_Done in H. destruct H as [-> ->]. exact Ev.
  - peel_all H. destruct (fcc _) as [f | ].
    + peel_all H. apply mret_Done in H. destruct H as [-> ->]. reflexivity.
    + apply mret_Done in H. destruct H as [-> ->]. reflexivity.
Qed.

Lemma mbind_assoc {A B D : Type} (c : M A) (f : A -> M B) (g : B -> M D) (m : MeshTri) :
  mbind (mbind c f) g m = mbind c (fun x => mbind (f x) g) m.
Proof. unfold mbind. destruct (c m); reflexivity. Qed.

Lemma mbind_cong {A B : Type} (c : M A) (k k' : A -> M B) (m : MeshTri) :
  (forall a m1, c m = Done a m1 -> k a m1 = k' a m1) -> mbind c k m = mbind c k' m.
Proof. unfold mbind. intros H. destruct (c m); [now apply H | reflexivity]. Qed.

(** A fresh call of [get_control_volume_centroids] accumulates the
    integrals, asks for the control volumes and divides; nothing else. *)
Lemma get_control_volume_centroids_parts (m : MeshTri) :
  _cv_centroids m = None ->
  get_control_volume_centroids C m =
  (acc <- accumulated_integral_x C ;;
   cv <- get_control_volumes ;;
   let c := map2 vdiv acc cv in
   modify (set__cv_centroids (Some c)) ;;;
   mret c)%mesh m.
Proof.
  intros Hn. unfold get_control_volume_centroids, accumulated_integral_x.
  unfold mbind at 1. unfold attr at 1. rewrite Hn.
  repeat first
    [ reflexivity
    | rewrite mbind_assoc
    | apply mbind_cong; intros ? ? _; cbv beta
    | match goal with
      | |- context [match ?p with (_, _) => _ end] => destruct p
      end ].
Qed.

Lemma vdiv_zero_nonfinite (acc : list point) (cv : list float) (i : nat) (z : float)
    (row : point) :
  nth_error cv i = Some z -> nth_error (map2 vdiv acc cv) i = Some row ->
  is_zero z -> Forall nonfinite row.
Proof.
  intros Hz Hrow Hzero.
  apply nth_error_map2_inv in Hrow. destruct Hrow as (a & z' & _ & Hz' & ->).
  rewrite Hz in Hz'. injection Hz' as <-.
  unfold vdiv. apply Forall_forall. intros x Hx.
  apply in_map_iff in Hx. destruct Hx as (y & <- & _).
  now apply fdiv_zero_nonfinite.
Qed.

(** C2, as the code has it: [get_control_volume_centroids] has no check
    of the control volumes.  Once the integrals have been accumulated
    ([acc]) and [get_control_volumes] has returned ([cv]), a fresh call
    returns, whatever the values in [cv] are, the rows of [acc] divided
    by the entries of [cv], and stores them; for a node whose control
    volume is zero every coordinate of the returned centroid is an
    infinity or NaN.  The call returns in no other way, and it raises
    only what one of the two parts raises. *)
Theorem centroid_of_zero_volume_nonfinite (m : MeshTri) :
  _cv_centroids m = None ->
  (forall (acc : list point) (m1 : MeshTri) (cv : list float) (m2 : MeshTri),
     accumulated_integral_x C m = Done acc m1 ->
     get_control_volumes m1 = Done cv m2 ->
     get_control_volume_centroids C m
       = Done (map2 vdiv acc cv) (set__cv_centroids (Some (map2 vdiv acc cv)) m2) /\
     (forall (i : nat) (z : float) (row : point),
        nth_error cv i = Some z -> nth_error (map2 vdiv acc cv) i = Some row ->
        is_zero z -> Forall nonfinite row)) /\
  (forall (c : list point) (m' : MeshTri),
     get_control_volume_centroids C m = Done c m' ->
     exists acc m1 cv m2,
       accumulated_integral_x C m = Done acc m1 /\
       get_control_volumes m1 = Done cv m2 /\
       c = map2 vdiv acc cv /\ _control_volumes m' = Some cv) /\
  (forall (e : exn) (m' : MeshTri),
     get_control_volume_centroids C m = Fail e m' ->
     accumulated_integral_x C m = Fail e m' \/
     exists acc m1, accumulated_integral_x C m = Done acc m1 /\
                    get_control_volumes m1 = Fail e m').
Proof.
  intros Hn. pose proof (get_control_volume_centroids_parts m Hn) as P.
  split; [ | split].
  - intros acc m1 cv m2 Ha Hv. split.
    + rewrite P. unfold mbind at 1. rewrite Ha. unfold mbind at 1. rewrite Hv.
      reflexivity.
    + intros i z row. apply vdiv_zero_nonfinite.
  - intros c m' H. rewrite P in H. unfold mbind at 1 in H.
    destruct (accumulated_integral_x C m) as [acc m1 | e1 m1]; [ | discriminate].
    unfold mbind at 1 in H.
    destruct (get_control_volumes m1) as [cv m2 | e2 m2] eqn:Hv; [ | discriminate].
    injection H as <- <-. exists acc, m1, cv, m2.
    split; [reflexivity | ]. split; [exact Hv | ]. split; [reflexivity | ].
    simpl. now apply get_control_volumes_cached in Hv.
  - intros e m' H. rewrite P in H. unfold mbind at 1 in H.
    destruct (accumulated_integral_x C m) as [acc m1 | e1 m1]; [ | left; exact H].
    right. exists acc, m1. split; [reflexivity | ].
    unfold mbind at 1 in H.
    destruct (get_control_volumes m1) as [cv m2 | e2 m2]; [discriminate | ].
    injection H as <- <-. reflexivity.
Qed.

End Centroids.

Lemma cancelling_mesh_constructed :
  init kernel_area_ce np_argsort cancelling_nodes one_cell None false = Ret cancelling_mesh.
Proof. vm_compute. reflexivity. Qed.

(** On a constructed mesh with a node of control volume zero both parts
    return, and so does the method; the centroid of that node is
    infinite. *)
Lemma centroid_of_zero_volume_witness :
  exists acc m1 m2,
    accumulated_integral_x kernel_circumcenter cancelling_mesh = Done acc m1 /\
    get_control_volumes m1 = Done [0; 1.25; 13.75]%float m2 /\
    get_control_volume_centroids kernel_circumcenter cancelling_mesh
      = Done (map2 vdiv acc [0; 1.25; 13.75]%float)
          (set__cv_centroids (Some (map2 vdiv acc [0; 1.25; 13.75]%float)) m2) /\
    nth_error (map2 vdiv acc [0; 1.25; 13.75]%float) 0 = Some [infinity; neg_infinity] /\
    Forall nonfinite [infinity; neg_infinity].
Proof.
  destruct (accumulated_integral_x kernel_circumcenter cancelling_mesh)
    as [acc m1 | e m1] eqn:Ea; [ | vm_compute in Ea; discriminate].
  destruct (get_control_volumes m1) as [cv m2 | e m2] eqn:Ev;
    [ | vm_compute in Ea; injection Ea as <- <-; vm_compute in Ev; discriminate].
  assert (Hcv : cv = [0; 1.25; 13.75]%float).
  { vm_compute in Ea. injection Ea as <- <-. vm_compute in Ev. now injection Ev as <- _. }
  subst cv.
  destruct (proj1 (@centroid_of_zero_volume_nonfinite kernel_circumcenter cancelling_mesh
                     eq_refl) acc m1 [0; 1.25; 13.75]%float m2 Ea Ev) as (E & Hall).
  assert (Hrow : nth_error (map2 vdiv acc [0; 1.25; 13.75]%float) 0
                 = Some [infinity; neg_infinity]).
  { vm_compute in Ea. injection Ea as <- _. vm_compute. reflexivity. }
  exists acc, m1, m2. split; [reflexivity | ]. split; [exact Ev | ].
  split; [exact E | ]. split; [exact Hrow | ].
  apply (Hall 0 0%float); [reflexivity | exact Hrow | reflexivity].
Defined.

(** C2 as stated fails: the mesh has a node whose accumulated control
    volume is zero, and [get_control_volume_centroids] returns normally
    with an infinite centroid for it instead of raising. *)
Lemma zero_control_volume_not_reported :
  exists cv m1 c m',
    get_control_volumes cancelling_mesh = Done cv m1 /\
    nth_error cv 0 = Some 0%float /\
    get_control_volume_centroids kernel_circumcenter cancelling_mesh = Done c m' /\
    nth_error c 0 = Some [infinity; neg_infinity].
Proof.
  do 4 eexists. repeat split; vm_compute; reflexivity.
Qed.

(* ------------------------------------------------------------------ *)
(** ** The constructor's check that every node is used *)

Lemma upd_length {A : Type} (l : list A) (i : nat) (x : A) :
  length (upd l i x) = length l.
Proof.
  revert i. induction l as [ | y l IH]; intros [ | i]; simpl; auto.
Qed.

Lemma nth_error_upd {A : Type} (l : list A) (i j : nat) (x : A) :
  i < length l ->
  nth_error (upd l i x) j = if j =? i then Some x else nth_error l j.
Proof.
  revert i j. induction l as [ | y l IH]; intros [ | i] [ | j]; simpl; intros H;
    try lia; auto.
  apply IH. lia.
Qed.

Lemma put_aux_marks (l : list bool) (idx : list nat) :
  Forall (fun i => i < length l) idx ->
  exists u, put_const l idx true = Ret u /\ length u = length l /\
    forall j, nth_error u j = Some true <->
              (nth_error l j = Some true \/ (In j idx /\ j < length l)).
Proof.
  unfold put_const. revert l. induction idx as [ | i idx IH]; intros l Hr; simpl.
  - exists l. split; [reflexivity | split; [reflexivity | ]].
    intros j. split; [auto | intros [H | [[] _]]; exact H].
  - inversion Hr as [ | ? ? Hi Hrest]; subst.
    unfold setitem. destruct (Nat.ltb_spec i (length l)) as [_ | Hge]; [ | lia]. simpl.
    destruct (IH (upd l i true)) as (u & Hu & Hlen & Hnth).
    { rewrite upd_length. exact Hrest. }
    exists u. rewrite upd_length in Hlen. split; [exact Hu | split; [exact Hlen | ]].
    intros j. split.
    + intros Hj. apply Hnth in Hj. rewrite nth_error_upd in Hj by exact Hi.
      rewrite upd_length in Hj.
      destruct (Nat.eqb_spec j i) as [Heq | Hne].
      * right. split; [left; congruence | rewrite Heq; exact Hi].
      * destruct Hj as [Hj | [Hj Hlt]]; [now left | right; split; [now right | exact Hlt]].
    + intros Hj. apply Hnth. rewrite nth_error_upd by exact Hi. rewrite upd_length.
      destruct (Nat.eqb_spec j i) as [Heq | Hne]; [now left | ].
      destruct Hj as [Hj | [[Hj | Hj] Hlt]]; [now left | congruence | right; auto].
Qed.

Lemma put_aux_out_of_range (l : list bool) (idx : list nat) :
  ~ Forall (fun i => i < length l) idx ->
  put_const l idx true = Err IndexError.
Proof.
  unfold put_const. revert l. induction idx as [ | i idx IH]; intros l Hr; simpl.
  - exfalso. apply Hr. constructor.
  - unfold setitem. destruct (Nat.ltb_spec i (length l)) as [Hi | Hge]; simpl; [ | reflexivity].
    apply IH. rewrite upd_length. intros Hrest. apply Hr. constructor; assumption.
Qed.

Lemma nth_error_repeat_false (n j : nat) : nth_error (repeat false n) j <> Some true.
Proof.
  revert j. induction n as [ | n IH]; intros [ | j]; simpl; try discriminate. apply IH.
Qed.

Lemma np_all_true (l : list bool) :
  np_all l = true <-> forall j, j < length l -> nth_error l j = Some true.
Proof.
  unfold np_all. induction l as [ | b l IH]; simpl.
  - split; [intros _ j Hj; lia | reflexivity].
  - rewrite andb_true_iff, IH. split.
    + intros [-> H] [ | j] Hj; simpl; [reflexivity | apply H; lia].
    + intros H. split.
      * specialize (H 0 ltac:(lia)). simpl in H. congruence.
      * intros j Hj. apply (H (S j)). lia.
Qed.

Lemma in_flat_n3 (cells : list (tri nat)) (i : nat) :
  In i (flat_n3 cells) <-> exists c, In c cells /\ uses c i.
Proof.
  unfold flat_n3, uses, tlist. rewrite in_flat_map. split.
  - intros (c & Hc & Hi). exists c. simpl in Hi. intuition.
  - intros (c & Hc & Hi). exists c. simpl. intuition.
Qed.

Lemma cells_in_range_flat (n : nat) (cells : list (tri nat)) :
  cells_in_range n cells <-> Forall (fun i => i < n) (flat_n3 cells).
Proof.
  unfold cells_in_range. rewrite Forall_forall. split.
  - intros H i Hi. apply in_flat_n3 in Hi. destruct Hi as (c & Hc & Hu). eauto.
  - intros H c i Hc Hu. apply H. apply in_flat_n3. eauto.
Qed.

Lemma cells_in_range_dec (n : nat) (cells : list (tri nat)) :
  cells_in_range n cells \/ ~ cells_in_range n cells.
Proof.
  rewrite cells_in_range_flat.
  destruct (Forall_dec (fun i => i < n) (fun i => lt_dec i n) (flat_n3 cells)); auto.
Qed.

(** What the check does on a cell table: an index error when an entry is
    not a node, an assertion failure when a node is unused, and it passes
    otherwise. *)
Lemma assert_all_used_index_error (n : nat) (cells : list (tri nat)) :
  ~ cells_in_range n cells -> assert_all_used n cells = Err IndexError.
Proof.
  intros Hr. unfold assert_all_used. rewrite put_aux_out_of_range; [reflexivity | ].
  intros Hall. apply Hr. intros c i Hc Hu.
  rewrite Forall_forall in Hall. rewrite repeat_length in Hall.
  apply Hall. apply in_flat_n3. eauto.
Qed.

Lemma assert_all_used_spec (n : nat) (cells : list (tri nat)) :
  cells_in_range n cells ->
  ((forall i, i < n -> exists c, In c cells /\ uses c i) ->
   assert_all_used n cells = Ret tt) /\
  ((exists i, i < n /\ forall c, In c cells -> ~ uses c i) ->
   assert_all_used n cells = Err AssertionError).
Proof.
  intros Hr. unfold assert_all_used.
  destruct (@put_aux_marks (repeat false n) (flat_n3 cells)) as (u & Hu & Hlen & Hnth).
  { apply Forall_forall. intros i Hi. rewrite repeat_length.
    apply in_flat_n3 in Hi. destruct Hi as (c & Hc & Hi). eauto. }
  rewrite Hu. simpl. rewrite repeat_length in Hlen. split.
  - intros Hall. assert (Ht : np_all u = true).
    { apply np_all_true. intros j Hj. apply Hnth. right.
      rewrite repeat_length. split; [ | lia]. apply in_flat_n3. apply Hall. lia. }
    now rewrite Ht.
  - intros (i & Hi & Hnone). assert (Hf : np_all u = false).
    { destruct (np_all u) eqn:E; [ | reflexivity]. exfalso.
      rewrite np_all_true in E. specialize (E i ltac:(lia)).
      apply Hnth in E. destruct E as [E | [E _]].
      - exact (nth_error_repeat_false _ _ E).
      - apply in_flat_n3 in E. destruct E as (c & Hc & Hu'). exact (Hnone c Hc Hu'). }
    now rewrite Hf.
Qed.

(** Sorting the cell table keeps the corners of the cells. *)
Lemma uses_sort3 (c : tri nat) (i : nat) : uses (sort3 c) i <-> uses c i.
Proof.
  unfold uses, sort3. destruct c as [a b d]. simpl.
  destruct (Nat.leb_spec a b); simpl;
    repeat match goal with
           | |- context [?x <=? ?y] => destruct (Nat.leb_spec x y); simpl
           end; intuition lia.
Qed.

Lemma insert_key_perm (kx : nat * nat) (l : list (nat * nat)) :
  Permutation (insert_key kx l) (kx :: l).
Proof.
  induction l as [ | ky l IH]; simpl; [reflexivity | ].
  destruct (fst ky <=? fst kx); [ | reflexivity].
  rewrite IH. apply perm_swap.
Qed.

Lemma fold_insert_key_perm (xs acc : list (nat * nat)) :
  Permutation (fold_left (fun a kx => insert_key kx a) xs acc) (xs ++ acc).
Proof.
  revert acc. induction xs as [ | x xs IH]; intros acc; simpl; [reflexivity | ].
  rewrite IH, insert_key_perm. symmetry. apply Permutation_middle.
Qed.

Lemma map_snd_combine {A B : Type} (l : list A) (l' : list B) :
  length l = length l' -> map snd (combine l l') = l'.
Proof.
  revert l'. induction l as [ | a l IH]; intros [ | b l']; simpl; intros H;
    try discriminate; auto.
  f_equal. apply IH. lia.
Qed.

Lemma np_argsort_perm (l : list nat) : Permutation (np_argsort l) (seq 0 (length l)).
Proof.
  unfold np_argsort.
  rewrite (Permutation_map snd (fold_insert_key_perm _ [])), app_nil_r.
  rewrite map_snd_combine; [reflexivity | now rewrite length_seq].
Qed.

Lemma insert_key_sorted (kx : nat * nat) (l : list (nat * nat)) :
  StronglySorted (fun a b => fst a <= fst b) l ->
  StronglySorted (fun a b => fst a <= fst b) (insert_key kx l).
Proof.
  induction 1 as [ | ky l Hs IH Hk]; simpl.
  - constructor; constructor.
  - destruct (Nat.leb_spec (fst ky) (fst kx)) as [Hle | Hgt].
    + constructor; [exact IH | ].
      apply Forall_forall. intros z Hz.
      apply (Permutation_in _ (insert_key_perm kx l)) in Hz.
      destruct Hz as [<- | Hz]; [exact Hle | ].
      rewrite Forall_forall in Hk. auto.
    + constructor; [now constructor | ].
      constructor; [lia | ].
      rewrite Forall_forall in *. intros z Hz. specialize (Hk z Hz). lia.
Qed.

Lemma fold_insert_key_sorted (xs acc : list (nat * nat)) :
  StronglySorted (fun a b => fst a <= fst b) acc ->
  StronglySorted (fun a b => fst a <= fst b)
                 (fold_left (fun a kx => insert_key kx a) xs acc).
Proof.
  revert acc. induction xs as [ | x xs IH]; intros acc H; simpl; [exact H | ].
  apply IH. now apply insert_key_sorted.
Qed.

Lemma in_combine_seq (l : list nat) (s : nat) (k p : nat) :
  In (k, p) (combine l (seq s (length l))) -> s <= p /\ nth_error l (p - s) = Some k.
Proof.
  revert s. induction l as [ | x l IH]; intros s; simpl; [tauto | ].
  intros [[= <- <-] | H].
  - rewrite Nat.sub_diag. auto.
  - apply IH in H. destruct H as [Hle Hn]. split; [lia | ].
    replace (p - s) with (S (p - S s)) by lia. exact Hn.
Qed.

Lemma StronglySorted_map_in {A B : Type} (R : A -> A -> Prop) (R' : B -> B -> Prop)
    (f : A -> B) (l : list A) :
  (forall a b, In a l -> In b l -> R a b -> R' (f a) (f b)) ->
  StronglySorted R l -> StronglySorted R' (map f l).
Proof.
  intros Hf H. induction H as [ | a l Hs IH Ha]; simpl; [constructor | ].
  constructor.
  - apply IH. intros x y Hx Hy. apply Hf; now right.
  - apply Forall_map, Forall_forall. intros b Hb.
    rewrite Forall_forall in Ha. apply Hf; [now left | now right | auto].
Qed.

(** The positions that [np_argsort] returns list the keys in ascending
    order. *)
Lemma np_argsort_ascending (l : list nat) :
  StronglySorted le (map (fun p => nth p l 0) (np_argsort l)).
Proof.
  unfold np_argsort. rewrite map_map.
  set (acc := fold_left (fun a kx => insert_key kx a) (combine l (seq 0 (length l))) []).
  assert (Hs : StronglySorted (fun a b => fst a <= fst b) acc)
    by (apply fold_insert_key_sorted; constructor).
  assert (Hin : forall kp, In kp acc -> nth (snd kp) l 0 = fst kp).
  { intros [k p] H. unfold acc in H.
    apply (Permutation_in _ (fold_insert_key_perm _ [])) in H.
    rewrite app_nil_r in H. apply in_combine_seq in H. destruct H as [_ H].
    rewrite Nat.sub_0_r in H. simpl. now apply nth_error_nth. }
  apply (StronglySorted_map_in (R := fun a b => fst a <= fst b)); [ | exact Hs].
  intros a b Ha Hb Hab. now rewrite (Hin a Ha), (Hin b Hb).
Qed.

(** [np_argsort] is one of the functions that [numpy.argsort] may be. *)
Lemma np_argsort_sorts : sorts np_argsort.
Proof. intros l. split; [apply np_argsort_perm | apply np_argsort_ascending]. Qed.

Lemma map_nth_seq_id {A : Type} (l : list A) (d : A) :
  map (fun i => nth i l d) (seq 0 (length l)) = l.
Proof.
  induction l as [ | a l IH]; simpl; [reflexivity | ].
  f_equal. rewrite <- seq_shift, map_map. exact IH.
Qed.

Lemma sorts_reorders {A : Type} (srt : list nat -> list nat) (keys : list nat)
    (rows : list A) (d : A) :
  sorts srt -> length keys = length rows ->
  Permutation (map (fun j => nth j rows d) (srt keys)) rows.
Proof.
  intros Hs Hlen. rewrite (Permutation_map _ (proj1 (Hs keys))), Hlen.
  now rewrite map_nth_seq_id.
Qed.

Lemma prepare_cells_uses (srt : list nat -> list nat) (sort_cells : bool)
    (cells : list (tri nat)) (i : nat) :
  sorts srt ->
  (exists c, In c (prepare_cells srt sort_cells cells) /\ uses c i) <->
  (exists c, In c cells /\ uses c i).
Proof.
  intros Hs. unfold prepare_cells. destruct sort_cells; [ | reflexivity].
  set (sorted := map sort3 cells).
  assert (Hp : Permutation (map (fun j => nth j sorted (Tri 0 0 0))
                              (srt (map (@t0 nat) sorted))) sorted).
  { apply sorts_reorders; [exact Hs | apply length_map]. }
  split.
  - intros (c & Hc & Hu). apply (Permutation_in _ Hp) in Hc.
    apply in_map_iff in Hc. destruct Hc as (c0 & <- & Hc0).
    exists c0. split; [exact Hc0 | now apply uses_sort3].
  - intros (c & Hc & Hu). exists (sort3 c). split; [ | now apply uses_sort3].
    apply (Permutation_in _ (Permutation_sym Hp)). now apply in_map.
Qed.

Lemma prepare_cells_in_range (srt : list nat -> list nat) (n : nat) (sort_cells : bool)
    (cells : list (tri nat)) :
  sorts srt ->
  cells_in_range n cells <-> cells_in_range n (prepare_cells srt sort_cells cells).
Proof.
  intros Hs. unfold cells_in_range. split; intros H c i Hc Hu.
  - destruct (proj1 (prepare_cells_uses sort_cells cells i Hs)) as (c' & Hc' & Hu'); eauto.
  - destruct (proj2 (prepare_cells_uses sort_cells cells i Hs)) as (c' & Hc' & Hu'); eauto.
Qed.

Section NoOrphans.

Variable K : tri float -> float * tri float.
Variable srt : list nat -> list nat.
Hypothesis srt_sorts : sorts srt.

Lemma init_runs_check (nodes : list point) (cells : list (tri nat))
    (mode : option fcc_mode) (sort_cells : bool) (e : exn) :
  assert_all_used (length nodes) (prepare_cells srt sort_cells cells) = Err e ->
  init K srt nodes cells mode sort_cells = Err e.
Proof. unfold init. intros ->. reflexivity. Qed.

(** C7: when some node does not appear in any cell the construction of
    the [MeshTri] fails (with the assertion, when every entry of the cell
    table is a node id); when every node appears in a cell the check
    passes.  This holds whatever order [numpy.argsort] gives to equal
    keys when the cells are sorted. *)
Theorem unused_node_fails_construction (nodes : list point) (cells : list (tri nat))
    (mode : option fcc_mode) (sort_cells : bool) :
  ((exists i, i < length nodes /\ forall c, In c cells -> ~ uses c i) ->
   (exists e, init K srt nodes cells mode sort_cells = Err e) /\
   (cells_in_range (length nodes) cells ->
    init K srt nodes cells mode sort_cells = Err AssertionError)) /\
  (cells_in_range (length nodes) cells ->
   (forall i, i < length nodes -> exists c, In c cells /\ uses c i) ->
   assert_all_used (length nodes) (prepare_cells srt sort_cells cells) = Ret tt).
Proof.
  split.
  - intros (i & Hi & Hnone).
    assert (Hnone' : exists i, i < length nodes /\
               forall c, In c (prepare_cells srt sort_cells cells) -> ~ uses c i).
    { exists i. split; [exact Hi | ]. intros c Hc Hu.
      destruct (proj1 (prepare_cells_uses sort_cells cells i srt_sorts)) as (c' & Hc' & Hu'); eauto.
      exact (Hnone c' Hc' Hu'). }
    assert (Hassert : cells_in_range (length nodes) cells ->
              init K srt nodes cells mode sort_cells = Err AssertionError).
    { intros Hr. apply init_runs_check.
      apply assert_all_used_spec; [ | exact Hnone'].
      now apply prepare_cells_in_range. }
    split; [ | exact Hassert].
    destruct (assert_all_used (length nodes) (prepare_cells srt sort_cells cells))
      as [[] | e] eqn:E.
    + exists AssertionError. apply init_runs_check.
      destruct (cells_in_range_dec (length nodes) (prepare_cells srt sort_cells cells))
        as [Hr | Hr].
      * apply assert_all_used_spec; assumption.
      * rewrite (assert_all_used_index_error Hr) in E. discriminate.
    + exists e. now apply init_runs_check.
  - intros Hr Hall.
    apply assert_all_used_spec.
    + now apply prepare_cells_in_range.
    + intros i Hi. apply prepare_cells_uses; auto.
Qed.

End NoOrphans.

(** Four nodes of which the cell uses three; three nodes that the cell
    uses all. *)
Lemma unused_node_fails_construction_witness :
  init kernel_area_ce np_argsort (cancelling_nodes ++ [[1; 1]%float]) one_cell None false
    = Err AssertionError /\
  assert_all_used 3 (prepare_cells np_argsort false one_cell) = Ret tt.
Proof.
  split.
  - apply (proj1 (unused_node_fails_construction kernel_area_ce np_argsort_sorts
                    (cancelling_nodes ++ [[1; 1]%float]) one_cell None false)).
    + exists 3. split; [simpl; lia | ].
      intros c [<- | []] [H | [H | H]]; discriminate.
    + intros c i [<- | []] [<- | [<- | <-]]; simpl; lia.
  - apply (proj2 (unused_node_fails_construction kernel_area_ce np_argsort_sorts
                    cancelling_nodes one_cell None false)).
    + intros c i [<- | []] [<- | [<- | <-]]; simpl; lia.
    + intros i Hi. exists (Tri 0 1 2). split; [now left | ].
      unfold uses. simpl in *. lia.
Defined.

(* ------------------------------------------------------------------ *)
(** ** The symmetry assertion of the flat cell corrector *)

Section Symmetry.

Variable K : tri float -> float * tri float.

Lemma forallb_false_Exists {A : Type} (f : A -> bool) (l : list A) :
  forallb f l = false <-> Exists (fun x => f x = false) l.
Proof.
  induction l as [ | x l IH]; simpl.
  - split; [discriminate | intros H; inversion H].
  - rewrite andb_false_iff, IH. split.
    + intros [H | H]; [now left | now right].
    + intros H. inversion H; subst; auto.
Qed.

Lemma isosceles_ce_ratios_checks (p0 p1 p2 : list point) :
  (Exists (fun ab => within_tolerance ab = false) (leg_ratios K p0 p1 p2) ->
   _isosceles_ce_ratios K p0 p1 p2 = Err AssertionError) /\
  (forall r, _isosceles_ce_ratios K p0 p1 p2 = Ret r ->
   Forall (fun ab => within_tolerance ab = true) (leg_ratios K p0 p1 p2)).
Proof.
  unfold _isosceles_ce_ratios, leg_ratios, py_assert.
  set (legs := combine _ _).
  destruct (forallb _ (map2 PrimFloat.sub _ _)); simpl.
  - fold within_tolerance.
    change (forallb (fun ab => (fabs (fst ab - snd ab) <? tol_symmetry * fst ab)%float) legs)
      with (forallb within_tolerance legs).
    destruct (forallb within_tolerance legs) eqn:E; simpl.
    + split.
      * intros Hex. apply forallb_false_Exists in Hex. congruence.
      * intros r _. apply Forall_forall. now apply forallb_forall.
    + split; [reflexivity | discriminate].
  - split; [reflexivity | discriminate].
Qed.

Lemma exceeds_is_not_within (ab : float * float) :
  exceeds_tolerance ab = true -> within_tolerance ab = false.
Proof. unfold exceeds_tolerance, within_tolerance. apply fltb_asym. Qed.

(** C9: while a [FlatCellCorrector] is built, the ratios of the two legs
    of each isosceles triangle of each corrected cell have to agree
    within the relative tolerance 1e-10.  When the pair of some triangle
    fails the test, in particular when the difference exceeds the
    tolerance, the construction raises an [AssertionError]; when the
    construction succeeds every pair has passed it. *)
Theorem symmetry_assertion (cells : list (tri nat)) (flat_edge_local_id : list nat)
    (node_coords P0 P1 P2 : list point) :
  corrected_points cells flat_edge_local_id node_coords P0 P1 P2 ->
  (Exists (fun ab => within_tolerance ab = false) (mirror_leg_ratios K P0 P1 P2) ->
   fcc_init K cells flat_edge_local_id node_coords = Err AssertionError) /\
  (Exists (fun ab => exceeds_tolerance ab = true) (mirror_leg_ratios K P0 P1 P2) ->
   fcc_init K cells flat_edge_local_id node_coords = Err AssertionError) /\
  (forall f, fcc_init K cells flat_edge_local_id node_coords = Ret f ->
   Forall (fun ab => within_tolerance ab = true) (mirror_leg_ratios K P0 P1 P2)).
Proof.
  intros (i0 & i1 & i2 & H0 & H1 & H2 & G0 & G1 & G2).
  unfold mirror_leg_ratios.
  destruct (isosceles_ce_ratios_checks (P1 ++ P2) (P0 ++ P0)
              (fst (_mirror_point P0 P1 P2) ++ fst (_mirror_point P0 P1 P2)))
    as [Hfail Hpass].
  assert (Herr : forall e,
    _isosceles_ce_ratios K (P1 ++ P2) (P0 ++ P0)
      (fst (_mirror_point P0 P1 P2) ++ fst (_mirror_point P0 P1 P2)) = Err e ->
    fcc_init K cells flat_edge_local_id node_coords = Err e).
  { intros e He. unfold fcc_init.
    rewrite H0, H1, H2. simpl. rewrite G0, G1, G2. simpl.
    destruct (_mirror_point P0 P1 P2) as [ghost q0]. simpl in He.
    rewrite He. reflexivity. }
  split; [ | split].
  - intros Hex. apply Herr. apply Hfail. exact Hex.
  - intros Hex. apply Herr. apply Hfail.
    apply Exists_exists in Hex. destruct Hex as (ab & Hin & Hab).
    apply Exists_exists. exists ab. split; [exact Hin | ].
    now apply exceeds_is_not_within.
  - intros f Hf.
    destruct (_isosceles_ce_ratios K (P1 ++ P2) (P0 ++ P0)
                (fst (_mirror_point P0 P1 P2) ++ fst (_mirror_point P0 P1 P2)))
      as [r | e] eqn:E.
    + exact (Hpass r eq_refl).
    + rewrite (Herr e eq_refl) in Hf. discriminate.
Qed.

End Symmetry.

(** The corrector of the collinear triangle: the two isosceles triangles
    have no area, the ratios of their legs are NaN, and the construction
    raises. *)
Lemma symmetry_assertion_witness :
  fcc_init kernel_area_ce one_cell [0] collinear_nodes = Err AssertionError.
Proof.
  refine (proj1 (symmetry_assertion kernel_area_ce (cells := one_cell)
                   (flat_edge_local_id := [0]) (node_coords := collinear_nodes)
                   (P0 := [[0; 0]%float]) (P1 := [[-1; 0]%float]) (P2 := [[1; 0]%float]) _) _).
  - exists [0], [1], [2]. repeat split; reflexivity.
  - apply Exists_cons_hd. vm_compute. reflexivity.
Defined.

(** The corrector of the flat triangle: the construction succeeds and the
    ratios of the legs agree. *)
Lemma symmetry_assertion_passes :
  exists f, fcc_init kernel_area_ce one_cell [0] flat_nodes = Ret f /\
  mirror_leg_ratios kernel_area_ce [[0; 1]%float] [[-2; 0]%float] [[2; 0]%float]
    = [(0.25, 0.25); (0.25, 0.25)]%float.
Proof. eexists. split; vm_compute; reflexivity. Qed.

(* ------------------------------------------------------------------ *)
(** ** The precondition of a flip batch *)

Lemma insert_uniq_In (x y : nat) (l : list nat) :
  In y (insert_uniq Nat.compare x l) <-> y = x \/ In y l.
Proof.
  induction l as [ | z l IH]; simpl.
  - intuition.
  - destruct (Nat.compare_spec x z) as [-> | Hlt | Hgt]; simpl.
    + intuition.
    + intuition.
    + rewrite IH. intuition.
Qed.

Lemma sort_uniq_In (y : nat) (l : list nat) :
  In y (sort_uniq Nat.compare l) <-> In y l.
Proof.
  unfold sort_uniq. induction l as [ | x l IH]; simpl; [reflexivity | ].
  rewrite insert_uniq_In, IH. intuition.
Qed.

Lemma count_eq_zero (c : nat) (l : list nat) :
  ~ In c l -> count_eq Nat.eqb c l = 0.
Proof.
  unfold count_eq. induction l as [ | x l IH]; simpl; [reflexivity | ].
  intros Hn. destruct (Nat.eqb_spec c x) as [-> | Hne]; [exfalso; auto | ].
  apply IH. auto.
Qed.

(** [numpy.unique] reports a count below 2 for every value exactly when
    no value occurs twice. *)
Lemma unique_counts_below_two (l : list nat) :
  forallb (fun c => c <? 2) (snd (np_unique l)) = true <->
  forall c, count_eq Nat.eqb c l <= 1.
Proof.
  unfold np_unique. simpl. rewrite forallb_forall. split.
  - intros H c. destruct (in_dec Nat.eq_dec c l) as [Hin | Hout].
    + assert (Hc : (count_eq Nat.eqb c l <? 2) = true).
      { apply H. apply in_map_iff. exists c. split; [reflexivity | ].
        now apply sort_uniq_In. }
      apply Nat.ltb_lt in Hc. lia.
    + rewrite count_eq_zero by exact Hout. lia.
  - intros H n Hn. apply in_map_iff in Hn. destruct Hn as (c & <- & _).
    apply Nat.ltb_lt. specialize (H c). lia.
Qed.

Lemma compute_edges_cells_frame (srt : list nat -> list nat) (m m1 : MeshTri) (u : unit) :
  _compute_edges_cells srt m = Done u m1 -> same_but_edge_index m m1.
Proof.
  unfold _compute_edges_cells, same_but_edge_index. intros H.
  peel_all H. apply lift_Done in H. destruct H as [_ ->].
  destruct m. reflexivity.
Qed.

Lemma same_but_edge_index_refl (m : MeshTri) : same_but_edge_index m m.
Proof. unfold same_but_edge_index. destruct m. reflexivity. Qed.

Section Precondition.

Variable K : tri float -> float * tri float.
Variable srt : list nat -> list nat.

Lemma select_flip_cells_unfold (mask : list bool) (m m1 : MeshTri)
    (ec : list nat * list (nat * nat)) (flipped : list (nat * nat)) :
  is_full (fcc_type m) = false ->
  when (is_none (_edges_cells m)) (_compute_edges_cells srt) m = Done tt m1 ->
  _edges_cells m1 = Some ec ->
  mask_select (snd ec) mask = Ret flipped ->
  select_flip_cells srt mask m =
    if forallb (fun c => c <? 2) (snd (np_unique (flat_pairs flipped)))
    then Done flipped m1 else Fail AssertionError m1.
Proof.
  intros Hmode Hlazy Hec Hsel.
  unfold select_flip_cells, mbind at 1, attr at 1.
  unfold mbind at 1. rewrite Hmode. simpl lift.
  unfold mbind at 1, attr at 1, mbind at 1. rewrite Hlazy.
  unfold mbind at 1, need. rewrite Hec.
  unfold mbind at 1. rewrite Hsel. simpl lift.
  unfold mbind, py_assert, lift, mret.
  destruct (forallb _ _); reflexivity.
Qed.

(** C8, as the code has it: [_flip_edges] first builds the edge->cells
    index when the object does not have it yet (nothing else of the
    object changes), then checks the batch.  When some cell holds more
    than one adjacency slot of the edges selected for flipping it raises
    an [AssertionError], with the object as the index build left it; when
    no cell does, the check passes. *)
Theorem flip_batch_checked (mask : list bool) (m m1 : MeshTri)
    (ec : list nat * list (nat * nat)) (flipped : list (nat * nat)) :
  is_full (fcc_type m) = false ->
  when (is_none (_edges_cells m)) (_compute_edges_cells srt) m = Done tt m1 ->
  _edges_cells m1 = Some ec ->
  mask_select (snd ec) mask = Ret flipped ->
  same_but_edge_index m m1 /\
  (_edges_cells m <> None -> m1 = m) /\
  ((exists c, 2 <= times_selected flipped c) ->
   _flip_edges K srt mask m = Fail AssertionError m1) /\
  ((forall c, times_selected flipped c <= 1) ->
   select_flip_cells srt mask m = Done flipped m1).
Proof.
  intros Hmode Hlazy Hec Hsel.
  pose proof (select_flip_cells_unfold mask m Hmode Hlazy Hec Hsel) as Hs.
  split; [ | split; [ | split]].
  - unfold when in Hlazy. destruct (is_none (_edges_cells m)).
    + exact (@compute_edges_cells_frame srt m m1 tt Hlazy).
    + apply mret_Done in Hlazy. destruct Hlazy as [_ ->].
      apply same_but_edge_index_refl.
  - intros Hsome. unfold when in Hlazy.
    destruct (_edges_cells m); [ | congruence]. simpl in Hlazy.
    apply mret_Done in Hlazy. now destruct Hlazy as [_ ->].
  - intros (c & Hc).
    destruct (forallb _ _) eqn:E.
    + apply unique_counts_below_two with (c := c) in E.
      unfold times_selected in Hc. lia.
    + unfold _flip_edges, mbind. now rewrite Hs.
  - intros Hall. apply unique_counts_below_two in Hall. now rewrite Hall in Hs.
Qed.

End Precondition.

(** In the fan the middle cell is adjacent to both interior edges: the
    batch of both is refused; the batch of the first alone passes. *)
Lemma flip_batch_checked_witness :
  (exists m', _flip_edges kernel_area_ce np_argsort [true; true] fan_mesh = Fail AssertionError m') /\
  (exists m', select_flip_cells np_argsort [true; false] fan_mesh = Done [(0, 1)] m').
Proof.
  pose (m1 := after (_compute_edges_cells np_argsort fan_mesh)).
  assert (Hlazy : when (is_none (_edges_cells fan_mesh)) (_compute_edges_cells np_argsort) fan_mesh
                  = Done tt m1) by (vm_compute; reflexivity).
  assert (Hec : _edges_cells m1 = Some ([0; 2; 0; 1; 2], [(0, 1); (1, 2)]))
    by (vm_compute; reflexivity).
  split.
  - exists m1.
    refine (proj1 (proj2 (proj2 (flip_batch_checked kernel_area_ce np_argsort [true; true] fan_mesh
                     (flipped := [(0, 1); (1, 2)]) _ Hlazy Hec _))) _).
    + reflexivity.
    + reflexivity.
    + exists 1. vm_compute. lia.
  - exists m1.
    refine (proj2 (proj2 (proj2 (flip_batch_checked kernel_area_ce np_argsort [true; false] fan_mesh
                     (flipped := [(0, 1)]) _ Hlazy Hec _))) _).
    + reflexivity.
    + reflexivity.
    + intros c. unfold times_selected, count_eq. simpl.
      destruct (Nat.eqb_spec c 0); destruct (Nat.eqb_spec c 1); simpl; lia.
Defined.

(** C8 as stated fails: the object has no edge->cells index when the
    refused batch arrives, and has one when the assertion is raised. *)
Lemma flip_batch_refused_after_index_build :
  _edges_cells fan_mesh = None /\
  exists m',
    _flip_edges kernel_area_ce np_argsort [true; true] fan_mesh = Fail AssertionError m' /\
    _edges_cells m' = Some ([0; 2; 0; 1; 2], [(0, 1); (1, 2)]) /\
    m' <> fan_mesh.
Proof.
  split; [reflexivity | ].
  eexists. split; [vm_compute; reflexivity | ].
  split; [reflexivity | ].
  intros H. apply (f_equal _edges_cells) in H. vm_compute in H. discriminate.
Qed.

(* ------------------------------------------------------------------ *)
(** ** The loop of [flip_until_delaunay] *)

Section FlipLoop.

Variable K : tri float -> float * tri float.
Variable srt : list nat -> list nat.

Lemma flip_loop_stop (fuel n : nat) (nf : list bool) (m : MeshTri) :
  np_any nf = false -> flip_loop K srt fuel n nf m = Some (Done (1 <? n) m).
Proof. intros H. destruct fuel; simpl; now rewrite H. Qed.

Lemma flip_loop_out_of_fuel (n : nat) (nf : list bool) (m : MeshTri) :
  np_any nf = true -> flip_loop K srt 0 n nf m = None.
Proof. intros H. simpl. now rewrite H. Qed.

Lemma flip_loop_pass (fuel n : nat) (nf : list bool) (m : MeshTri) :
  np_any nf = true ->
  flip_loop K srt (S fuel) n nf m =
    match flip_step K srt nf m with
    | Done r m' => flip_loop K srt fuel (S n) (map ltb0 r) m'
    | Fail e m' => Some (Fail e m')
    end.
Proof. intros H. simpl. now rewrite H. Qed.

Lemma interior_ce_ratios_cached (m m' : MeshTri) (r : list float) :
  get_ce_ratios_per_interior_edge m = Done r m' -> _interior_ce_ratios m' = Some r.
Proof.
  unfold get_ce_ratios_per_interior_edge. intros H. peel H.
  destruct (_interior_ce_ratios m) as [c | ] eqn:E.
  - apply mret_Done in H. destruct H as [-> ->]. exact E.
  - peel_all H. apply mret_Done in H. destruct H as [-> ->]. reflexivity.
Qed.

Lemma flip_step_cached (nf : list bool) (m m' : MeshTri) (r : list float) :
  flip_step K srt nf m = Done r m' -> _interior_ce_ratios m' = Some r.
Proof.
  unfold flip_step. intros H. peel H. now apply interior_ce_ratios_cached in H.
Qed.

(** The result of the loop does not depend on how many more iterations
    it is allowed. *)
Lemma flip_loop_more_fuel (fuel extra n : nat) (nf : list bool) (m : MeshTri)
    (o : outcome bool) :
  flip_loop K srt fuel n nf m = Some o -> flip_loop K srt (fuel + extra) n nf m = Some o.
Proof.
  revert n nf m. induction fuel as [ | fuel IH]; intros n nf m H.
  - destruct (np_any nf) eqn:E.
    + rewrite flip_loop_out_of_fuel in H by exact E. discriminate.
    + rewrite flip_loop_stop in * by exact E. exact H.
  - destruct (np_any nf) eqn:E.
    + simpl Nat.add. rewrite flip_loop_pass in * by exact E.
      destruct (flip_step K srt nf m); [now apply IH | exact H].
    + rewrite flip_loop_stop in * by exact E. exact H.
Qed.

(** When the loop returns, the set it looked at last was empty. *)
Lemma flip_loop_exit (fuel n : nat) (nf : list bool) (m m' : MeshTri) (b : bool) :
  flip_loop K srt fuel n nf m = Some (Done b m') ->
  (np_any nf = false /\ m' = m) \/
  (exists r, _interior_ce_ratios m' = Some r /\ np_any (map ltb0 r) = false).
Proof.
  revert n nf m. induction fuel as [ | fuel IH]; intros n nf m H.
  - destruct (np_any nf) eqn:E.
    + rewrite flip_loop_out_of_fuel in H by exact E. discriminate.
    + rewrite flip_loop_stop in H by exact E. injection H as _ <-. now left.
  - destruct (np_any nf) eqn:E.
    + rewrite flip_loop_pass in H by exact E.
      destruct (flip_step K srt nf m) as [r m1 | e m1] eqn:Es; [ | discriminate].
      right. apply IH in H. destruct H as [[Hany ->] | H]; [ | exact H].
      exists r. split; [now apply flip_step_cached in Es | exact Hany].
    + rewrite flip_loop_stop in H by exact E. injection H as _ <-. now left.
Qed.

Lemma create_edges_ratios (m m' : MeshTri) (u : unit) :
  create_edges m = Done u m' ->
  ce_ratios_per_half_edge m' = ce_ratios_per_half_edge m.
Proof.
  unfold create_edges. intros H. peel_all H.
  apply modify_Done in H. subst m'. reflexivity.
Qed.

Lemma mark_boundary_frame (m m' : MeshTri) (u : unit) :
  mark_boundary m = Done u m' ->
  ce_ratios_per_half_edge m' = ce_ratios_per_half_edge m /\
  (edges m <> None -> is_boundary_edge m' = is_boundary_edge m).
Proof.
  unfold mark_boundary. intros H. peel H. peel H.
  assert (Hm : ce_ratios_per_half_edge m0 = ce_ratios_per_half_edge m /\
               (edges m <> None -> m0 = m)).
  { unfold when in E. destruct (edges m) as [e | ]; simpl in E.
    - apply mret_Done in E. destruct E as [_ ->]. auto.
    - split; [now apply create_edges_ratios in E | congruence]. }
  destruct Hm as [Hce Hsame].
  peel H. peel H. peel H.
  destruct (is_boundary_edge m0) as [mask | ] eqn:Em.
  - peel_all H. apply modify_Done in H. subst m'. simpl.
    split; [exact Hce | ]. intros He. rewrite <- (Hsame He). now rewrite Em.
  - peel_all H. apply lift_Done in H. destruct H; discriminate.
Qed.

(** C3, as the code has it: the loop of [flip_until_delaunay] has no
    iteration cap.  When the method returns, it returns the same however
    many more iterations it is allowed, and it has stopped because one of
    the two positivity checks held at once or because the recomputed
    needs-flip set was empty. *)
Theorem flip_loop_runs_until_empty (fuel : nat) (m m' : MeshTri) (b : bool) :
  flip_until_delaunay K srt fuel m = Some (Done b m') ->
  (forall extra, flip_until_delaunay K srt (fuel + extra) m = Some (Done b m')) /\
  (np_all (map gtb0 (flat_3n (ce_ratios_per_half_edge m'))) = true \/
   (exists mask interior,
      is_boundary_edge m' = Some mask /\
      mask_select_3n (ce_ratios_per_half_edge m') (tmap (map negb) mask) = Ret interior /\
      np_all (map gtb0 interior) = true) \/
   (exists r, _interior_ce_ratios m' = Some r /\ np_any (map ltb0 r) = false)).
Proof.
  unfold flip_until_delaunay. intros H.
  destruct (flip_precheck m) as [[nf | ] m0 | e m0] eqn:Ep; [ | | discriminate].
  - split; [intros extra; now apply flip_loop_more_fuel | ].
    right. right.
    apply flip_loop_exit in H. destruct H as [[Hany ->] | H]; [ | exact H].
    unfold flip_precheck in Ep. peel Ep. peel Ep. peel Ep.
    apply attr_Done in E0. destruct E0 as [-> ->].
    destruct (np_all _); [apply mret_Done in Ep; destruct Ep; discriminate | ].
    peel Ep. peel Ep. peel Ep. peel Ep. peel Ep.
    destruct (np_all _); [apply mret_Done in Ep; destruct Ep; discriminate | ].
    peel Ep. apply mret_Done in Ep. destruct Ep as [[= ->] ->].
    exists a4. split; [now apply interior_ce_ratios_cached in E4 | exact Hany].
  - injection H as <- <-. split; [reflexivity | ].
    unfold flip_precheck in Ep. peel Ep. peel Ep. peel Ep.
    apply attr_Done in E0. destruct E0 as [-> ->].
    destruct (np_all (map gtb0 (flat_3n (ce_ratios_per_half_edge m)))) eqn:E1.
    + apply mret_Done in Ep. destruct Ep as [_ ->]. now left.
    + right. left. peel Ep. peel Ep. peel Ep. peel Ep. peel Ep.
      destruct (np_all (map gtb0 a3)) eqn:E5.
      * apply mret_Done in Ep. destruct Ep as [_ ->].
        apply mark_boundary_frame in E2. destruct E2 as [Hce _].
        assert (Hce0 : ce_ratios_per_half_edge m1 = ce_ratios_per_half_edge m).
        { unfold when in E0. destruct (is_none (is_boundary_edge m)).
          - now apply create_edges_ratios in E0.
          - apply mret_Done in E0. now destruct E0 as [_ ->]. }
        exists a2, a3. rewrite Hce, Hce0. auto.
      * peel Ep. apply mret_Done in Ep. destruct Ep; discriminate.
Qed.

End FlipLoop.

(** A mesh on which the method returns after one pass. *)
Lemma flip_loop_runs_until_empty_witness :
  exists m',
    (forall extra, flip_until_delaunay kernel_area_ce np_argsort (1 + extra) kite_mesh
                   = Some (Done false m')) /\
    cells_nodes m' = [Tri 1 3 2; Tri 1 3 0] /\
    _interior_ce_ratios m' = Some [0.75]%float.
Proof.
  pose (m' := match flip_until_delaunay kernel_area_ce np_argsort 1 kite_mesh with
              | Some o => after o
              | None => kite_mesh
              end).
  assert (H : flip_until_delaunay kernel_area_ce np_argsort 1 kite_mesh = Some (Done false m'))
    by (vm_compute; reflexivity).
  exists m'. split; [ | split].
  - exact (proj1 (flip_loop_runs_until_empty kernel_area_ce np_argsort 1 kite_mesh H)).
  - vm_compute. reflexivity.
  - vm_compute. reflexivity.
Defined.

(** *** A mesh on which the loop does not stop *)

Lemma Permutation_remove (a : nat) (l l' : list nat) :
  Permutation l l' -> Permutation (remove Nat.eq_dec a l) (remove Nat.eq_dec a l').
Proof.
  induction 1 as [ | x l l' H IH | x y l | l l' l'' H1 IH1 H2 IH2]; simpl.
  - constructor.
  - destruct (Nat.eq_dec a x); [exact IH | now constructor].
  - destruct (Nat.eq_dec a y); destruct (Nat.eq_dec a x);
      try reflexivity. apply perm_swap.
  - now transitivity (remove Nat.eq_dec a l').
Qed.

(** [ascending_orders] misses no ascending order of the positions. *)
Lemma ascending_orders_complete (key : nat -> nat) (fuel : nat) (rem p : list nat) :
  NoDup rem -> length rem = fuel -> Permutation p rem ->
  StronglySorted le (map key p) ->
  In p (ascending_orders key fuel rem).
Proof.
  revert rem p. induction fuel as [ | fuel IH]; intros rem p Hnd Hlen Hp Hs.
  - destruct rem; [ | discriminate]. apply Permutation_sym, Permutation_nil in Hp. subst p. now left.
  - destruct p as [ | i p].
    { apply Permutation_length in Hp. simpl in Hp. lia. }
    simpl in Hs. inversion Hs as [ | ? ? Hs' Hle]; subst.
    assert (Hnd' : NoDup (i :: p))
      by (apply (Permutation_NoDup (Permutation_sym Hp)); exact Hnd).
    inversion Hnd' as [ | ? ? Hni Hndp]; subst.
    simpl. apply in_flat_map. exists i. split.
    + apply (Permutation_in _ Hp). now left.
    + assert (Hmin : forallb (fun j => key i <=? key j) rem = true).
      { apply forallb_forall. intros j Hj. apply Nat.leb_le.
        apply (Permutation_in _ (Permutation_sym Hp)) in Hj.
        destruct Hj as [<- | Hj]; [lia | ].
        rewrite Forall_forall in Hle. apply Hle. now apply in_map. }
      rewrite Hmin. apply in_map.
      assert (Hp' : Permutation p (remove Nat.eq_dec i rem)).
      { pose proof (Permutation_remove i Hp) as Hr. simpl in Hr.
        destruct (Nat.eq_dec i i) as [_ | Hii]; [ | congruence].
        now rewrite (notin_remove Nat.eq_dec p i Hni) in Hr. }
      apply IH.
      * apply (Permutation_NoDup Hp'). exact Hndp.
      * apply Permutation_length in Hp, Hp'. simpl in Hp. lia.
      * exact Hp'.
      * exact Hs'.
Qed.

(** What a sorting argsort returns for [l] is among [argsort_results l]. *)
Lemma sorts_argsort_results (srt : list nat -> list nat) (l : list nat) :
  sorts srt -> In (srt l) (argsort_results l).
Proof.
  intros Hs. destruct (Hs l) as [Hp Ha].
  apply ascending_orders_complete; auto using seq_NoDup, length_seq.
Qed.

(** [_compute_edges_cells] asks the argsort for one array only. *)
Lemma compute_edges_cells_argsort (A B : list nat -> list nat) (m : MeshTri) :
  (forall ce, cells_edges m = Some ce -> A (flat_n3 ce) = B (flat_n3 ce)) ->
  _compute_edges_cells A m = _compute_edges_cells B m.
Proof.
  intros H. unfold _compute_edges_cells, mbind, need.
  destruct (edges m); [ | reflexivity].
  destruct (cells_edges m) as [ce | ]; [ | reflexivity].
  now rewrite (H ce eq_refl).
Qed.

(** A pass calls the argsort when the object has no edge->cells index,
    and only then. *)
Lemma select_flip_cells_argsort (A B : list nat -> list nat) (nf : list bool)
    (m : MeshTri) :
  (_edges_cells m = None ->
   forall ce, cells_edges m = Some ce -> A (flat_n3 ce) = B (flat_n3 ce)) ->
  select_flip_cells A nf m = select_flip_cells B nf m.
Proof.
  intros H. unfold select_flip_cells.
  apply mbind_cong. intros mode m1 E1. apply attr_Done in E1. destruct E1 as [_ ->].
  apply mbind_cong. intros u m1 E2. apply lift_Done in E2. destruct E2 as [_ ->].
  apply mbind_cong. intros ec0 m1 E3. apply attr_Done in E3. destruct E3 as [-> ->].
  assert (Hw : when (is_none (_edges_cells m)) (_compute_edges_cells A) m
               = when (is_none (_edges_cells m)) (_compute_edges_cells B) m).
  { unfold when. destruct (_edges_cells m); [reflexivity | ].
    simpl. apply compute_edges_cells_argsort. now apply H. }
  unfold mbind at 1. rewrite Hw. reflexivity.
Qed.

Lemma flip_step_argsort (K : tri float -> float * tri float) (A B : list nat -> list nat)
    (nf : list bool) (m : MeshTri) :
  (_edges_cells m = None ->
   forall ce, cells_edges m = Some ce -> A (flat_n3 ce) = B (flat_n3 ce)) ->
  flip_step K A nf m = flip_step K B nf m.
Proof.
  intros H. unfold flip_step.
  assert (Hf : _flip_edges K A nf m = _flip_edges K B nf m).
  { unfold _flip_edges. unfold mbind at 1.
    rewrite (select_flip_cells_argsort A B nf m H). reflexivity. }
  unfold mbind at 1. rewrite Hf. reflexivity.
Qed.

(** The mesh of the cocircular quadrilateral is constructed, whatever
    the argsort is; the first needs-flip set is the diagonal. *)
Lemma cocircular_mesh_constructed (srt : list nat -> list nat) :
  init kernel_area_ce srt cocircular_nodes cocircular_cells None false = Ret cocircular_mesh.
Proof. vm_compute. reflexivity. Qed.

Lemma cocircular_precheck :
  flip_precheck cocircular_mesh = Done (Some diagonal_only) cocircular_start.
Proof. vm_compute. reflexivity. Qed.

Lemma cocircular_start_edges :
  _edges_cells cocircular_start = None /\
  exists ce, cells_edges cocircular_start = Some ce /\ flat_n3 ce = cocircular_edges_flat.
Proof. split; [reflexivity | ]. eexists. split; vm_compute; reflexivity. Qed.

(** The array of the first pass has five pairs of equal entries, which
    leaves an argsort thirty-two results; with each of them the diagonal
    is flipped back and forth. *)
Lemma cocircular_orders_flip_back :
  length (argsort_results cocircular_edges_flat) = 32 /\
  Forall diagonal_flips_back (argsort_results cocircular_edges_flat).
Proof.
  split; [vm_compute; reflexivity | ].
  assert (E : argsort_results cocircular_edges_flat
              = ltac:(let v := eval vm_compute in (argsort_results cocircular_edges_flat)
                      in exact v)) by (vm_compute; reflexivity).
  rewrite E. clear E.
  repeat (apply Forall_cons;
          [ split; [eexists; split; vm_compute; reflexivity | ];
            split; [eexists; split; vm_compute; reflexivity | ];
            split; [eexists; split; vm_compute; reflexivity | ];
            split; intros H; vm_compute in H; discriminate
          | ]).
  apply Forall_nil.
Qed.

Section Cocircular.

Variable srt : list nat -> list nat.
Hypothesis srt_sorts : sorts srt.

(** The result of the argsort of the first pass is one of the
    thirty-two. *)
Lemma cocircular_order_flips_back : diagonal_flips_back (srt cocircular_edges_flat).
Proof.
  destruct cocircular_orders_flip_back as [_ H].
  rewrite Forall_forall in H. apply H.
  now apply sorts_argsort_results.
Qed.

(** A pass of the loop with [srt] is the pass with the result of the
    first argsort: on the start, where the index is built, and on the two
    later states, where it is there. *)
Lemma cocircular_pass_start :
  flip_step kernel_area_ce srt diagonal_only cocircular_start
  = flip_step kernel_area_ce (fun _ => srt cocircular_edges_flat) diagonal_only cocircular_start.
Proof.
  apply flip_step_argsort. intros _ ce Hce.
  destruct cocircular_start_edges as (_ & ce0 & Hce0 & Hflat).
  rewrite Hce in Hce0. injection Hce0 as <-. now rewrite Hflat.
Qed.

Lemma cocircular_pass_later (m : MeshTri) :
  _edges_cells m <> None ->
  flip_step kernel_area_ce srt diagonal_only m
  = flip_step kernel_area_ce (fun _ => srt cocircular_edges_flat) diagonal_only m.
Proof. intros H. apply flip_step_argsort. intros Hn. contradiction. Qed.

Lemma cocircular_loop_never_stops (fuel n : nat) :
  flip_loop kernel_area_ce srt fuel n diagonal_only (cocircular_odd (srt cocircular_edges_flat)) = None /\
  flip_loop kernel_area_ce srt fuel n diagonal_only (cocircular_even (srt cocircular_edges_flat)) = None.
Proof.
  destruct cocircular_order_flips_back
    as (_ & (r1 & H1 & Hr1) & (r2 & H2 & Hr2) & Hodd & Heven).
  revert n. induction fuel as [ | fuel IH]; intros n.
  - split; apply flip_loop_out_of_fuel; reflexivity.
  - split; rewrite flip_loop_pass by reflexivity.
    + rewrite (@cocircular_pass_later _ Hodd), H1, Hr1. apply IH.
    + rewrite (@cocircular_pass_later _ Heven), H2, Hr2. apply IH.
Qed.

Lemma cocircular_never_returns (fuel : nat) :
  flip_until_delaunay kernel_area_ce srt fuel cocircular_mesh = None.
Proof.
  unfold flip_until_delaunay. rewrite cocircular_precheck.
  destruct fuel as [ | fuel].
  - apply flip_loop_out_of_fuel. reflexivity.
  - destruct cocircular_order_flips_back as ((r & H & Hr) & _).
    rewrite flip_loop_pass by reflexivity.
    rewrite cocircular_pass_start, H, Hr.
    apply cocircular_loop_never_stops.
Qed.

End Cocircular.

(** C3 as stated fails: the mesh of the cocircular quadrilateral is
    constructed, and on it the loop of [flip_until_delaunay] is still
    running after any number of iterations, whatever order the argsort of
    [_compute_edges_cells] gives to the equal entries of its array. *)
Lemma flip_until_delaunay_runs_forever :
  init kernel_area_ce np_argsort cocircular_nodes cocircular_cells None false
    = Ret cocircular_mesh /\
  sorts np_argsort /\
  forall srt, sorts srt ->
  forall fuel, flip_until_delaunay kernel_area_ce srt fuel cocircular_mesh = None.
Proof.
  split; [apply cocircular_mesh_constructed | ].
  split; [exact np_argsort_sorts | ].
  intros srt Hs fuel. now apply cocircular_never_returns.
Qed.

(* ------------------------------------------------------------------ *)
(** ** Edges, boundary marks and the state after construction *)

Lemma take_map_nth {A : Type} (l : list A) (idx : list nat) (r : list A) (d : A) :
  take l idx = Ret r -> r = map (fun i => nth i l d) idx.
Proof.
  unfold take. revert r. induction idx as [ | i idx IH]; simpl; intros r H.
  - now injection H as <-.
  - apply rbind_Ret in H. destruct H as (x & Hx & H).
    apply rbind_Ret in H. destruct H as (xs & Hxs & H).
    injection H as <-. f_equal; [ | now apply IH].
    apply getitem_Ret in Hx. symmetry. now apply nth_error_nth.
Qed.

Lemma create_edges_spec (m m' : MeshTri) (u : unit) :
  create_edges m = Done u m' ->
  forallb (fun c => c <? 3) (edge_counts m) = true /\ m' = install_edges m.
Proof.
  unfold create_edges, install_edges, edge_counts, edge_ids, half_edge_rows.
  intros H. peel H.
  destruct (unique_rows _) as [[a_unique inv] cts] eqn:Eu. simpl.
  peel H. peel H.
  apply take_map_nth with (d := 0) in E0. subst a0.
  rewrite map_map in H.
  peel_all H. apply modify_Done in H. subst m'.
  split; [ | reflexivity].
  unfold py_assert in E. destruct (forallb _ cts); [reflexivity | discriminate].
Qed.

Lemma half_edge_rows_length (n : nat) (ih : tri (list nat) * tri (list nat)) :
  shape3 n (fst ih) -> shape3 n (snd ih) -> length (half_edge_rows ih) = 3 * n.
Proof.
  intros H0 H1. unfold half_edge_rows.
  rewrite length_map, length_combine, (flat_3n_length H0), (flat_3n_length H1). lia.
Qed.

Lemma edge_ids_length (m : MeshTri) :
  length (edge_ids m) = length (half_edge_rows (idx_hierarchy m)).
Proof. unfold edge_ids, unique_rows. simpl. now rewrite length_map. Qed.

Lemma install_edges_current (m : MeshTri) :
  forallb (fun c => c <? 3) (edge_counts m) = true -> edges_current (install_edges m).
Proof.
  intros H. unfold edges_current, install_edges, edge_counts, edge_ids. simpl.
  repeat split; auto.
Qed.

Lemma install_edges_shaped (m : MeshTri) : well_shaped m -> well_shaped (install_edges m).
Proof.
  intros [Hc H0 H1 R0 R1 Hr Hm]. constructor; simpl; auto.
  intros mask [= <-].
  pose proof H0 as (L0 & _). rewrite L0.
  apply reshape_3n_shape. rewrite length_map, edge_ids_length.
  now apply half_edge_rows_length.
Qed.

Lemma put_aux_total {A : Type} (iv : list (nat * A)) (l : list A) :
  Forall (fun p => fst p < length l) iv -> exists r, put_aux l iv = Ret r.
Proof.
  revert l. induction iv as [ | [i v] iv IH]; simpl; intros l H.
  - now exists l.
  - inversion H as [ | ? ? Hi Ht]; subst. simpl in Hi.
    unfold setitem. apply Nat.ltb_lt in Hi. rewrite Hi. simpl.
    apply IH. rewrite upd_length'. exact Ht.
Qed.

Lemma put_const_total {A : Type} (l : list A) (idx : list nat) (x : A) :
  Forall (fun i => i < length l) idx -> exists r, put_const l idx x = Ret r.
Proof.
  intros H. unfold put_const. apply put_aux_total.
  apply Forall_map. exact H.
Qed.

Lemma mask_aux_Forall {A : Type} (P : A -> Prop) (l : list A) (mask : list bool) :
  Forall P l -> Forall P (mask_aux l mask).
Proof.
  intros H. apply Forall_forall. intros x Hx.
  rewrite Forall_forall in H. apply H. eapply mask_aux_In. exact Hx.
Qed.

Lemma flat_3n_Forall {A : Type} (P : A -> Prop) (t : tri (list A)) :
  Forall P (flat_3n t) <-> Forall P (t0 t) /\ Forall P (t1 t) /\ Forall P (t2 t).
Proof. unfold flat_3n. rewrite !Forall_app. tauto. Qed.

Lemma mark_boundary_installs (m : MeshTri) (mask : tri (list bool)) :
  well_shaped m -> edges m <> None -> is_boundary_edge m = Some mask ->
  mark_boundary m = Done tt (install_boundary m mask).
Proof.
  intros W He Hm. pose proof (ws_mask W Hm) as Sm.
  unfold mark_boundary, install_boundary, boundary_marks.
  unfold mbind at 1. unfold attr at 1.
  destruct (edges m) as [e | ] eqn:Ee; [ | congruence].
  unfold mbind, attr, when, is_none, mret, modify, lift. rewrite Hm.
  rewrite (mask_select_3n_Ret (ws_ih0 W) Sm), (mask_select_3n_Ret (ws_ih1 W) Sm).
  match goal with |- context [put_const ?l ?idx true] =>
    destruct (@put_const_total bool l idx true) as (r & Hr) end.
  - rewrite repeat_length.
    pose proof (ws_ih0_range W) as R0. pose proof (ws_ih1_range W) as R1.
    apply flat_3n_Forall in R0. apply flat_3n_Forall in R1.
    rewrite !Forall_app. repeat split; apply mask_aux_Forall; tauto.
  - rewrite Hr. reflexivity.
Qed.

(** *** [get_ce_ratios_per_interior_edge] without a cached value *)

Section InteriorRatios.

Variable m : MeshTri.
Hypothesis no_cache : _interior_ce_ratios m = None.

Lemma interior_ratios_absent (ir : list float) (m' : MeshTri) :
  cells_edges m = None ->
  get_ce_ratios_per_interior_edge m = Done ir m' ->
  forallb (fun c => c <? 3) (edge_counts m) = true /\
  create_edges m = Done tt (install_edges m) /\
  get_ce_ratios_per_interior_edge (install_edges m) = Done ir m'.
Proof.
  intros Hce H. unfold get_ce_ratios_per_interior_edge in H.
  unfold mbind at 1 in H. unfold attr at 1 in H. rewrite no_cache in H.
  unfold mbind at 1 in H. unfold attr at 1 in H. rewrite Hce in H.
  unfold when, is_none in H.
  apply mbind_Done in H. destruct H as (u & m1 & Hc & H).
  pose proof Hc as Hc'. destruct u.
  apply create_edges_spec in Hc. destruct Hc as [Hc ->]. split; [exact Hc | ].
  split; [exact Hc' | ].
  unfold get_ce_ratios_per_interior_edge.
  unfold mbind at 1. unfold attr at 1.
  replace (_interior_ce_ratios (install_edges m)) with (@None (list float))
    by (symmetry; exact no_cache).
  unfold mbind at 1. unfold attr at 1. simpl cells_edges. unfold when, is_none.
  unfold mbind at 1. unfold mret at 1. exact H.
Qed.

Lemma interior_ratios_built (e : list (nat * nat)) (ce : list (tri nat))
    (bnd : list bool) (ir : list float) (m' : MeshTri) :
  cells_edges m = Some ce -> edges m = Some e ->
  is_boundary_edge_individual m = Some bnd ->
  get_ce_ratios_per_interior_edge m = Done ir m' ->
  exists r,
    add_at (zeros (length e)) (flat_3n (transpose_n3 ce))
           (flat_3n (ce_ratios_per_half_edge m)) = Ret r /\
    mask_select r (map negb bnd) = Ret ir /\
    m' = set__interior_ce_ratios (Some ir)
           (set__ce_ratios (Some r) (set__ce_ratios (Some (zeros (length e))) m)).
Proof.
  intros Hce He Hb H. unfold get_ce_ratios_per_interior_edge in H.
  unfold mbind at 1 in H. unfold attr at 1 in H. rewrite no_cache in H.
  unfold mbind at 1 in H. unfold attr at 1 in H. rewrite Hce in H.
  unfold when, is_none in H. unfold mbind at 1 in H. unfold mret at 1 in H.
  unfold mbind at 1 in H. unfold need at 1 in H. rewrite He in H.
  unfold mbind at 1 in H. unfold modify at 1 in H.
  unfold mbind at 1 in H. unfold need at 1 in H. simpl cells_edges in H.
  rewrite Hce in H.
  unfold mbind at 1 in H. unfold attr at 1 in H. simpl ce_ratios_per_half_edge in H.
  unfold mbind at 1 in H. unfold lift at 1 in H.
  destruct (add_at _ _ _) as [r | x]; [ | discriminate]. exists r.
  unfold mbind at 1 in H. unfold modify at 1 in H.
  unfold mbind at 1 in H. unfold need at 1 in H.
  simpl is_boundary_edge_individual in H. rewrite Hb in H.
  unfold mbind at 1 in H. unfold lift at 1 in H.
  destruct (mask_select _ _) as [ir' | x]; [ | discriminate].
  unfold mbind, modify, mret in H. injection H as -> <-. auto.
Qed.

Lemma interior_ratios_rebuilt (e : list (nat * nat)) (ce : list (tri nat))
    (bnd : list bool) (r ir : list float) :
  cells_edges m = Some ce -> edges m = Some e ->
  is_boundary_edge_individual m = Some bnd ->
  add_at (zeros (length e)) (flat_3n (transpose_n3 ce))
         (flat_3n (ce_ratios_per_half_edge m)) = Ret r ->
  mask_select r (map negb bnd) = Ret ir ->
  get_ce_ratios_per_interior_edge m =
    Done ir (set__interior_ce_ratios (Some ir)
               (set__ce_ratios (Some r) (set__ce_ratios (Some (zeros (length e))) m))).
Proof.
  intros Hce He Hb Hr Hi. unfold get_ce_ratios_per_interior_edge.
  unfold mbind at 1. unfold attr at 1. rewrite no_cache.
  unfold mbind at 1. unfold attr at 1. rewrite Hce.
  unfold when, is_none. unfold mbind at 1. unfold mret at 1.
  unfold mbind at 1. unfold need at 1. rewrite He.
  unfold mbind at 1. unfold modify at 1.
  unfold mbind at 1. unfold need at 1. simpl cells_edges. rewrite Hce.
  unfold mbind at 1. unfold attr at 1. simpl ce_ratios_per_half_edge.
  unfold mbind at 1. unfold lift at 1. rewrite Hr.
  unfold mbind at 1. unfold modify at 1.
  unfold mbind at 1. unfold need at 1.
  simpl is_boundary_edge_individual. rewrite Hb.
  unfold mbind at 1. unfold lift at 1. rewrite Hi.
  reflexivity.
Qed.

End InteriorRatios.

Lemma interior_ratios_of_cache (m : MeshTri) (r : list float) :
  _interior_ce_ratios m = Some r -> get_ce_ratios_per_interior_edge m = Done r m.
Proof.
  intros H. unfold get_ce_ratios_per_interior_edge, mbind, attr, mret. now rewrite H.
Qed.

(** *** The state after construction *)

Lemma assert_all_used_in_range (n : nat) (cells : list (tri nat)) :
  assert_all_used n cells = Ret tt -> cells_in_range n cells.
Proof.
  intros H. destruct (cells_in_range_dec n cells) as [Hr | Hr]; [exact Hr | ].
  apply assert_all_used_index_error in Hr. congruence.
Qed.

Lemma length_transpose_3n {A : Type} (n : nat) (t : tri (list A)) :
  shape3 n t -> length (transpose_3n t) = n.
Proof.
  intros (H0 & H1 & H2). unfold transpose_3n.
  rewrite length_map2, length_combine. lia.
Qed.

Lemma take_rows_shape {A : Type} (l : list A) (n : nat) (t : tri (list nat))
    (r : tri (list A)) :
  shape3 n t -> trmap (take l) t = Ret r -> shape3 n r.
Proof.
  intros (H0 & H1 & H2) H. unfold trmap in H.
  apply rbind_Ret in H. destruct H as (a & Ha & H).
  apply rbind_Ret in H. destruct H as (b & Hb & H).
  apply rbind_Ret in H. destruct H as (c & Hc & H).
  injection H as <-. apply take_length in Ha, Hb, Hc.
  unfold shape3; simpl. lia.
Qed.

Lemma gather_half_edges_shape (nc : list point) (n : nat)
    (ih : tri (list nat) * tri (list nat)) (hec : tri (list point)) :
  shape3 n (fst ih) -> shape3 n (snd ih) ->
  gather_half_edges nc ih = Ret hec -> shape3 n hec.
Proof.
  intros H0 H1 H. unfold gather_half_edges in H.
  apply rbind_Ret in H. destruct H as (x1 & E1 & H).
  apply rbind_Ret in H. destruct H as (x0 & E0 & H).
  injection H as <-.
  apply (take_rows_shape _ H1) in E1. apply (take_rows_shape _ H0) in E0.
  destruct E0 as (A0 & A1 & A2), E1 as (B0 & B1 & B2).
  unfold shape3, tmap2, rows_sub; simpl. rewrite !length_map2. lia.
Qed.

Lemma shifted_dots_shape (n : nat) (e : tri (list point)) :
  shape3 n e -> shape3 n (shifted_dots e).
Proof.
  intros (H0 & H1 & H2). unfold shape3, shifted_dots; simpl.
  rewrite !length_map2. lia.
Qed.

Section Construction.

Variable K : tri float -> float * tri float.

Lemma kernel_ratios_shape (n : nat) (d : tri (list float)) :
  shape3 n d -> shape3 n (snd (compute_tri_areas_and_ce_ratios K d)).
Proof.
  intros H. unfold compute_tri_areas_and_ce_ratios. simpl.
  pose proof (transpose_n3_shape (map snd (map K (transpose_3n d)))) as S.
  rewrite !length_map, (length_transpose_3n H) in S. exact S.
Qed.

Lemma local_idx_shape {A : Type} (n : nat) (t : tri (list A)) :
  shape3 n t -> shape3 n (fst (local_idx t)) /\ shape3 n (snd (local_idx t)).
Proof. intros (H0 & H1 & H2). unfold shape3, local_idx; simpl. tauto. Qed.

Lemma local_idx_Forall {A : Type} (P : A -> Prop) (t : tri (list A)) :
  Forall P (flat_3n t) ->
  Forall P (flat_3n (fst (local_idx t))) /\ Forall P (flat_3n (snd (local_idx t))).
Proof.
  rewrite !flat_3n_Forall. unfold local_idx; simpl. tauto.
Qed.

Lemma transpose_n3_Forall (P : nat -> Prop) (cells : list (tri nat)) :
  Forall P (flat_n3 cells) -> Forall P (flat_3n (transpose_n3 cells)).
Proof.
  intros H. rewrite flat_3n_Forall. unfold transpose_n3; simpl.
  rewrite Forall_forall in H.
  repeat split; apply Forall_forall; intros x Hx; apply in_map_iff in Hx;
    destruct Hx as (c & <- & Hc); apply H; apply in_flat_n3;
    exists c; (split; [exact Hc | unfold uses; auto]).
Qed.

Lemma cells_in_range_Forall (n : nat) (cells : list (tri nat)) :
  cells_in_range n cells ->
  Forall (fun c => forall i, uses c i -> i < n) cells.
Proof.
  intros H. apply Forall_forall. intros c Hc i Hu. eapply H; eauto.
Qed.

Lemma fresh_mesh_shaped (nodes : list point) (cells : list (tri nat))
    (hec : tri (list point)) (vol : list float) (ce : tri (list float))
    (mode : option fcc_mode) :
  cells_in_range (length nodes) cells ->
  shape3 (length cells) ce ->
  well_shaped (fresh_mesh nodes cells (local_idx (transpose_n3 cells)) hec
                 (shifted_dots hec) (self_dots hec) vol ce mode).
Proof.
  intros Hr Hs.
  pose proof (local_idx_shape (transpose_n3_shape cells)) as [S0 S1].
  pose proof Hr as Hf. apply cells_in_range_flat in Hf.
  apply transpose_n3_Forall in Hf. apply local_idx_Forall in Hf. destruct Hf as [F0 F1].
  constructor; simpl; auto.
  - now apply cells_in_range_Forall.
  - discriminate.
Qed.

End Construction.

Section Constructor.

Variable K : tri float -> float * tri float.
Variable srt : list nat -> list nat.

Lemma init_fcc_state (mode : fcc_mode) (m0 m : MeshTri) (u : unit) :
  well_shaped m0 -> edges_absent m0 -> _interior_ce_ratios m0 = None ->
  init_fcc K mode m0 = Done u m ->
  constructed_state m /\ fcc_type m = fcc_type m0 /\
  node_coords m = node_coords m0 /\ cells_nodes m = cells_nodes m0.
Proof.
  intros W (A0 & A1 & A2) Hc H. unfold init_fcc in H. peel H.
  assert (exists m1 nf,
            (m1 = m0 \/ (m1 = install_edges m0 /\
                         forallb (fun c => c <? 3) (edge_counts m0) = true)) /\
            (let '(fcc_local_edge, cells_fcc) := np_where_3n nf in
             modify (set_fcc_cells (Some cells_fcc)) ;;;
             modify (set_regular_cells
                       (Some (np_where (map negb
                          (map3 (fun a b c => a || b || c) (t0 nf) (t1 nf) (t2 nf)))))) ;;;
             cn <- attr cells_nodes ;;
             nc <- attr node_coords ;;
             sub <-? take cn cells_fcc ;;
             f <-? fcc_init K sub fcc_local_edge nc ;;
             modify (set_fcc (Some f)) ;;;
             ce' <-? put_cols (ce_ratios_per_half_edge m0) cells_fcc
                       (transpose_n3 (fcc_get_ce_ratios f)) ;;
             modify (set_ce_ratios_per_half_edge ce'))%mesh m1 = Done u m) as (m1 & nf & Hm1 & H').
  { peel H. destruct mode.
    - apply mret_Done in E. destruct E as [-> ->]. exists m0. eexists. split; [now left | exact H].
    - peel_all E. rewrite A0 in E1. unfold when, is_none in E1.
      apply create_edges_spec in E1. destruct E1 as [Hcts ->].
      apply mret_Done in E. destruct E as [-> ->].
      exists (install_edges m0). eexists. split; [right; auto | exact H].
    - peel E. discriminate. }
  clear H. destruct (np_where_3n nf) as [fle cf]. peel_all H'.
  apply modify_Done in H'. subst m.
  assert (W1 : well_shaped m1 /\ (edges_absent m1 \/ edges_current m1) /\
               _interior_ce_ratios m1 = None /\ fcc_type m1 = fcc_type m0 /\
               node_coords m1 = node_coords m0 /\ cells_nodes m1 = cells_nodes m0 /\
               ce_ratios_per_half_edge m1 = ce_ratios_per_half_edge m0).
  { destruct Hm1 as [-> | [-> Hcts]].
    - split; [exact W | ]. split; [left; red; auto | ]. auto 10.
    - split; [now apply install_edges_shaped | ].
      split; [right; now apply install_edges_current | ]. auto 10. }
  destruct W1 as (W1 & Ed & C1 & F1 & N1 & L1 & R1).
  split; [ | simpl; auto].
  constructor; [ | | exact C1].
  - destruct W1 as [Wc W0 W1' Wr0 Wr1 Wr Wm]. constructor; simpl; auto.
    rewrite R1 in Wr. eapply put_cols_shape; [exact Wr | eassumption].
  - destruct Ed as [(B0 & B1 & B2) | (B0 & B1 & B2 & B3 & B4)].
    + left. red. simpl. auto.
    + right. red. simpl. auto 10.
Qed.

(** The constructor leaves the mesh in the constructed state. *)
Lemma init_constructed (nodes : list point) (cells : list (tri nat))
    (mode : option fcc_mode) (sort_cells : bool) (m : MeshTri) :
  init K srt nodes cells mode sort_cells = Ret m ->
  constructed_state m /\ fcc_type m = mode /\ node_coords m = nodes /\
  cells_nodes m = prepare_cells srt sort_cells cells.
Proof.
  unfold init. intros H.
  apply rbind_Ret in H. destruct H as ([] & Hu & H).
  apply rbind_Ret in H. destruct H as (hec & Hh & H).
  destruct (compute_tri_areas_and_ce_ratios K (shifted_dots hec)) as [vol ce] eqn:Ek.
  apply assert_all_used_in_range in Hu.
  set (cs := prepare_cells srt sort_cells cells) in *.
  pose proof (local_idx_shape (transpose_n3_shape cs)) as [S0 S1].
  pose proof (gather_half_edges_shape _ _ S0 S1 Hh) as Sh.
  pose proof (kernel_ratios_shape K (shifted_dots_shape Sh)) as Sr.
  rewrite Ek in Sr. simpl in Sr.
  pose proof (@fresh_mesh_shaped nodes cs hec vol ce mode Hu Sr) as W.
  destruct mode as [mode | ].
  - destruct (init_fcc K mode _) as [u m' | e m'] eqn:Ei; simpl in H; [ | discriminate].
    injection H as ->.
    apply init_fcc_state in Ei; [exact Ei | exact W | red; simpl; auto | reflexivity].
  - injection H as <-. split; [ | simpl; auto].
    constructor; [exact W | left; red; simpl; auto | reflexivity].
Qed.

End Constructor.

(** *** The checks of [flip_until_delaunay] before its loop *)

Lemma flip_precheck_unfold (m m1 : MeshTri) (mask : tri (list bool)) :
  is_full (fcc_type m) = false ->
  when (is_none (is_boundary_edge m)) create_edges m = Done tt m1 ->
  well_shaped m1 -> edges m1 <> None -> is_boundary_edge m1 = Some mask ->
  ce_ratios_per_half_edge m1 = ce_ratios_per_half_edge m ->
  flip_precheck m =
    if np_all (map gtb0 (flat_3n (ce_ratios_per_half_edge m))) then Done None m
    else
      let ratios := ce_ratios_per_half_edge m in
      let keep := tmap (map negb) mask in
      let interior := mask_aux (t0 ratios) (t0 keep) ++ mask_aux (t1 ratios) (t1 keep)
                      ++ mask_aux (t2 ratios) (t2 keep) in
      if np_all (map gtb0 interior) then Done None (install_boundary m1 mask)
      else
        match get_ce_ratios_per_interior_edge (install_boundary m1 mask) with
        | Done r m3 => Done (Some (map ltb0 r)) m3
        | Fail e m3 => Fail e m3
        end.
Proof.
  intros Hf Hc W He Hm Hr. unfold flip_precheck.
  unfold mbind at 1. unfold attr at 1.
  unfold mbind at 1. unfold lift at 1. rewrite Hf. simpl py_assert. cbv iota.
  unfold mbind at 1. unfold get_ce_ratios at 1. unfold attr at 1.
  destruct (np_all (map gtb0 (flat_3n (ce_ratios_per_half_edge m)))); [reflexivity | ].
  unfold mbind at 1. unfold attr at 1.
  unfold mbind at 1. rewrite Hc.
  unfold mbind at 1. rewrite (mark_boundary_installs W He Hm).
  unfold mbind at 1. unfold need at 1.
  replace (is_boundary_edge (install_boundary m1 mask)) with (Some mask)
    by (symmetry; exact Hm).
  pose proof (ws_mask W Hm) as Sm. pose proof (ws_ratios W) as Sr. rewrite Hr in Sr.
  assert (Sk : shape3 (length (cells_nodes m1)) (tmap (map negb) mask)).
  { apply shape3_tmap; [ | exact Sm]. intros l. apply length_map. }
  unfold mbind at 1. unfold lift at 1.
  rewrite (mask_select_3n_Ret Sr Sk). cbv zeta.
  destruct (np_all _); [reflexivity | ].
  unfold mbind at 1. destruct (get_ce_ratios_per_interior_edge _); reflexivity.
Qed.

Lemma no_negative_of_positive (r : list float) :
  Forall (fun x => gtb0 x = true) r -> np_any (map ltb0 r) = false.
Proof.
  induction 1 as [ | x r Hx Hr IH]; [reflexivity | ].
  unfold np_any in *. simpl. rewrite IH, (gtb0_not_ltb0 Hx). reflexivity.
Qed.

(** The edges that the checks of [flip_until_delaunay] work with: the
    ones the object has, or the ones [create_edges] makes. *)
Lemma edges_ready (m : MeshTri) :
  constructed_state m ->
  (cells_edges m = None -> create_edges m = Done tt (install_edges m)) ->
  exists m1,
    when (is_none (is_boundary_edge m)) create_edges m = Done tt m1 /\
    well_shaped m1 /\ edges_current m1 /\ _interior_ce_ratios m1 = None /\
    (m1 = m \/ (m1 = install_edges m /\ edges_absent m)).
Proof.
  intros [W [Ea | Ec] Hc] Hce.
  - pose proof Ea as (A0 & A1 & A2). exists (install_edges m).
    rewrite A2. unfold when, is_none.
    pose proof (Hce A1) as Hd. pose proof Hd as Hs. apply create_edges_spec in Hs.
    destruct Hs as [Hcts _].
    split; [exact Hd | ]. split; [now apply install_edges_shaped | ].
    split; [now apply install_edges_current | ]. split; [exact Hc | ]. right. auto.
  - pose proof Ec as (B0 & B1 & B2 & B3 & B4). exists m.
    rewrite B4. unfold when, is_none, mret. auto 10.
Qed.

(* ------------------------------------------------------------------ *)
(** ** Meshes without a negative interior edge are not flipped *)

Section NoFlip.

Variable K : tri float -> float * tri float.
Variable srt : list nat -> list nat.

Lemma only_lazy_refl (m : MeshTri) : only_lazy_structures_built m m.
Proof. red. auto 10. Qed.

Lemma only_lazy_install_edges (m : MeshTri) :
  edges_absent m -> only_lazy_structures_built m (install_edges m).
Proof.
  intros (A0 & A1 & A2). red. simpl. repeat split; auto.
  - intros e He. congruence.
  - intros ce He. congruence.
Qed.

(** C10, with the mode of the flat cell correction made explicit: on a
    constructed mesh that does not use the full flat cell correction and
    whose interior edges all have a positive aggregated covolume-edge
    ratio, [flip_until_delaunay] returns [False] whatever the boundary
    half-edges carry, and the cell table, the node coordinates, the
    per-half-edge ratios and an existing edge table are what they were. *)
Theorem no_flip_when_interior_positive (m m_r : MeshTri) (r : list float) :
  constructed_state m ->
  is_full (fcc_type m) = false ->
  get_ce_ratios_per_interior_edge m = Done r m_r ->
  Forall (fun x => gtb0 x = true) r ->
  exists m',
    (forall fuel, flip_until_delaunay K srt fuel m = Some (Done false m')) /\
    only_lazy_structures_built m m'.
Proof.
  intros C Hf H Hpos. pose proof C as [W Ed Hc].
  destruct (@edges_ready m C) as (m1 & Hw & W1 & Ec & Hc1 & Hm1).
  { intros Hn. now destruct (interior_ratios_absent m Hc Hn H) as (_ & Hd & _). }
  assert (H1 : get_ce_ratios_per_interior_edge m1 = Done r m_r).
  { destruct Hm1 as [-> | [-> (A0 & A1 & A2)]]; [exact H | ].
    now destruct (interior_ratios_absent m Hc A1 H) as (_ & _ & Hg). }
  assert (F1 : only_lazy_structures_built m m1).
  { destruct Hm1 as [-> | [-> Ha]];
      [apply only_lazy_refl | now apply only_lazy_install_edges]. }
  pose proof Ec as (B0 & B1 & B2 & B3 & B4).
  assert (He : edges m1 <> None) by congruence.
  assert (Hr : ce_ratios_per_half_edge m1 = ce_ratios_per_half_edge m) by apply F1.
  pose proof (flip_precheck_unfold m Hf Hw W1 He B4 Hr) as P.
  unfold flip_until_delaunay.
  destruct (np_all (map gtb0 (flat_3n (ce_ratios_per_half_edge m)))).
  { exists m. rewrite P. split; [reflexivity | apply only_lazy_refl]. }
  cbv zeta in P.
  match type of P with context [if ?c then _ else _] => destruct c end.
  { eexists. rewrite P. split; [reflexivity | ].
    destruct F1 as (X0 & X1 & X2 & X3 & X4 & X5 & X6). red. simpl. auto 10. }
  destruct (interior_ratios_built m1 Hc1 B2 B1 B3 H1) as (r0 & Ha & Hs & _).
  match type of P with context [get_ce_ratios_per_interior_edge ?m2] =>
    assert (H2 : _interior_ce_ratios m2 = None) by exact Hc1;
    pose proof (@interior_ratios_rebuilt m2 H2 _ _ _ _ _ B2 B1 B3 Ha Hs) as G
  end.
  rewrite G in P. eexists. rewrite P. split.
  - intros fuel. rewrite flip_loop_stop; [reflexivity | ].
    now apply no_negative_of_positive.
  - destruct F1 as (X0 & X1 & X2 & X3 & X4 & X5 & X6). red. simpl. auto 10.
Qed.

End NoFlip.

Lemma wedge_mesh_constructed :
  init kernel_area_ce np_argsort wedge_nodes wedge_cells None false = Ret wedge_mesh.
Proof. vm_compute. reflexivity. Qed.

(** The obtuse triangle of [wedge_mesh] has a negative ratio on its
    boundary half-edge; the one interior edge has the ratio 1.25. *)
Lemma no_flip_when_interior_positive_witness :
  nth_error (t0 (ce_ratios_per_half_edge wedge_mesh)) 0 = Some (-0.375)%float /\
  exists m',
    (forall fuel, flip_until_delaunay kernel_area_ce np_argsort fuel wedge_mesh = Some (Done false m')) /\
    only_lazy_structures_built wedge_mesh m'.
Proof.
  split; [vm_compute; reflexivity | ].
  eapply (@no_flip_when_interior_positive kernel_area_ce np_argsort wedge_mesh _ [1.25%float]).
  - exact (proj1 (init_constructed _ _ _ _ _ _ wedge_mesh_constructed)).
  - reflexivity.
  - vm_compute. reflexivity.
  - repeat constructor.
Defined.

(** C10 as stated: with the full flat cell correction the interior edge
    of two acute triangles has a positive ratio, and [flip_until_delaunay]
    raises [AssertionError] where it should return [False]. *)
Lemma full_correction_refuses_flip_query :
  init kernel_area_ce np_argsort rhombus_nodes rhombus_cells (Some Full) false = Ret rhombus_full_mesh /\
  (exists m', get_ce_ratios_per_interior_edge rhombus_full_mesh = Done [0.5%float] m') /\
  gtb0 0.5 = true /\
  flip_until_delaunay kernel_area_ce np_argsort 1 rhombus_full_mesh
    = Some (Fail AssertionError rhombus_full_mesh).
Proof.
  split; [vm_compute; reflexivity | ].
  split; [eexists; vm_compute; reflexivity | ].
  split; vm_compute; reflexivity.
Qed.

(* ------------------------------------------------------------------ *)
(** ** Sorted deduplication and the edge ids of [unique_rows] *)

Section SortUniq.

Variable A : Type.
Variable cmp : A -> A -> comparison.
Variable eqb : A -> A -> bool.

Hypothesis cmp_eq : forall x y, cmp x y = Eq <-> x = y.
Hypothesis cmp_gt : forall x y, cmp x y = Gt -> cmp y x = Lt.
Hypothesis cmp_trans : forall x y z, cmp x y = Lt -> cmp y z = Lt -> cmp x z = Lt.
Hypothesis eqb_eq : forall x y, eqb x y = true <-> x = y.

Lemma insert_uniq_mem (x y : A) (l : list A) :
  In y (insert_uniq cmp x l) <-> y = x \/ In y l.
Proof.
  induction l as [ | z l IH]; simpl.
  - intuition.
  - destruct (cmp x z) eqn:E; simpl.
    + apply cmp_eq in E. subst z. intuition.
    + intuition.
    + rewrite IH. intuition.
Qed.

Lemma sort_uniq_mem (y : A) (l : list A) :
  In y (sort_uniq cmp l) <-> In y l.
Proof.
  unfold sort_uniq. induction l as [ | x l IH]; simpl; [reflexivity | ].
  rewrite insert_uniq_mem, IH. intuition.
Qed.

Lemma insert_uniq_sorted (x : A) (l : list A) :
  StronglySorted (fun a b => cmp a b = Lt) l ->
  StronglySorted (fun a b => cmp a b = Lt) (insert_uniq cmp x l).
Proof.
  induction 1 as [ | z l Hs IH Hz]; simpl.
  - constructor; constructor.
  - destruct (cmp x z) eqn:E.
    + now constructor.
    + constructor; [now constructor | ].
      constructor; [exact E | ].
      rewrite Forall_forall in *. intros w Hw. eapply cmp_trans; eauto.
    + constructor; [exact IH | ].
      apply Forall_forall. intros w Hw. apply insert_uniq_mem in Hw.
      destruct Hw as [-> | Hw]; [now apply cmp_gt | ].
      rewrite Forall_forall in Hz. auto.
Qed.

Lemma sort_uniq_sorted (l : list A) :
  StronglySorted (fun a b => cmp a b = Lt) (sort_uniq cmp l).
Proof.
  unfold sort_uniq. induction l as [ | x l IH]; simpl; [constructor | ].
  now apply insert_uniq_sorted.
Qed.

Lemma sort_uniq_NoDup (l : list A) : NoDup (sort_uniq cmp l).
Proof.
  pose proof (sort_uniq_sorted l) as H.
  induction H as [ | z u Hs IH Hz]; constructor; [ | exact IH].
  intros Hin. rewrite Forall_forall in Hz. specialize (Hz z Hin).
  assert (E : cmp z z = Eq) by now apply cmp_eq. congruence.
Qed.

Lemma index_of_nth (x : A) (u : list A) :
  In x u -> nth_error u (index_of eqb x u) = Some x.
Proof.
  induction u as [ | y u IH]; simpl; [tauto | ].
  intros Hin. destruct (eqb x y) eqn:E.
  - apply eqb_eq in E. now subst.
  - simpl. apply IH. destruct Hin as [-> | Hin]; [ | exact Hin].
    assert (E' : eqb x x = true) by now apply eqb_eq. congruence.
Qed.

Lemma index_of_lt (x : A) (u : list A) :
  In x u -> index_of eqb x u < length u.
Proof.
  intros H. apply index_of_nth in H. apply nth_error_Some. congruence.
Qed.

Lemma index_of_unique (x : A) (u : list A) (g : nat) :
  NoDup u -> nth_error u g = Some x -> index_of eqb x u = g.
Proof.
  revert g. induction u as [ | y u IH]; intros g Hn Hg.
  - destruct g; discriminate.
  - inversion Hn as [ | ? ? Hy Hu]; subst. simpl.
    destruct g as [ | g]; simpl in Hg.
    + injection Hg as ->.
      assert (E : eqb x x = true) by now apply eqb_eq. now rewrite E.
    + destruct (eqb x y) eqn:E.
      * apply eqb_eq in E. subst y. exfalso. apply Hy.
        eapply nth_error_In. exact Hg.
      * f_equal. now apply IH.
Qed.

(** The number of rows equal to the [g]-th distinct row is the number of
    entries [g] among the ids of the rows. *)
Lemma count_by_index (u l : list A) (g : nat) (x : A) :
  NoDup u -> nth_error u g = Some x -> (forall y, In y l -> In y u) ->
  count_eq eqb x l = count_eq Nat.eqb g (map (fun y => index_of eqb y u) l).
Proof.
  intros Hn Hg. unfold count_eq.
  assert (Hu : forall y, In y u -> eqb x y = (g =? index_of eqb y u)).
  { intros y Hy. destruct (eqb x y) eqn:E.
    - apply eqb_eq in E. subst y. symmetry. apply Nat.eqb_eq. symmetry.
      now apply index_of_unique.
    - symmetry. apply Nat.eqb_neq. intros ->.
      apply index_of_nth in Hy. rewrite Hy in Hg. injection Hg as ->.
      assert (E' : eqb x x = true) by now apply eqb_eq. congruence. }
  induction l as [ | y l IH]; intros Hsub; simpl; [reflexivity | ].
  rewrite <- (Hu y) by (apply Hsub; now left).
  destruct (eqb x y); simpl; rewrite IH; auto; intros z Hz; apply Hsub; now right.
Qed.

Lemma count_eq_pos (x : A) (l : list A) : In x l -> 1 <= count_eq eqb x l.
Proof.
  unfold count_eq. induction l as [ | y l IH]; simpl; [tauto | ].
  intros [-> | Hin].
  - assert (E : eqb x x = true) by now apply eqb_eq. rewrite E. simpl. lia.
  - destruct (eqb x y); simpl; [lia | auto].
Qed.

End SortUniq.

Lemma pair_compare_eq (x y : nat * nat) : pair_compare x y = Eq <-> x = y.
Proof.
  destruct x as [a b], y as [c d]. unfold pair_compare. simpl.
  destruct (Nat.compare_spec a c) as [-> | H | H].
  - rewrite Nat.compare_eq_iff. split; [now intros -> | now intros [= ->]].
  - split; [discriminate | intros [= -> ->]; lia].
  - split; [discriminate | intros [= -> ->]; lia].
Qed.

Lemma pair_compare_lt (x y : nat * nat) :
  pair_compare x y = Lt <-> fst x < fst y \/ (fst x = fst y /\ snd x < snd y).
Proof.
  destruct x as [a b], y as [c d]. unfold pair_compare. simpl.
  destruct (Nat.compare_spec a c) as [-> | H | H].
  - rewrite Nat.compare_lt_iff. intuition lia.
  - intuition lia.
  - split; [discriminate | lia].
Qed.

Lemma pair_compare_gt (x y : nat * nat) : pair_compare x y = Gt -> pair_compare y x = Lt.
Proof.
  intros H. apply pair_compare_lt.
  destruct x as [a b], y as [c d]. unfold pair_compare in H. simpl in *.
  destruct (Nat.compare_spec a c) as [-> | H' | H']; try discriminate; [ | lia].
  apply Nat.compare_gt_iff in H. lia.
Qed.

Lemma pair_compare_trans (x y z : nat * nat) :
  pair_compare x y = Lt -> pair_compare y z = Lt -> pair_compare x z = Lt.
Proof. rewrite !pair_compare_lt. lia. Qed.

Lemma pair_eqb_eq (x y : nat * nat) : pair_eqb x y = true <-> x = y.
Proof.
  destruct x as [a b], y as [c d]. unfold pair_eqb. simpl.
  rewrite andb_true_iff, !Nat.eqb_eq. split; [now intros [-> ->] | now intros [= -> ->]].
Qed.

Lemma rows_mem (x : nat * nat) (a : list (nat * nat)) :
  In x (sort_uniq pair_compare a) <-> In x a.
Proof. apply sort_uniq_mem. exact pair_compare_eq. Qed.

Lemma rows_NoDup (a : list (nat * nat)) : NoDup (sort_uniq pair_compare a).
Proof.
  apply sort_uniq_NoDup;
    [exact pair_compare_eq | exact pair_compare_gt | exact pair_compare_trans].
Qed.

(** *** The contract of [unique_rows] *)

Section UniqueRows.

Variable a : list (nat * nat).

Let u := fst (fst (unique_rows a)).
Let inv := snd (fst (unique_rows a)).
Let cts := snd (unique_rows a).

Lemma unique_rows_lengths : length inv = length a /\ length cts = length u.
Proof. unfold inv, cts, u, unique_rows. simpl. now rewrite !length_map. Qed.

Lemma unique_rows_ids_range : Forall (fun g => g < length cts) inv.
Proof.
  destruct unique_rows_lengths as [_ ->].
  unfold inv, u, unique_rows. simpl. apply Forall_map, Forall_forall.
  intros x Hx. apply index_of_lt; [exact pair_eqb_eq | ].
  now apply rows_mem.
Qed.

Lemma unique_rows_counts (g : nat) :
  g < length cts -> nth g cts 0 = count_eq Nat.eqb g inv.
Proof.
  intros Hg. destruct unique_rows_lengths as [_ Hl]. rewrite Hl in Hg.
  destruct (nth_error u g) as [x | ] eqn:Ex; [ | apply nth_error_None in Ex; lia].
  unfold cts, inv, unique_rows. simpl.
  rewrite (nth_error_nth _ _ 0 (map_nth_error _ _ _ Ex)).
  apply count_by_index; [exact pair_eqb_eq | apply rows_NoDup | exact Ex | ].
  intros y Hy. now apply rows_mem.
Qed.

Lemma unique_rows_counts_pos : Forall (fun c => 1 <= c) cts.
Proof.
  unfold cts, unique_rows. simpl. apply Forall_map, Forall_forall.
  intros x Hx. apply count_eq_pos; [exact pair_eqb_eq | ].
  apply (proj1 (rows_mem _ _)). exact Hx.
Qed.

End UniqueRows.

(** *** Accumulation with [add.at] *)

Lemma add_at_aux_spec (iv : list (nat * float)) (target r : list float) :
  add_at_aux target iv = Ret r ->
  length r = length target /\
  forall g x0, nth_error target g = Some x0 ->
    nth_error r g = Some (fold_left PrimFloat.add (contributions g iv) x0).
Proof.
  revert target. induction iv as [ | [i v] iv IH]; simpl; intros target H.
  - injection H as <-. auto.
  - apply rbind_Ret in H. destruct H as (x & Hx & H).
    apply getitem_Ret in Hx.
    assert (Hi : i < length target) by (apply nth_error_Some; congruence).
    apply IH in H. destruct H as [Hl Hg]. rewrite upd_length in Hl.
    split; [exact Hl | ]. intros g x0 H0.
    unfold contributions. simpl.
    destruct (Nat.eqb_spec i g) as [-> | Hne].
    + simpl. rewrite H0 in Hx. injection Hx as ->.
      apply Hg. rewrite nth_error_upd by exact Hi. now rewrite Nat.eqb_refl.
    + apply Hg. rewrite nth_error_upd by exact Hi.
      destruct (Nat.eqb_spec g i); [congruence | exact H0].
Qed.

Lemma nth_error_zeros (n g : nat) : g < n -> nth_error (zeros n) g = Some 0%float.
Proof. intros H. unfold zeros. now apply nth_error_repeat. Qed.

Lemma add_at_zeros (n : nat) (idx : list nat) (vals r : list float) :
  add_at (zeros n) idx vals = Ret r ->
  length idx = length vals /\ length r = n /\
  forall g, g < n -> nth_error r g = Some (fsum (contributions g (combine idx vals))).
Proof.
  unfold add_at. destruct (Nat.eqb_spec (length idx) (length vals)) as [E | E];
    [ | discriminate].
  intros H. apply add_at_aux_spec in H. destruct H as [Hl Hg].
  unfold zeros in Hl. rewrite repeat_length in Hl.
  repeat split; auto. intros g Hlt. unfold fsum. apply Hg. now apply nth_error_zeros.
Qed.

(** *** The two half-edges of an interior edge *)

Lemma count_eq_absent (g : nat) (l : list nat) :
  count_eq Nat.eqb g l = 0 <-> ~ In g l.
Proof.
  unfold count_eq. induction l as [ | x l IH]; simpl; [tauto | ].
  destruct (Nat.eqb_spec g x) as [-> | Hne]; simpl.
  - split; [discriminate | tauto].
  - rewrite IH. intuition.
Qed.

Lemma count_eq_one (g : nat) (l : list nat) :
  count_eq Nat.eqb g l = 1 ->
  exists l1 l2, l = l1 ++ g :: l2 /\ ~ In g l1 /\ ~ In g l2.
Proof.
  unfold count_eq. induction l as [ | x l IH]; simpl; [discriminate | ].
  destruct (Nat.eqb_spec g x) as [-> | Hne]; simpl; intros H.
  - exists [], l. repeat split; auto.
    apply count_eq_absent. unfold count_eq. lia.
  - destruct (IH H) as (l1 & l2 & -> & H1 & H2).
    exists (x :: l1), l2. repeat split; auto. simpl. intuition.
Qed.

Lemma count_eq_two (g : nat) (l : list nat) :
  count_eq Nat.eqb g l = 2 ->
  exists l1 l2 l3,
    l = l1 ++ g :: l2 ++ g :: l3 /\ ~ In g l1 /\ ~ In g l2 /\ ~ In g l3.
Proof.
  induction l as [ | x l IH]; [discriminate | ].
  unfold count_eq in *. simpl.
  destruct (Nat.eqb_spec g x) as [-> | Hne]; simpl; intros H.
  - assert (H1 : count_eq Nat.eqb x l = 1) by (unfold count_eq; lia).
    apply count_eq_one in H1. destruct H1 as (l2 & l3 & -> & H2 & H3).
    exists [], l2, l3. repeat split; auto.
  - destruct (IH H) as (l1 & l2 & l3 & -> & H1 & H2 & H3).
    exists (x :: l1), l2, l3. repeat split; auto. simpl. intuition.
Qed.

Lemma contributions_absent (g : nat) (l : list nat) (v : list float) :
  ~ In g l -> contributions g (combine l v) = [].
Proof.
  unfold contributions. revert v. induction l as [ | x l IH]; intros v Hn; [reflexivity | ].
  destruct v as [ | y v]; [reflexivity | ]. simpl.
  destruct (Nat.eqb_spec x g) as [-> | Hne]; [exfalso; apply Hn; now left | ].
  apply IH. intros Hin. apply Hn. now right.
Qed.

Lemma contributions_app (g : nat) (l1 l2 : list nat) (v : list float) :
  contributions g (combine (l1 ++ l2) v) =
  contributions g (combine l1 (firstn (length l1) v))
    ++ contributions g (combine l2 (skipn (length l1) v)).
Proof.
  unfold contributions. revert v. induction l1 as [ | x l1 IH]; intros v; simpl.
  - reflexivity.
  - destruct v as [ | y v]; simpl.
    + now destruct l2.
    + destruct (x =? g); simpl; now rewrite IH.
Qed.

Lemma nth_error_skipn {A : Type} (n i : nat) (l : list A) :
  nth_error (skipn n l) i = nth_error l (n + i).
Proof.
  revert l. induction n as [ | n IH]; intros l; [reflexivity | ].
  destruct l as [ | x l]; simpl; [now destruct i | apply IH].
Qed.

(** An id that occurs exactly twice among the ids of the half-edges
    collects exactly the two values at its two positions. *)
Lemma two_contributions (g : nat) (ids : list nat) (vals : list float) :
  length ids = length vals -> count_eq Nat.eqb g ids = 2 ->
  exists p q a b,
    p < q /\ nth_error ids p = Some g /\ nth_error ids q = Some g /\
    (forall i, nth_error ids i = Some g -> i = p \/ i = q) /\
    nth_error vals p = Some a /\ nth_error vals q = Some b /\
    contributions g (combine ids vals) = [a; b].
Proof.
  intros Hl Hc. apply count_eq_two in Hc.
  destruct Hc as (l1 & l2 & l3 & -> & H1 & H2 & H3).
  rewrite !length_app in Hl. simpl in Hl. rewrite length_app in Hl. simpl in Hl.
  set (p := length l1). set (q := length l1 + S (length l2)).
  destruct (nth_error vals p) as [a | ] eqn:Ea;
    [ | apply nth_error_None in Ea; unfold p in Ea; lia].
  destruct (nth_error vals q) as [b | ] eqn:Eb;
    [ | apply nth_error_None in Eb; unfold q in Eb; lia].
  exists p, q, a, b.
  split; [unfold p, q; lia | ].
  split; [unfold p; rewrite nth_error_app2, Nat.sub_diag by lia; reflexivity | ].
  split.
  { unfold q. rewrite nth_error_app2 by lia.
    replace (length l1 + S (length l2) - length l1) with (S (length l2)) by lia.
    simpl. rewrite nth_error_app2, Nat.sub_diag by lia. reflexivity. }
  split.
  { intros i Hi. destruct (Nat.lt_trichotomy i p) as [Hlt | [-> | Hgt]]; [ | now left | ].
    - exfalso. apply H1. rewrite nth_error_app1 in Hi by exact Hlt.
      eapply nth_error_In; eauto.
    - rewrite nth_error_app2 in Hi by (unfold p in Hgt; lia).
      destruct (i - length l1) as [ | j] eqn:Ej; [unfold p in Hgt; lia | ].
      simpl in Hi.
      destruct (Nat.lt_trichotomy j (length l2)) as [Hlt | [-> | Hgt']].
      + exfalso. apply H2. rewrite nth_error_app1 in Hi by exact Hlt.
        eapply nth_error_In; eauto.
      + right. unfold q. lia.
      + exfalso. rewrite nth_error_app2 in Hi by lia.
        destruct (j - length l2) as [ | k] eqn:Ek; [lia | ]. simpl in Hi.
        apply H3. eapply nth_error_In; eauto. }
  split; [exact Ea | ]. split; [exact Eb | ].
  rewrite contributions_app, (@contributions_absent g l1 _ H1), app_nil_l.
  change (g :: l2 ++ g :: l3) with ([g] ++ l2 ++ g :: l3).
  rewrite contributions_app. simpl length.
  rewrite contributions_app, (@contributions_absent g l2 _ H2), app_nil_l.
  change (g :: l3) with ([g] ++ l3).
  rewrite contributions_app, (@contributions_absent g l3 _ H3), app_nil_r. simpl length.
  assert (Xa : firstn 1 (skipn (length l1) vals) = [a]).
  { pose proof (nth_error_skipn (length l1) 0 vals) as E. rewrite Nat.add_0_r in E.
    unfold p in Ea. rewrite Ea in E.
    destruct (skipn (length l1) vals) as [ | y t]; [discriminate | ].
    simpl in E. injection E as ->. reflexivity. }
  assert (Xb : firstn 1 (skipn (length l2) (skipn 1 (skipn (length l1) vals))) = [b]).
  { rewrite !skipn_skipn.
    pose proof (nth_error_skipn (length l2 + 1 + length l1) 0 vals) as E.
    rewrite Nat.add_0_r in E.
    unfold q in Eb.
    replace (length l1 + S (length l2)) with (length l2 + 1 + length l1) in Eb by lia.
    rewrite Eb in E.
    destruct (skipn (length l2 + 1 + length l1) vals) as [ | y t]; [discriminate | ].
    simpl in E. injection E as ->. reflexivity. }
  rewrite Xa, Xb. unfold contributions. simpl. rewrite !Nat.eqb_refl. reflexivity.
Qed.

(** *** Counting the interior edges with a negative sum *)

Lemma count_interior_negative (cts : list nat) (sums : list float) :
  length sums = length cts ->
  Forall (fun c => 1 <= c) cts ->
  forallb (fun c => c <? 3) cts = true ->
  count_true (map ltb0 (mask_aux sums (map negb (map (fun c => c =? 1) cts)))) =
  count_true (map2 (fun c s => (c =? 2) && ltb0 s) cts sums).
Proof.
  revert sums. induction cts as [ | c cts IH]; intros [ | s sums] Hl Hp Hb;
    try discriminate; [reflexivity | ].
  inversion Hp as [ | ? ? Hc Hp']; subst. simpl in Hb.
  apply andb_true_iff in Hb. destruct Hb as [Hc3 Hb]. apply Nat.ltb_lt in Hc3.
  injection Hl as Hl. specialize (IH sums Hl Hp' Hb).
  unfold count_true, map2 in *. simpl.
  assert (E : c = 1 \/ c = 2) by lia. destruct E as [-> | ->]; simpl.
  - exact IH.
  - destruct (ltb0 s); simpl; now rewrite IH.
Qed.

Lemma edge_ids_flat (m : MeshTri) :
  well_shaped m ->
  flat_3n (transpose_n3 (transpose_3n
     (reshape_3n (length (t0 (fst (idx_hierarchy m)))) (edge_ids m)))) = edge_ids m.
Proof.
  intros W. pose proof (ws_ih0 W) as S0. pose proof S0 as (L0 & _).
  assert (Hl : length (edge_ids m) = 3 * length (t0 (fst (idx_hierarchy m)))).
  { rewrite edge_ids_length, L0.
    apply half_edge_rows_length; [exact S0 | exact (ws_ih1 W)]. }
  rewrite (transpose_n3_3n (@reshape_3n_shape _ _ _ Hl)).
  now apply flat_reshape_3n.
Qed.

Lemma fsum_pair_swap (a b : float) : fsum [a; b] = fsum [b; a].
Proof. unfold fsum. simpl. apply fadd_zero_swap. Qed.

(** The per-edge sums of a mesh whose edges are current. *)
Lemma edge_sums_current (m m' : MeshTri) (ir : list float) :
  well_shaped m -> edges_current m -> _interior_ce_ratios m = None ->
  get_ce_ratios_per_interior_edge m = Done ir m' ->
  exists sums,
    _ce_ratios m' = Some sums /\ length sums = length (edge_counts m) /\
    _interior_ce_ratios m' = Some ir /\
    ir = mask_aux sums (map negb (map (fun c => c =? 1) (edge_counts m))) /\
    length (edge_ids m) = length (flat_3n (ce_ratios_per_half_edge m)) /\
    forall g, g < length (edge_counts m) ->
      nth_error sums g =
        Some (fsum (contributions g
                      (combine (edge_ids m) (flat_3n (ce_ratios_per_half_edge m))))).
Proof.
  intros W (B0 & B1 & B2 & B3 & B4) Hc H.
  destruct (interior_ratios_built m Hc B2 B1 B3 H) as (r0 & Ha & Hs & ->).
  rewrite (edge_ids_flat W) in Ha.
  apply add_at_zeros in Ha. destruct Ha as (Hl & Hr & Hg).
  pose proof (unique_rows_lengths (half_edge_rows (idx_hierarchy m))) as [_ Hu].
  cbv zeta in Hu. fold (edge_counts m) in Hu.
  apply mask_select_inv in Hs. destruct Hs as [_ Hs].
  exists r0. simpl. repeat split; auto.
  - congruence.
  - intros g Hlt. apply Hg. rewrite <- Hu. exact Hlt.
Qed.

(** C4: on a constructed mesh, [num_delaunay_violations] is the number
    of edges with exactly two half-edges whose aggregated covolume-edge
    ratio is negative.  The aggregated ratios are the sums that the call
    leaves in [_ce_ratios]; for an edge [g] with two half-edges, at the
    positions [p] and [q] of the flattened table, it is the sum of the two
    half-edge ratios, in either order. *)
Theorem violations_are_negative_interior_edges (m m' : MeshTri) (k : nat) :
  constructed_state m ->
  num_delaunay_violations m = Done k m' ->
  exists sums,
    _ce_ratios m' = Some sums /\ length sums = length (edge_counts m) /\
    k = count_true (map2 (fun c s => (c =? 2) && ltb0 s) (edge_counts m) sums) /\
    forall g, nth_error (edge_counts m) g = Some 2 ->
      exists p q a b,
        p < q /\ nth_error (edge_ids m) p = Some g /\ nth_error (edge_ids m) q = Some g /\
        (forall i, nth_error (edge_ids m) i = Some g -> i = p \/ i = q) /\
        nth_error (flat_3n (ce_ratios_per_half_edge m)) p = Some a /\
        nth_error (flat_3n (ce_ratios_per_half_edge m)) q = Some b /\
        nth_error sums g = Some (fsum [a; b]) /\ fsum [a; b] = fsum [b; a].
Proof.
  intros C H. pose proof C as [W Ed Hc].
  unfold num_delaunay_violations in H. peel H.
  apply mret_Done in H. destruct H as [-> ->].
  destruct (@edges_ready m C) as (m1 & _ & W1 & Ec & Hc1 & Hm1).
  { intros Hn. now destruct (interior_ratios_absent m Hc Hn E) as (_ & Hd & _). }
  assert (H1 : get_ce_ratios_per_interior_edge m1 = Done a m0).
  { destruct Hm1 as [-> | [-> (A0 & A1 & A2)]]; [exact E | ].
    now destruct (interior_ratios_absent m Hc A1 E) as (_ & _ & Hg). }
  assert (Hsame : edge_counts m1 = edge_counts m /\ edge_ids m1 = edge_ids m /\
                  ce_ratios_per_half_edge m1 = ce_ratios_per_half_edge m).
  { destruct Hm1 as [-> | [-> _]]; auto. }
  destruct Hsame as (S1 & S2 & S3).
  destruct (edge_sums_current W1 Ec Hc1 H1) as (sums & Hs & Hl & _ & Hir & Hlen & Hg).
  rewrite S1 in *. rewrite S2, S3 in *.
  exists sums. split; [exact Hs | ]. split; [exact Hl | ]. split.
  - rewrite Hir. apply count_interior_negative; [exact Hl | | ].
    + apply (unique_rows_counts_pos (half_edge_rows (idx_hierarchy m))).
    + destruct Ec as (B0 & _). rewrite S1 in B0. exact B0.
  - intros g Hg2.
    assert (Hlt : g < length (edge_counts m)) by (apply nth_error_Some; congruence).
    assert (Hcount : count_eq Nat.eqb g (edge_ids m) = 2).
    { pose proof (@unique_rows_counts (half_edge_rows (idx_hierarchy m)) g) as Hu.
      cbv zeta in Hu. fold (edge_counts m) (edge_ids m) in Hu.
      rewrite <- Hu by exact Hlt. now apply nth_error_nth. }
    destruct (@two_contributions g _ _ Hlen Hcount) as (p & q & x & y & P1 & P2 & P3 & P4 & P5 & P6 & P7).
    exists p, q, x, y. repeat split; auto.
    + rewrite Hg by exact Hlt. now rewrite P7.
    + apply fsum_pair_swap.
Qed.

Lemma kite_mesh_constructed :
  init kernel_area_ce np_argsort kite_nodes two_cells None false = Ret kite_mesh.
Proof. vm_compute. reflexivity. Qed.

(** On the kite mesh the diagonal is the one interior edge, and it is
    counted. *)
Lemma violations_are_negative_interior_edges_witness :
  exists sums,
    _ce_ratios (after (num_delaunay_violations kite_mesh)) = Some sums /\
    length sums = length (edge_counts kite_mesh) /\
    1 = count_true (map2 (fun c s => (c =? 2) && ltb0 s) (edge_counts kite_mesh) sums) /\
    forall g, nth_error (edge_counts kite_mesh) g = Some 2 ->
      exists p q a b,
        p < q /\ nth_error (edge_ids kite_mesh) p = Some g /\
        nth_error (edge_ids kite_mesh) q = Some g /\
        (forall i, nth_error (edge_ids kite_mesh) i = Some g -> i = p \/ i = q) /\
        nth_error (flat_3n (ce_ratios_per_half_edge kite_mesh)) p = Some a /\
        nth_error (flat_3n (ce_ratios_per_half_edge kite_mesh)) q = Some b /\
        nth_error sums g = Some (fsum [a; b]) /\ fsum [a; b] = fsum [b; a].
Proof.
  apply (@violations_are_negative_interior_edges kite_mesh
           (after (num_delaunay_violations kite_mesh)) 1).
  - exact (proj1 (init_constructed _ _ _ _ _ _ kite_mesh_constructed)).
  - vm_compute. reflexivity.
Defined.

(* ------------------------------------------------------------------ *)
(** ** What a flip leaves in place *)

Ltac close_frame H :=
  peel_all H;
  first [ apply modify_Done in H; subst
        | apply mret_Done in H; destruct H as [_ ->]
        | apply lift_Done in H; destruct H as [_ ->] ];
  try (split; reflexivity).

Lemma compute_edges_cells_parts (srt : list nat -> list nat) (m m' : MeshTri) (u : unit) :
  _compute_edges_cells srt m = Done u m' ->
  fixed_part m' = fixed_part m /\ table_part m' = table_part m.
Proof.
  intros H. apply compute_edges_cells_frame in H. red in H. rewrite H.
  split; reflexivity.
Qed.

Lemma move_edges_parts (adj_c adj_d edge_gids : list nat) (m m' : MeshTri) (u : unit) :
  move_edges adj_c adj_d edge_gids m = Done u m' ->
  fixed_part m' = fixed_part m /\ table_part m' = table_part m.
Proof. unfold move_edges. intros H. close_frame H. Qed.

Lemma resum_column_parts (ids gids adj : list nat) (icr r : list float) (m m' : MeshTri) :
  resum_column ids gids adj icr m = Done r m' ->
  fixed_part m' = fixed_part m /\ table_part m' = table_part m.
Proof. unfold resum_column. intros H. close_frame H. Qed.

Lemma interior_ratios_parts (m m' : MeshTri) (r : list float) :
  cells_edges m <> None ->
  get_ce_ratios_per_interior_edge m = Done r m' ->
  fixed_part m' = fixed_part m /\ table_part m' = table_part m.
Proof.
  intros Hce H. unfold get_ce_ratios_per_interior_edge in H. peel H.
  destruct (_interior_ce_ratios m).
  - apply mret_Done in H. destruct H as [_ ->]. split; reflexivity.
  - peel H. destruct (cells_edges m); [ | congruence].
    unfold when, is_none in H. close_frame H.
Qed.

Section UpdateCellValues.

Variable K : tri float -> float * tri float.

Lemma update_cell_values_parts (ids eids : list nat) (m m' : MeshTri) (u : unit) :
  _update_cell_values K ids eids m = Done u m' ->
  fixed_part m' = fixed_part m /\
  cells_nodes m' = cells_nodes m /\ edges m' = edges m /\ cells_edges m' = cells_edges m /\
  exists rows ce,
    take (cells_nodes m) ids = Ret rows /\
    put_cols (fst (idx_hierarchy m)) ids (fst (local_idx (transpose_n3 rows)))
      = Ret (fst (idx_hierarchy m')) /\
    put_cols (snd (idx_hierarchy m)) ids (snd (local_idx (transpose_n3 rows)))
      = Ret (snd (idx_hierarchy m')) /\
    put_cols (ce_ratios_per_half_edge m) ids ce = Ret (ce_ratios_per_half_edge m').
Proof.
  unfold _update_cell_values. intros H. peel_all H.
  apply modify_Done in H. subst m'.
  match goal with
  | E : match _signed_tri_areas ?m0 with _ => _ end ?m0 = Done _ ?m1 |- _ =>
      assert (B2 : fixed_part m1 = fixed_part m0 /\ table_part m1 = table_part m0)
  end.
  { destruct (_signed_tri_areas m0).
    - close_frame E13.
    - apply mret_Done in E13. destruct E13 as [_ ->]. split; reflexivity. }
  match goal with
  | E : match _interior_ce_ratios ?mx with _ => _ end ?mx = Done _ ?m0 |- _ =>
      assert (B1 : fixed_part m0 = fixed_part mx /\ table_part m0 = table_part mx)
  end.
  { destruct (_interior_ce_ratios _).
    - peel_all E12. apply mret_Done in E12. destruct E12 as [_ ->].
      repeat match goal with
      | R : resum_column _ _ _ _ _ = Done _ _ |- _ =>
          apply resum_column_parts in R; destruct R as [? ?]
      end.
      split; etransitivity; eauto.
    - apply mret_Done in E12. destruct E12 as [_ ->]. split; reflexivity. }
  destruct B1 as [F1 T1], B2 as [F2 T2].
  unfold fixed_part, table_part in *. simpl in *.
  injection F1 as ? ? ? ? ? ?. injection F2 as ? ? ? ? ? ?.
  injection T1 as ? ? ? ? ?. injection T2 as ? ? ? ? ?.
  repeat split; try congruence.
  exists a, t.
  replace (idx_hierarchy m1) with (a0, a1) by congruence.
  replace (ce_ratios_per_half_edge m1) with a16 by congruence.
  simpl. auto.
Qed.

Lemma map2_In {A B C : Type} (f : A -> B -> C) (l : list A) (l' : list B) (z : C) :
  In z (map2 f l l') -> exists x y, In x l /\ In y l' /\ z = f x y.
Proof.
  unfold map2. intros H. apply in_map_iff in H. destruct H as ([x y] & <- & H).
  exists x, y. simpl. split; [eapply in_combine_l; eauto | ].
  split; [eapply in_combine_r; eauto | reflexivity].
Qed.

Lemma map3_In {A B C D : Type} (f : A -> B -> C -> D)
    (a : list A) (b : list B) (c : list C) (w : D) :
  In w (map3 f a b c) ->
  exists x y z, In x a /\ In y b /\ In z c /\ w = f x y z.
Proof.
  unfold map3. intros H. apply map2_In in H. destruct H as (x & [y z] & Hx & Hyz & ->).
  exists x, y, z. simpl. split; [exact Hx | ].
  split; [eapply in_combine_l; eauto | ].
  split; [eapply in_combine_r; eauto | reflexivity].
Qed.

Lemma tget_uses (k : nat) (r : tri nat) : uses r (tget k r).
Proof. unfold uses, tget. destruct k as [ | [ | k]]; auto. Qed.

Lemma update_cell_values_shaped (ids eids : list nat) (m m' : MeshTri) (u : unit) :
  _update_cell_values K ids eids m = Done u m' ->
  well_shaped m -> well_shaped m'.
Proof.
  intros H W. apply update_cell_values_parts in H.
  destruct H as (F & Hcn & _ & _ & rows & ce & Hr & H0 & H1 & Hce).
  unfold fixed_part in F. injection F as Hf Hn Hbe _ _ _.
  destruct W as [Wc W0 W1 R0 R1 Wr Wm].
  assert (Rows : Forall (fun i => i < length (node_coords m))
                   (flat_3n (transpose_n3 rows))).
  { apply transpose_n3_Forall. apply cells_in_range_flat.
    intros c i Hc Hu.
    assert (Hf' : Forall (fun c => forall i, uses c i -> i < length (node_coords m)) rows)
      by (eapply take_Forall; [exact Wc | exact Hr]).
    rewrite Forall_forall in Hf'. eapply Hf'; eauto. }
  apply local_idx_Forall in Rows. destruct Rows as [Q0 Q1].
  constructor; rewrite ?Hcn, ?Hn, ?Hbe; auto.
  - eapply put_cols_shape; [exact W0 | exact H0].
  - eapply put_cols_shape; [exact W1 | exact H1].
  - eapply put_cols_Forall; [exact R0 | exact Q0 | exact H0].
  - eapply put_cols_Forall; [exact R1 | exact Q1 | exact H1].
  - eapply put_cols_shape; [exact Wr | exact Hce].
Qed.

End UpdateCellValues.

Lemma select_flip_cells_parts (srt : list nat -> list nat) (nf : list bool)
    (m m' : MeshTri) (fl : list (nat * nat)) :
  select_flip_cells srt nf m = Done fl m' ->
  fixed_part m' = fixed_part m /\ table_part m' = table_part m.
Proof.
  unfold select_flip_cells. intros H. peel_all H.
  apply mret_Done in H. destruct H as [_ ->].
  destruct (_edges_cells m); unfold when, is_none in E0.
  - apply mret_Done in E0. destruct E0 as [_ ->]. split; reflexivity.
  - now apply compute_edges_cells_parts in E0.
Qed.

Lemma corners_in_range (N : nat) (f : nat -> nat) (rows : list (tri nat)) (lids : list nat) :
  Forall (fun c => forall i, uses c i -> i < N) rows ->
  Forall (fun i => i < N) (map2 (fun r l => tget (f l) r) rows lids).
Proof.
  intros H. apply Forall_forall. intros z Hz.
  apply map2_In in Hz. destruct Hz as (r & l & Hr & _ & ->).
  rewrite Forall_forall in H. apply (H r Hr). apply tget_uses.
Qed.

Lemma new_cells_in_range (N : nat) (v0 v1 v2 : list nat) :
  Forall (fun i => i < N) v0 -> Forall (fun i => i < N) v1 ->
  Forall (fun i => i < N) v2 ->
  Forall (fun c => forall i, uses c i -> i < N)
         (map3 (fun a b c => Tri a b c) v0 v1 v2).
Proof.
  rewrite !Forall_forall. intros H0 H1 H2 c Hc i Hu.
  apply map3_In in Hc. destruct Hc as (x & y & z & Hx & Hy & Hz & ->).
  destruct Hu as [<- | [<- | <-]]; simpl; auto.
Qed.

Section FlipEdges.

Variable K : tri float -> float * tri float.
Variable srt : list nat -> list nat.

(** A flip keeps the shapes of the tables and the node ids in range; it
    does not write the boundary marks, the mode of the flat cell
    correction or the node coordinates. *)
Lemma flip_edges_shaped (nf : list bool) (m m' : MeshTri) (u : unit) :
  _flip_edges K srt nf m = Done u m' ->
  well_shaped m ->
  well_shaped m' /\ fixed_part m' = fixed_part m /\
  edges m' <> None /\ cells_edges m' <> None.
Proof.
  unfold _flip_edges. intros H W. peel_all H.
  apply select_flip_cells_parts in E. destruct E as [F0 T0].
  apply move_edges_parts in E14, E15.
  destruct E14 as [F1 T1], E15 as [F2 T2].
  unfold table_part in T0, T1, T2. simpl in T1.
  injection T0 as C0 I0 R0 _ _. injection T1 as C1 I1 R1 Ed1 Ce1.
  injection T2 as C2 I2 R2 Ed2 Ce2.
  assert (F : fixed_part m2 = fixed_part m).
  { rewrite F2, F1. exact F0. }
  assert (W2 : well_shaped m2).
  { unfold fixed_part in F. injection F as _ Hn Hbe _ _ _.
    destruct W as [Wc W0 W1 Q0 Q1 Wr Wm].
    assert (Wc0 : Forall (fun c => forall i, uses c i -> i < length (node_coords m))
                    (cells_nodes m0)) by (rewrite C0; exact Wc).
    assert (Wc6 : Forall (fun c => forall i, uses c i -> i < length (node_coords m)) a6)
      by (eapply take_Forall; [exact Wc0 | exact E6]).
    assert (Wc7 : Forall (fun c => forall i, uses c i -> i < length (node_coords m)) a7)
      by (eapply take_Forall; [exact Wc0 | exact E7]).
    assert (Wc11 : Forall (fun c => forall i, uses c i -> i < length (node_coords m)) a11).
    { eapply put_Forall; [exact Wc0 | | exact E10].
      apply new_cells_in_range; apply corners_in_range; assumption. }
    assert (Wc13 : Forall (fun c => forall i, uses c i -> i < length (node_coords m)) a13).
    { eapply put_Forall; [exact Wc11 | | exact E11].
      apply new_cells_in_range; apply corners_in_range; assumption. }
    assert (L : length (cells_nodes m2) = length (cells_nodes m)).
    { rewrite C2, C1. apply put_length in E10, E11. rewrite E11, E10, C0. reflexivity. }
    constructor; rewrite ?L, ?Hn, ?Hbe, ?I2, ?I1, ?I0, ?R2, ?R1, ?R0; auto.
    rewrite C2, C1. exact Wc13. }
  pose proof (update_cell_values_shaped _ _ _ H W2) as W'.
  apply update_cell_values_parts in H.
  destruct H as (F' & _ & He & Hc & _).
  split; [exact W' | ]. split; [now rewrite F', F | ].
  split; [rewrite He, Ed2, Ed1 | rewrite Hc, Ce2, Ce1]; discriminate.
Qed.

End FlipEdges.

(* ------------------------------------------------------------------ *)
(** ** Running [flip_until_delaunay] a second time *)

(** *** Building the edges and the interior ratios always succeeds on a
    mesh whose edges have at most two cells *)

Lemma take_map_total {A : Type} (l : list A) (idx : list nat) (d : A) :
  Forall (fun i => i < length l) idx ->
  take l idx = Ret (map (fun i => nth i l d) idx).
Proof.
  intros H. destruct (@take_total _ l idx H) as (r & Hr).
  rewrite Hr. f_equal. eapply take_map_nth. exact Hr.
Qed.

Lemma create_edges_total (m : MeshTri) :
  forallb (fun c => c <? 3) (edge_counts m) = true ->
  create_edges m = Done tt (install_edges m).
Proof.
  intros Hc. unfold create_edges, install_edges.
  unfold mbind at 1. unfold attr at 1.
  pose proof (unique_rows_ids_range (half_edge_rows (idx_hierarchy m))) as Hr.
  unfold edge_counts, edge_ids, half_edge_rows in *.
  destruct (unique_rows _) as [[a_unique inv] cts] eqn:Eu. simpl in *.
  unfold mbind at 1. unfold lift at 1. rewrite Hc. simpl py_assert. cbv iota.
  unfold mbind at 1. unfold lift at 1.
  rewrite (@take_map_total _ cts inv 0 Hr). rewrite map_map.
  reflexivity.
Qed.

Lemma add_at_aux_total (iv : list (nat * float)) (target : list float) :
  Forall (fun p => fst p < length target) iv -> exists r, add_at_aux target iv = Ret r.
Proof.
  revert target. induction iv as [ | [i v] iv IH]; simpl; intros target H.
  - now exists target.
  - inversion H as [ | ? ? Hi Ht]; subst. simpl in Hi.
    destruct (nth_error target i) as [x | ] eqn:Ex;
      [ | apply nth_error_None in Ex; lia].
    unfold getitem. rewrite Ex. simpl.
    apply IH. rewrite upd_length. exact Ht.
Qed.

Lemma add_at_total (n : nat) (idx : list nat) (vals : list float) :
  length idx = length vals -> Forall (fun i => i < n) idx ->
  exists r, add_at (zeros n) idx vals = Ret r.
Proof.
  intros Hl Hr. unfold add_at. rewrite Hl, Nat.eqb_refl.
  apply add_at_aux_total. apply Forall_forall. intros [i v] Hin. simpl.
  unfold zeros. rewrite repeat_length.
  rewrite Forall_forall in Hr. apply Hr. eapply in_combine_l; eauto.
Qed.

Lemma interior_ratios_total (m : MeshTri) :
  well_shaped m -> edges_current m -> _interior_ce_ratios m = None ->
  exists ir m', get_ce_ratios_per_interior_edge m = Done ir m'.
Proof.
  intros W Ec Hc. pose proof Ec as (B0 & B1 & B2 & B3 & B4).
  pose proof (unique_rows_lengths (half_edge_rows (idx_hierarchy m))) as [_ Hu].
  fold (edge_counts m) in Hu.
  pose proof (unique_rows_ids_range (half_edge_rows (idx_hierarchy m))) as Hr.
  fold (edge_counts m) (edge_ids m) in Hr.
  assert (Hl : length (edge_ids m) = length (flat_3n (ce_ratios_per_half_edge m))).
  { rewrite edge_ids_length, (@half_edge_rows_length _ _ (ws_ih0 W) (ws_ih1 W)).
    now rewrite (flat_3n_length (ws_ratios W)). }
  rewrite Hu in Hr.
  destruct (@add_at_total _ _ _ Hl Hr) as (r0 & Ha).
  pose proof Ha as Ha'. apply add_at_zeros in Ha'. destruct Ha' as (_ & Hlen & _).
  assert (Hs : mask_select r0 (map negb (map (fun c => c =? 1) (edge_counts m)))
               = Ret (mask_aux r0 (map negb (map (fun c => c =? 1) (edge_counts m))))).
  { apply mask_select_Ret. rewrite !length_map. congruence. }
  rewrite <- (edge_ids_flat W) in Ha.
  eexists. eexists. eapply (interior_ratios_rebuilt m Hc B2 B1 B3 Ha Hs).
Qed.

(** *** No violations when the interior half-edges are positive *)

Lemma count_true_map2_zero {A B : Type} (f : A -> B -> bool) (l : list A) (l' : list B) :
  (forall g x y, nth_error l g = Some x -> nth_error l' g = Some y -> f x y = false) ->
  count_true (map2 f l l') = 0.
Proof.
  revert l'. induction l as [ | x l IH]; intros [ | y l'] H; try reflexivity.
  unfold count_true, map2 in *. simpl.
  rewrite (H 0 x y eq_refl eq_refl). apply IH.
  intros g a b Ha Hb. apply (H (S g)); assumption.
Qed.

Lemma ltb0_zero : ltb0 0 = false.
Proof. reflexivity. Qed.

Lemma fsum_pair_not_negative (a b : float) :
  gtb0 a = true -> gtb0 b = true -> ltb0 (fsum [a; b]) = false.
Proof.
  intros Ha Hb. unfold fsum. simpl.
  apply fadd_not_negative; [ | exact Hb].
  apply fadd_not_negative; [exact ltb0_zero | exact Ha].
Qed.

Lemma no_violations_current (m : MeshTri) :
  well_shaped m -> edges_current m -> _interior_ce_ratios m = None ->
  interior_half_edges_positive m ->
  exists m3, num_delaunay_violations m = Done 0 m3.
Proof.
  intros W Ec Hc Hpos.
  destruct (interior_ratios_total W Ec Hc) as (ir & m' & H).
  exists m'. unfold num_delaunay_violations, mbind. rewrite H. unfold mret. f_equal.
  destruct (edge_sums_current W Ec Hc H) as (sums & _ & Hl & _ & Hir & Hlen & Hg).
  rewrite Hir, count_interior_negative; [ | exact Hl | | ].
  - apply count_true_map2_zero. intros g c s Hc' Hs.
    destruct (Nat.eqb_spec c 2) as [-> | Hne]; [simpl | reflexivity].
    assert (Hlt : g < length (edge_counts m)) by (apply nth_error_Some; congruence).
    assert (Hcount : count_eq Nat.eqb g (edge_ids m) = 2).
    { pose proof (@unique_rows_counts (half_edge_rows (idx_hierarchy m)) g) as Hu.
      fold (edge_counts m) (edge_ids m) in Hu.
      rewrite <- Hu by exact Hlt. now apply nth_error_nth. }
    destruct (@two_contributions g _ _ Hlen Hcount)
      as (p & q & x & y & _ & P2 & P3 & _ & P5 & P6 & P7).
    rewrite Hg, P7 in Hs by exact Hlt. injection Hs as <-.
    apply fsum_pair_not_negative; [eapply (Hpos p) | eapply (Hpos q)]; eauto.
  - apply (unique_rows_counts_pos (half_edge_rows (idx_hierarchy m))).
  - apply Ec.
Qed.

Lemma violations_absent_eq (m : MeshTri) :
  cells_edges m = None -> _interior_ce_ratios m = None ->
  create_edges m = Done tt (install_edges m) ->
  num_delaunay_violations m = num_delaunay_violations (install_edges m).
Proof.
  intros Hce Hc Hd. unfold num_delaunay_violations.
  unfold mbind at 1. symmetry. unfold mbind at 1. symmetry.
  replace (get_ce_ratios_per_interior_edge m)
    with (get_ce_ratios_per_interior_edge (install_edges m)); [reflexivity | ].
  symmetry. unfold get_ce_ratios_per_interior_edge.
  unfold mbind at 1. unfold attr at 1. rewrite Hc.
  unfold mbind at 1. unfold attr at 1. rewrite Hce.
  unfold when, is_none. unfold mbind at 1. rewrite Hd.
  symmetry.
  unfold mbind at 1. unfold attr at 1.
  replace (_interior_ce_ratios (install_edges m)) with (@None (list float))
    by (symmetry; exact Hc).
  unfold mbind at 1. unfold attr at 1. simpl cells_edges.
  unfold mbind at 1. unfold mret at 1. reflexivity.
Qed.

Lemma all_positive_interior (m : MeshTri) :
  well_shaped m ->
  np_all (map gtb0 (flat_3n (ce_ratios_per_half_edge m))) = true ->
  interior_half_edges_positive m.
Proof.
  intros W H p g a _ _ Ha. unfold np_all in H. rewrite forallb_forall in H.
  assert (Hin : In (gtb0 a) (map gtb0 (flat_3n (ce_ratios_per_half_edge m)))).
  { apply in_map. eapply nth_error_In; eauto. }
  apply H in Hin. exact Hin.
Qed.

Lemma mask_aux_app {A : Type} (l1 l2 : list A) (m1 m2 : list bool) :
  length l1 = length m1 ->
  mask_aux (l1 ++ l2) (m1 ++ m2) = mask_aux l1 m1 ++ mask_aux l2 m2.
Proof.
  revert m1. induction l1 as [ | x l1 IH]; intros [ | b m1] H; try discriminate.
  - reflexivity.
  - simpl. injection H as H. rewrite (IH _ H). now destruct b.
Qed.

Lemma mask_aux_flat {A : Type} (n : nat) (t : tri (list A)) (mask : tri (list bool)) :
  shape3 n t -> shape3 n mask ->
  mask_aux (t0 t) (t0 mask) ++ mask_aux (t1 t) (t1 mask) ++ mask_aux (t2 t) (t2 mask)
  = mask_aux (flat_3n t) (flat_3n mask).
Proof.
  intros (A0 & A1 & A2) (B0 & B1 & B2). unfold flat_3n.
  rewrite !mask_aux_app by congruence. reflexivity.
Qed.

(** The second check of [flip_until_delaunay] looks at the half-edges
    that the boundary mask of current edges calls interior. *)
Lemma masked_positive_interior (m : MeshTri) (mask : tri (list bool)) :
  well_shaped m -> edges_current m -> is_boundary_edge m = Some mask ->
  np_all (map gtb0
            (mask_aux (t0 (ce_ratios_per_half_edge m)) (t0 (tmap (map negb) mask))
             ++ mask_aux (t1 (ce_ratios_per_half_edge m)) (t1 (tmap (map negb) mask))
             ++ mask_aux (t2 (ce_ratios_per_half_edge m)) (t2 (tmap (map negb) mask))))
    = true ->
  interior_half_edges_positive m.
Proof.
  intros W Ec Hm H p g a Hp Hg Ha.
  pose proof (ws_mask W Hm) as Sm. pose proof (ws_ratios W) as Sr.
  assert (Sk : shape3 (length (cells_nodes m)) (tmap (map negb) mask)).
  { apply shape3_tmap; [ | exact Sm]. intros l. apply length_map. }
  rewrite (mask_aux_flat Sr Sk) in H.
  unfold np_all in H. rewrite forallb_forall in H.
  apply H. apply in_map. eapply mask_aux_nth; [exact Ha | ].
  destruct Ec as (_ & _ & _ & _ & B4). rewrite Hm in B4. injection B4 as ->.
  assert (Hl : length (edge_ids m) = 3 * length (t0 (fst (idx_hierarchy m)))).
  { pose proof (ws_ih0 W) as S0. pose proof S0 as (L0 & _).
    rewrite edge_ids_length, L0.
    apply half_edge_rows_length; [exact S0 | exact (ws_ih1 W)]. }
  assert (Hf : flat_3n (tmap (map negb)
                 (reshape_3n (length (t0 (fst (idx_hierarchy m))))
                    (map (fun g => nth g (edge_counts m) 0 =? 1) (edge_ids m))))
               = map negb (map (fun g => nth g (edge_counts m) 0 =? 1) (edge_ids m))).
  { assert (Hl' : length (map (fun g => nth g (edge_counts m) 0 =? 1) (edge_ids m))
                  = 3 * length (t0 (fst (idx_hierarchy m))))
      by (rewrite length_map; exact Hl).
    pose proof (@flat_reshape_3n _ _ _ Hl') as Hfr.
    unfold flat_3n, tmap in *. simpl in *. rewrite <- !map_app. now rewrite Hfr. }
  rewrite Hf, map_map.
  rewrite (map_nth_error _ _ _ Hp). f_equal.
  now rewrite (nth_error_nth _ _ 0 Hg).
Qed.

(** *** The loop keeps the object ready for another run *)

Lemma well_shaped_of_parts (m m' : MeshTri) :
  fixed_part m' = fixed_part m -> table_part m' = table_part m ->
  well_shaped m -> well_shaped m'.
Proof.
  unfold fixed_part, table_part. intros F T [Wc W0 W1 R0 R1 Wr Wm].
  injection F as _ Hn Hbe _ _ _. injection T as Hcn Hih Hr _ _.
  constructor; rewrite ?Hcn, ?Hn, ?Hbe, ?Hih, ?Hr; auto.
Qed.

Lemma flip_ready_of_parts (mask : tri (list bool)) (m m' : MeshTri) :
  fixed_part m' = fixed_part m -> table_part m' = table_part m ->
  flip_ready mask m -> flip_ready mask m'.
Proof.
  intros F T [Hf W He Hc Hm Hb].
  pose proof (@well_shaped_of_parts _ _ F T W) as W'.
  unfold fixed_part, table_part in *.
  injection F as Hf' _ Hbe Hbf _ _. injection T as _ _ _ Hed Hce.
  constructor; rewrite ?Hf', ?Hbe, ?Hbf, ?Hed, ?Hce; auto.
Qed.

Section SecondRun.

Variable K : tri float -> float * tri float.
Variable srt : list nat -> list nat.

Lemma flip_step_ready (mask : tri (list bool)) (nf : list bool) (m m' : MeshTri)
    (r : list float) :
  flip_step K srt nf m = Done r m' -> flip_ready mask m -> flip_ready mask m'.
Proof.
  unfold flip_step. intros H [Hf W He Hc Hm Hb]. peel H.
  destruct (@flip_edges_shaped K srt _ _ _ _ E W) as (W0 & F0 & He0 & Hc0).
  apply (@interior_ratios_parts _ _ _ Hc0) in H. destruct H as [F1 T1].
  apply (@flip_ready_of_parts mask _ _ F1 T1).
  unfold fixed_part in F0. injection F0 as Hf' _ Hbe Hbf _ _.
  constructor; rewrite ?Hf', ?Hbe, ?Hbf; auto.
Qed.

Lemma flip_loop_ready (mask : tri (list bool)) (fuel : nat) :
  forall (n : nat) (nf : list bool) (m m1 : MeshTri) (b : bool),
    flip_ready mask m ->
    flip_loop K srt fuel n nf m = Some (Done b m1) -> flip_ready mask m1.
Proof.
  induction fuel as [ | fuel IH]; intros n nf m m1 b R H.
  - destruct (np_any nf) eqn:E.
    + rewrite flip_loop_out_of_fuel in H by exact E. discriminate.
    + rewrite flip_loop_stop in H by exact E. injection H as _ <-. exact R.
  - destruct (np_any nf) eqn:E.
    + rewrite flip_loop_pass in H by exact E.
      destruct (flip_step K srt nf m) as [r m' | e m'] eqn:Es; [ | discriminate].
      eapply IH; [ | exact H]. eapply flip_step_ready; eauto.
    + rewrite flip_loop_stop in H by exact E. injection H as _ <-. exact R.
Qed.

Lemma same_but_boundary_nodes_refl (m : MeshTri) : same_but_boundary_nodes m m.
Proof. unfold same_but_boundary_nodes. destruct m. reflexivity. Qed.

Lemma install_boundary_same (m : MeshTri) (mask : tri (list bool)) :
  is_boundary_face m = Some mask ->
  same_but_boundary_nodes m (install_boundary m mask).
Proof.
  unfold same_but_boundary_nodes, install_boundary. intros H.
  destruct m. simpl in *. subst. reflexivity.
Qed.

Lemma count_true_none (l : list bool) : np_any l = false -> count_true l = 0.
Proof.
  unfold np_any, count_true. induction l as [ | b l IH]; simpl; [reflexivity | ].
  destruct b; simpl; [discriminate | exact IH].
Qed.

Lemma violations_of_cache (m : MeshTri) (r : list float) :
  _interior_ce_ratios m = Some r -> np_any (map ltb0 r) = false ->
  num_delaunay_violations m = Done 0 m.
Proof.
  intros Hc Hn. unfold num_delaunay_violations, mbind.
  rewrite (@interior_ratios_of_cache _ _ Hc). unfold mret.
  now rewrite (@count_true_none _ Hn).
Qed.

Lemma flip_until_delaunay_full (fuel : nat) (m : MeshTri) :
  is_full (fcc_type m) = true ->
  flip_until_delaunay K srt fuel m = Some (Fail AssertionError m).
Proof.
  intros H. unfold flip_until_delaunay, flip_precheck.
  unfold mbind at 1. unfold attr at 1.
  unfold mbind at 1. unfold lift at 1. rewrite H. reflexivity.
Qed.

(** A second run on an object that is ready and whose cached interior
    ratios have no negative entry does not flip; it rewrites the marks of
    the boundary nodes at most. *)
Lemma second_run_idle (mask : tri (list bool)) (m : MeshTri) (r : list float) :
  flip_ready mask m ->
  _interior_ce_ratios m = Some r -> np_any (map ltb0 r) = false ->
  exists m2,
    (forall fuel, flip_until_delaunay K srt fuel m = Some (Done false m2)) /\
    same_but_boundary_nodes m m2.
Proof.
  intros [Hf W He Hc Hm Hb] Hr Hn.
  assert (Hw : when (is_none (is_boundary_edge m)) create_edges m = Done tt m)
    by (rewrite Hm; reflexivity).
  pose proof (flip_precheck_unfold m Hf Hw W He Hm eq_refl) as P.
  unfold flip_until_delaunay. rewrite P. clear P.
  destruct (np_all (map gtb0 (flat_3n (ce_ratios_per_half_edge m)))).
  { exists m. split; [reflexivity | apply same_but_boundary_nodes_refl]. }
  cbv zeta.
  match goal with |- context [if ?c then _ else _] => destruct c end.
  { eexists. split; [reflexivity | now apply install_boundary_same]. }
  assert (Hr' : _interior_ce_ratios (install_boundary m mask) = Some r) by exact Hr.
  rewrite (@interior_ratios_of_cache _ _ Hr').
  eexists. split; [ | now apply (@install_boundary_same m mask)].
  intros fuel. now rewrite flip_loop_stop.
Qed.

End SecondRun.

Lemma install_boundary_shaped (m : MeshTri) (mask : tri (list bool)) :
  well_shaped m -> well_shaped (install_boundary m mask).
Proof. intros [Wc W0 W1 R0 R1 Wr Wm]. constructor; simpl; auto. Qed.

Lemma install_boundary_current (m : MeshTri) (mask : tri (list bool)) :
  edges_current m -> edges_current (install_boundary m mask).
Proof. intros H. exact H. Qed.

Lemma install_boundary_ready (m : MeshTri) (mask : tri (list bool)) :
  is_full (fcc_type m) = false -> well_shaped m -> edges_current m ->
  is_boundary_edge m = Some mask ->
  flip_ready mask (install_boundary m mask).
Proof.
  intros Hf W (B0 & B1 & B2 & B3 & B4) Hm.
  constructor; simpl; auto using install_boundary_shaped; congruence.
Qed.

Section Idempotence.

Variable K : tri float -> float * tri float.
Variable srt : list nat -> list nat.

(** C5, for constructed meshes whose edges have at most two cells: when
    [flip_until_delaunay] returns, [num_delaunay_violations] is 0, and a
    second run returns [False] and leaves every attribute as it is except,
    at most, the marks of the boundary nodes. *)
Theorem second_run_rewrites_boundary_marks_only (m m1 : MeshTri) (fuel : nat) (b : bool) :
  constructed_state m ->
  forallb (fun c => c <? 3) (edge_counts m) = true ->
  flip_until_delaunay K srt fuel m = Some (Done b m1) ->
  (exists m3, num_delaunay_violations m1 = Done 0 m3) /\
  exists m2,
    (forall fuel2, flip_until_delaunay K srt fuel2 m1 = Some (Done false m2)) /\
    same_but_boundary_nodes m1 m2.
Proof.
  intros C Hcts H. pose proof C as [W Ed Hc].
  assert (Hf : is_full (fcc_type m) = false).
  { destruct (is_full (fcc_type m)) eqn:E; [ | reflexivity].
    rewrite flip_until_delaunay_full in H by exact E. discriminate. }
  pose proof (create_edges_total m Hcts) as Hd.
  destruct (@edges_ready m C (fun _ => Hd)) as (m0 & Hw & W0 & Ec & Hc0 & Hm0).
  pose proof Ec as (B0 & B1 & B2 & B3 & B4).
  assert (He : edges m0 <> None) by congruence.
  assert (Same : fcc_type m0 = fcc_type m /\
                 ce_ratios_per_half_edge m0 = ce_ratios_per_half_edge m /\
                 edge_ids m0 = edge_ids m /\ edge_counts m0 = edge_counts m).
  { destruct Hm0 as [-> | [-> _]]; auto. }
  destruct Same as (S0 & S1 & S2 & S3).
  pose proof (flip_precheck_unfold m Hf Hw W0 He B4 S1) as P.
  assert (Hf' : is_full (fcc_type m0) = false) by (rewrite S0; exact Hf).
  unfold flip_until_delaunay in H. rewrite P in H.
  destruct (np_all (map gtb0 (flat_3n (ce_ratios_per_half_edge m)))) eqn:EA.
  { (* every half-edge ratio is positive *)
    injection H as <- <-. split.
    - assert (Hpos : interior_half_edges_positive m0).
      { apply all_positive_interior; [exact W0 | ]. rewrite S1. exact EA. }
      destruct (no_violations_current W0 Ec Hc0 Hpos) as (m3 & H3).
      exists m3. destruct Hm0 as [-> | [-> (A0 & A1 & A2)]]; [exact H3 | ].
      rewrite violations_absent_eq; auto.
    - exists m. split; [ | apply same_but_boundary_nodes_refl].
      intros fuel2. unfold flip_until_delaunay. rewrite P. reflexivity. }
  cbv zeta in H, P.
  match type of P with context [if ?c then _ else _] => destruct c eqn:EB end.
  { (* every interior half-edge ratio is positive *)
    injection H as <- <-.
    match goal with |- context [install_boundary m0 ?mk] => set (mask := mk) in * end.
    pose proof (install_boundary_ready Hf' W0 Ec B4) as R.
    assert (Hpos : interior_half_edges_positive (install_boundary m0 mask)).
    { apply (@masked_positive_interior m0 mask W0 Ec B4). rewrite S1. exact EB. }
    split.
    - apply no_violations_current;
        [now apply install_boundary_shaped | exact Ec | exact Hc0 | exact Hpos].
    - assert (Hw' : when (is_none (is_boundary_edge (install_boundary m0 mask)))
                      create_edges (install_boundary m0 mask)
                    = Done tt (install_boundary m0 mask)).
      { simpl is_boundary_edge. rewrite B4. reflexivity. }
      pose proof (@flip_precheck_unfold (install_boundary m0 mask) _ mask
                    (fr_mode R) Hw' (fr_shaped R) (fr_edges R) (fr_mask R) eq_refl) as P'.
      simpl ce_ratios_per_half_edge in P'. rewrite S1, EA in P'.
      cbv zeta in P'. rewrite EB in P'.
      eexists. split.
      + intros fuel2. unfold flip_until_delaunay. rewrite P'. reflexivity.
      + apply install_boundary_same. reflexivity. }
  (* the loop *)
  match type of H with context [install_boundary m0 ?mk] => set (mask := mk) in * end.
  pose proof (install_boundary_ready Hf' W0 Ec B4) as R.
  destruct (get_ce_ratios_per_interior_edge (install_boundary m0 mask))
    as [r mp | e mp] eqn:Eg; [ | discriminate].
  assert (Rp : flip_ready mask mp).
  { destruct (@interior_ratios_parts _ _ _ (fr_cells_edges R) Eg) as [F T].
    apply (@flip_ready_of_parts mask _ _ F T R). }
  pose proof (flip_loop_ready K srt fuel 0 (map ltb0 r) Rp H) as R1.
  assert (Hcache : exists r1, _interior_ce_ratios m1 = Some r1 /\
                              np_any (map ltb0 r1) = false).
  { destruct (flip_loop_exit K srt fuel 0 (map ltb0 r) mp H) as [[Hn ->] | Hx];
      [ | exact Hx].
    exists r. split; [ | exact Hn]. eapply interior_ce_ratios_cached. exact Eg. }
  destruct Hcache as (r1 & Hr1 & Hn1). split.
  - exists m1. now apply (@violations_of_cache m1 r1).
  - now apply (@second_run_idle K srt mask m1 r1).
Qed.

End Idempotence.

Lemma cap_mesh_constructed :
  init kernel_area_ce np_argsort cap_nodes cap_cells None false = Ret cap_mesh.
Proof. vm_compute. reflexivity. Qed.

(** On [cap_mesh] the first run flips the edge between the nodes 1 and
    2. *)
Lemma second_run_rewrites_boundary_marks_only_witness :
  (exists m3, num_delaunay_violations (after_flipping 2 cap_mesh) = Done 0 m3) /\
  exists m2,
    (forall fuel2,
       flip_until_delaunay kernel_area_ce np_argsort fuel2 (after_flipping 2 cap_mesh)
       = Some (Done false m2)) /\
    same_but_boundary_nodes (after_flipping 2 cap_mesh) m2.
Proof.
  apply (@second_run_rewrites_boundary_marks_only kernel_area_ce np_argsort cap_mesh
           (after_flipping 2 cap_mesh) 2 false).
  - exact (proj1 (init_constructed _ _ _ _ _ _ cap_mesh_constructed)).
  - vm_compute. reflexivity.
  - vm_compute. reflexivity.
Defined.

(** C5 as stated fails in two ways.  On [cap_mesh] the first run flips
    one edge and returns; node 0 is an interior node and is not marked as
    a boundary node.  The second run returns [False] and marks node 0: the
    boundary mask is indexed by the half-edge positions from before the
    flip.  On [book_mesh], where three cells share an edge, the run
    returns [False] at once and [num_delaunay_violations] then raises
    [AssertionError]. *)
Lemma second_run_marks_interior_node :
  (init kernel_area_ce np_argsort cap_nodes cap_cells None false = Ret cap_mesh /\
   flip_until_delaunay kernel_area_ce np_argsort 2 cap_mesh
     = Some (Done false (after_flipping 2 cap_mesh)) /\
   cells_nodes cap_mesh = [Tri 1 5 2; Tri 0 1 2; Tri 0 2 3; Tri 0 3 4; Tri 0 4 1] /\
   cells_nodes (after_flipping 2 cap_mesh)
     = [Tri 5 0 2; Tri 5 0 1; Tri 0 2 3; Tri 0 3 4; Tri 0 4 1] /\
   is_boundary_node (after_flipping 2 cap_mesh)
     = Some [false; true; true; true; true; true] /\
   flip_until_delaunay kernel_area_ce np_argsort 2 (after_flipping 2 cap_mesh)
     = Some (Done false (after_flipping 2 (after_flipping 2 cap_mesh))) /\
   is_boundary_node (after_flipping 2 (after_flipping 2 cap_mesh))
     = Some [true; true; true; true; true; true]) /\
  (init kernel_area_ce np_argsort book_nodes book_cells None false = Ret book_mesh /\
   flip_until_delaunay kernel_area_ce np_argsort 2 book_mesh = Some (Done false book_mesh) /\
   edge_counts book_mesh = [3; 1; 1; 1; 1; 1; 1] /\
   num_delaunay_violations book_mesh = Fail AssertionError book_mesh).
Proof.
  split.
  - split; [vm_compute; reflexivity | ].
    split; [vm_compute; reflexivity | ].
    split; [vm_compute; reflexivity | ].
    split; [vm_compute; reflexivity | ].
    split; [vm_compute; reflexivity | ].
    split; vm_compute; reflexivity.
  - split; [vm_compute; reflexivity | ].
    split; [vm_compute; reflexivity | ].
    split; vm_compute; reflexivity.
Qed.

(* ------------------------------------------------------------------ *)
(** ** Cached queries *)

Section CachedQueries.

Variable K : tri float -> float * tri float.
Variable C : tri point -> tri float -> tri float -> point.

Lemma get_cell_circumcenters_cached (m m' : MeshTri) (v : list point) :
  get_cell_circumcenters C m = Done v m' -> cell_circumcenters m' = Some v.
Proof.
  unfold get_cell_circumcenters. intros H. peel H.
  destruct (cell_circumcenters m) as [c | ] eqn:E.
  - apply mret_Done in H. destruct H as [-> ->]. exact E.
  - peel_all H. apply mret_Done in H. destruct H as [-> ->]. reflexivity.
Qed.

Lemma get_cell_partitions_cached (m m' : MeshTri) (v : tri (list float)) :
  get_cell_partitions m = Done v m' -> _cell_partitions m' = Some v.
Proof.
  unfold get_cell_partitions. intros H. peel H.
  destruct (_cell_partitions m) as [c | ] eqn:E.
  - apply mret_Done in H. destruct H as [-> ->]. exact E.
  - peel_all H. apply mret_Done in H. destruct H as [-> ->]. reflexivity.
Qed.

Lemma get_surface_areas_cached (m m' : MeshTri)
    (v : list (tri (tri nat)) * list (tri (tri float))) :
  get_surface_areas m = Done v m' -> _surface_areas m' = Some v.
Proof.
  unfold get_surface_areas. intros H. peel H.
  destruct (_surface_areas m) as [c | ] eqn:E.
  - apply mret_Done in H. destruct H as [-> ->]. exact E.
  - peel H. peel H. peel H. peel H. destruct (fcc _) as [f | ].
    + peel H. destruct a1 as [ffc_ids ffc_vals]. peel H.
      apply mret_Done in H. destruct H as [-> ->]. exact E2.
    + apply mret_Done in H. destruct H as [-> ->]. reflexivity.
Qed.

Lemma get_control_volume_centroids_cached (m m' : MeshTri) (v : list point) :
  get_control_volume_centroids C m = Done v m' -> _cv_centroids m' = Some v.
Proof.
  unfold get_control_volume_centroids. intros H. peel H.
  destruct (_cv_centroids m) as [c | ] eqn:E.
  - apply mret_Done in H. destruct H as [-> ->]. exact E.
  - peel_all H. apply mret_Done in H. destruct H as [-> ->]. reflexivity.
Qed.

Lemma get_centroids_cached (m m' : MeshTri) (v : list point) :
  get_centroids m = Done v m' -> _centroids m' = Some v.
Proof.
  unfold get_centroids. intros H. peel H.
  destruct (_centroids m) as [c | ] eqn:E.
  - apply mret_Done in H. destruct H as [-> ->]. exact E.
  - peel_all H. apply mret_Done in H. destruct H as [-> ->]. reflexivity.
Qed.

(** A query that has returned a value returns the same value when it is
    asked again, and the second call leaves the object as it is: the
    value is in the cache. *)
Theorem cached_queries_repeat (m m' : MeshTri) :
  (forall v, get_cell_partitions m = Done v m' -> get_cell_partitions m' = Done v m') /\
  (forall v, get_cell_circumcenters C m = Done v m' ->
             get_cell_circumcenters C m' = Done v m') /\
  (forall v, get_control_volumes m = Done v m' -> get_control_volumes m' = Done v m') /\
  (forall v, get_surface_areas m = Done v m' -> get_surface_areas m' = Done v m') /\
  (forall v, get_control_volume_centroids C m = Done v m' ->
             get_control_volume_centroids C m' = Done v m') /\
  (forall v, get_centroids m = Done v m' -> get_centroids m' = Done v m') /\
  (forall v, get_ce_ratios_per_interior_edge m = Done v m' ->
             get_ce_ratios_per_interior_edge m' = Done v m').
Proof.
  split; [ | split; [ | split; [ | split; [ | split; [ | split]]]]]; intros v H.
  - apply get_cell_partitions_cached in H.
    unfold get_cell_partitions, mbind, attr. now rewrite H.
  - apply get_cell_circumcenters_cached in H.
    unfold get_cell_circumcenters, mbind, attr. now rewrite H.
  - apply get_control_volumes_cached in H.
    unfold get_control_volumes. unfold mbind at 1. unfold attr at 1. now rewrite H.
  - apply get_surface_areas_cached in H.
    unfold get_surface_areas. unfold mbind at 1. unfold attr at 1. now rewrite H.
  - apply get_control_volume_centroids_cached in H.
    unfold get_control_volume_centroids. unfold mbind at 1. unfold attr at 1.
    now rewrite H.
  - apply get_centroids_cached in H.
    unfold get_centroids, mbind, attr. now rewrite H.
  - apply interior_ce_ratios_cached in H. now apply interior_ratios_of_cache.
Qed.

End CachedQueries.

(* ------------------------------------------------------------------ *)
(** ** Moving the nodes *)

Section MovedNodes.

Variable K : tri float -> float * tri float.
Variable srt : list nat -> list nat.

(** Moving the nodes of a mesh that was just built without flat cell
    correction gives the object that the constructor builds from the new
    coordinates and the same cells. *)
Theorem moved_nodes_as_constructed (nodes X : list point) (cells : list (tri nat))
    (sort_cells : bool) (m m' : MeshTri) (u : unit) :
  init K srt nodes cells None sort_cells = Ret m ->
  update_node_coordinates K X m = Done u m' ->
  init K srt X cells None sort_cells = Ret m'.
Proof.
  unfold init. intros H U.
  apply rbind_Ret in H. destruct H as ([] & Hu & H).
  apply rbind_Ret in H. destruct H as (hec & Hh & H).
  destruct (compute_tri_areas_and_ce_ratios K (shifted_dots hec)) as [vol ce] eqn:Ek.
  injection H as <-.
  unfold update_node_coordinates in U. peel_all U.
  apply modify_Done in U. subst m'. simpl in *.
  unfold py_assert in E0.
  destruct ((length X =? length nodes) && _)%bool eqn:El; [ | discriminate].
  apply andb_true_iff in El. destruct El as [El _]. apply Nat.eqb_eq in El.
  rewrite El, Hu. simpl. rewrite E1. simpl.
  unfold compute_tri_areas_and_ce_ratios in Heqp. injection Heqp as <- <-. reflexivity.
Qed.

End MovedNodes.

Lemma cached_queries_repeat_witness :
  exists v,
    get_control_volumes kite_mesh = Done v (after (get_control_volumes kite_mesh)) /\
    get_control_volumes (after (get_control_volumes kite_mesh))
      = Done v (after (get_control_volumes kite_mesh)).
Proof.
  eexists. split; [vm_compute; reflexivity | ].
  apply (proj1 (proj2 (proj2 (@cached_queries_repeat kernel_circumcenter kite_mesh
                                 (after (get_control_volumes kite_mesh)))))).
  vm_compute. reflexivity.
Defined.

Lemma moved_nodes_as_constructed_witness :
  init kernel_area_ce np_argsort rhombus_nodes two_cells None false
  = Ret (after (update_node_coordinates kernel_area_ce rhombus_nodes kite_mesh)).
Proof.
  apply (@moved_nodes_as_constructed kernel_area_ce np_argsort kite_nodes rhombus_nodes two_cells
           false kite_mesh _ tt).
  - vm_compute. reflexivity.
  - vm_compute. reflexivity.
Defined.

(* ------------------------------------------------------------------ *)
(** ** What a flip resets and what the run reports *)

Section FlipReports.

Variable K : tri float -> float * tri float.
Variable srt : list nat -> list nat.

(** A successful [_flip_edges] empties the caches of the derived
    quantities that it does not update itself, so that the next query
    computes them from the flipped mesh. *)
Theorem flip_resets_caches (nf : list bool) (m m' : MeshTri) (u : unit) :
  _flip_edges K srt nf m = Done u m' ->
  _centroids m' = None /\ _edge_lengths m' = None /\ cell_circumcenters m' = None /\
  _control_volumes m' = None /\ _cell_partitions m' = None /\
  _cv_centroids m' = None /\ _surface_areas m' = None /\ subdomains m' = [].
Proof.
  unfold _flip_edges. intros H. peel_all H.
  unfold _update_cell_values in H. peel_all H.
  apply modify_Done in H. subst m'. simpl. auto 10.
Qed.

Lemma flip_loop_passes (fuel : nat) :
  forall (n : nat) (nf : list bool) (m m' : MeshTri) (b : bool),
    flip_loop K srt fuel n nf m = Some (Done b m') ->
    exists k, passes K srt k nf m m' /\ b = (1 <? n + k).
Proof.
  induction fuel as [ | fuel IH]; intros n nf m m' b H.
  - destruct (np_any nf) eqn:E.
    + rewrite flip_loop_out_of_fuel in H by exact E. discriminate.
    + rewrite flip_loop_stop in H by exact E. injection H as <- <-.
      exists 0. simpl. rewrite Nat.add_0_r. auto.
  - destruct (np_any nf) eqn:E.
    + rewrite flip_loop_pass in H by exact E.
      destruct (flip_step K srt nf m) as [r m1 | e m1] eqn:Es; [ | discriminate].
      apply IH in H. destruct H as (k & Hk & ->).
      exists (S k). split; [ | f_equal; lia].
      simpl. split; [exact E | ]. exists r, m1. auto.
    + rewrite flip_loop_stop in H by exact E. injection H as <- <-.
      exists 0. simpl. rewrite Nat.add_0_r. auto.
Qed.

(** [flip_until_delaunay] reports [num_flip_steps > 1]: when it returns
    after [k] passes of its loop the result is [True] exactly when
    [k >= 2].  A run that repairs the mesh in one pass returns [False],
    as does a run that flips nothing. *)
Theorem flip_result_counts_passes (fuel : nat) (m m' : MeshTri) (b : bool) :
  flip_until_delaunay K srt fuel m = Some (Done b m') ->
  (flip_precheck m = Done None m' /\ b = false) \/
  exists nf mp k,
    flip_precheck m = Done (Some nf) mp /\ passes K srt k nf mp m' /\ b = (1 <? k).
Proof.
  unfold flip_until_delaunay. intros H.
  destruct (flip_precheck m) as [[nf | ] mp | e mp] eqn:E; [ | | discriminate].
  - right. apply flip_loop_passes in H. destruct H as (k & Hk & ->).
    exists nf, mp, k. auto.
  - left. injection H as <- <-. auto.
Qed.

End FlipReports.

(** On the kite mesh the run flips the diagonal in one pass and returns
    [False]. *)
Lemma flip_result_counts_passes_witness :
  cells_nodes kite_mesh <> cells_nodes (after_flipping 2 kite_mesh) /\
  ((flip_precheck kite_mesh = Done None (after_flipping 2 kite_mesh) /\ false = false) \/
   exists nf mp k,
     flip_precheck kite_mesh = Done (Some nf) mp /\
     passes kernel_area_ce np_argsort k nf mp (after_flipping 2 kite_mesh) /\ false = (1 <? k)).
Proof.
  split; [vm_compute; discriminate | ].
  apply (@flip_result_counts_passes kernel_area_ce np_argsort 2 kite_mesh).
  vm_compute. reflexivity.
Defined.

Lemma flip_resets_caches_witness :
  _centroids (after (_flip_edges kernel_area_ce np_argsort [true] (after (flip_precheck kite_mesh)))) = None /\
  _edge_lengths (after (_flip_edges kernel_area_ce np_argsort [true] (after (flip_precheck kite_mesh)))) = None /\
  cell_circumcenters (after (_flip_edges kernel_area_ce np_argsort [true] (after (flip_precheck kite_mesh)))) = None /\
  _control_volumes (after (_flip_edges kernel_area_ce np_argsort [true] (after (flip_precheck kite_mesh)))) = None /\
  _cell_partitions (after (_flip_edges kernel_area_ce np_argsort [true] (after (flip_precheck kite_mesh)))) = None /\
  _cv_centroids (after (_flip_edges kernel_area_ce np_argsort [true] (after (flip_precheck kite_mesh)))) = None /\
  _surface_areas (after (_flip_edges kernel_area_ce np_argsort [true] (after (flip_precheck kite_mesh)))) = None /\
  subdomains (after (_flip_edges kernel_area_ce np_argsort [true] (after (flip_precheck kite_mesh)))) = [].
Proof.
  apply (@flip_resets_caches kernel_area_ce np_argsort [true] (after (flip_precheck kite_mesh)) _ tt).
  vm_compute. reflexivity.
Defined.

(* ------------------------------------------------------------------ *)
(** ** The tables that [create_edges] builds *)

Lemma nth_error_flat_3n {A : Type} (n : nat) (t : tri (list A)) (k c : nat) :
  shape3 n t -> k < 3 -> c < n ->
  nth_error (flat_3n t) (k * n + c) = nth_error (tget k t) c.
Proof.
  intros (H0 & H1 & H2) Hk Hc. unfold flat_3n.
  destruct k as [ | [ | [ | k]]]; try lia; simpl.
  - rewrite nth_error_app1 by lia. reflexivity.
  - rewrite nth_error_app2 by lia. rewrite nth_error_app1 by lia. f_equal. lia.
  - rewrite nth_error_app2 by lia. rewrite nth_error_app2 by lia. f_equal. lia.
Qed.

Lemma nth_error_lt {A : Type} (l : list A) (i : nat) (x : A) :
  nth_error l i = Some x -> i < length l.
Proof. intros H. apply nth_error_Some. congruence. Qed.

Lemma nth_error_reshape_3n {A : Type} (n : nat) (l : list A) (k c : nat) (x : A) :
  length l = 3 * n -> k < 3 ->
  nth_error (tget k (reshape_3n n l)) c = Some x ->
  c < n /\ nth_error l (k * n + c) = Some x.
Proof.
  intros Hl Hk H.
  assert (Hc : c < n).
  { apply nth_error_lt in H. unfold reshape_3n in H.
    destruct k as [ | [ | [ | k]]]; try lia; simpl in H;
      rewrite ?length_firstn, ?length_skipn in H; lia. }
  split; [exact Hc | ].
  unfold reshape_3n in H.
  destruct k as [ | [ | [ | k]]]; try lia; simpl in H.
  - rewrite nth_error_firstn in H. apply Nat.ltb_lt in Hc. rewrite Hc in H. exact H.
  - rewrite nth_error_firstn in H. pose proof Hc as Hb. apply Nat.ltb_lt in Hb.
    rewrite Hb in H. rewrite nth_error_skipn in H. rewrite <- H; f_equal; lia.
  - rewrite nth_error_skipn in H. rewrite <- H; f_equal; lia.
Qed.

Lemma nth_error_transpose_3n {A : Type} (t : tri (list A)) (c k : nat) (row : tri A) :
  nth_error (transpose_3n t) c = Some row ->
  nth_error (tget k t) c = Some (tget k row).
Proof.
  unfold transpose_3n. intros H. apply nth_error_map2_inv in H.
  destruct H as (a & [b d] & Ha & Hbd & ->). simpl.
  assert (Hb : nth_error (t1 t) c = Some b /\ nth_error (t2 t) c = Some d).
  { clear Ha. revert c Hbd. generalize (t1 t) (t2 t).
    induction l as [ | x l IH]; intros [ | y l'] [ | c] H; simpl in *; try discriminate.
    - injection H as <- <-. auto.
    - now apply IH. }
  destruct Hb as [Hb Hd].
  destruct k as [ | [ | k]]; simpl; assumption.
Qed.

Lemma sort2_ordered (p : nat * nat) : fst (sort2 p) <= snd (sort2 p).
Proof.
  unfold sort2. destruct (Nat.leb_spec (fst p) (snd p)); simpl; lia.
Qed.

Section CreateEdges.

(** After [create_edges] the three tables agree: the edge that
    [cells["edges"]] names for the half-edge [k] of the cell [c] has the
    two end nodes of that half-edge, in ascending order; every edge is
    listed once; and an edge is a boundary edge exactly when one half-edge
    has it. *)
Theorem create_edges_tables_agree (m m' : MeshTri) (u : unit) :
  well_shaped m ->
  create_edges m = Done u m' ->
  exists e ce bnd,
    edges m' = Some e /\ cells_edges m' = Some ce /\
    is_boundary_edge_individual m' = Some bnd /\
    NoDup e /\ Forall (fun x => fst x <= snd x) e /\
    length ce = length (cells_nodes m) /\ length bnd = length e /\
    (forall c k row a b,
       k < 3 -> nth_error ce c = Some row ->
       nth_error (tget k (fst (idx_hierarchy m))) c = Some a ->
       nth_error (tget k (snd (idx_hierarchy m))) c = Some b ->
       nth_error e (tget k row) = Some (sort2 (a, b))) /\
    (forall g x, nth_error e g = Some x ->
       nth_error bnd g
       = Some (count_eq pair_eqb x (half_edge_rows (idx_hierarchy m)) =? 1)).
Proof.
  intros W H. apply create_edges_spec in H. destruct H as [Hcts ->].
  pose proof (ws_ih0 W) as S0. pose proof (ws_ih1 W) as S1.
  pose proof S0 as (L0 & _).
  set (n := length (cells_nodes m)) in *.
  assert (Hl : length (edge_ids m) = 3 * n).
  { rewrite edge_ids_length. now apply half_edge_rows_length. }
  do 3 eexists. simpl.
  split; [reflexivity | ]. split; [reflexivity | ]. split; [reflexivity | ].
  rewrite L0.
  split; [apply rows_NoDup | ].
  split.
  { apply Forall_forall. intros x Hx. unfold unique_rows in Hx. simpl in Hx.
    apply (proj1 (rows_mem _ _)) in Hx. unfold half_edge_rows in Hx.
    apply in_map_iff in Hx. destruct Hx as (p & <- & _). apply sort2_ordered. }
  split.
  { apply length_transpose_3n. now apply reshape_3n_shape. }
  split.
  { unfold edge_counts, unique_rows. simpl. now rewrite !length_map. }
  split.
  - intros c k row a b Hk Hrow Ha Hb.
    apply (@nth_error_transpose_3n _ _ c k) in Hrow.
    apply (@nth_error_reshape_3n _ _ _ _ _ _ Hl Hk) in Hrow. destruct Hrow as [Hc Hid].
    unfold edge_ids, unique_rows in Hid. simpl in Hid.
    rewrite nth_error_map in Hid.
    destruct (nth_error (half_edge_rows (idx_hierarchy m)) (k * n + c)) as [x | ] eqn:Hx;
      [ | discriminate].
    simpl in Hid. injection Hid as Hg. symmetry in Hg.
    unfold half_edge_rows in Hx. rewrite nth_error_map in Hx.
    destruct (nth_error (combine (flat_3n (fst (idx_hierarchy m)))
                                 (flat_3n (snd (idx_hierarchy m)))) (k * n + c))
      as [[a' b'] | ] eqn:Hab; [ | discriminate].
    simpl in Hx. injection Hx as <-.
    assert (Ha' : nth_error (flat_3n (fst (idx_hierarchy m))) (k * n + c) = Some a').
    { revert Hab. generalize (flat_3n (fst (idx_hierarchy m)))
                             (flat_3n (snd (idx_hierarchy m))) (k * n + c).
      induction l as [ | y l IH]; intros [ | z l'] [ | j] Hj; simpl in *;
        try discriminate.
      - now injection Hj as -> _.
      - eapply IH; eauto. }
    assert (Hb' : nth_error (flat_3n (snd (idx_hierarchy m))) (k * n + c) = Some b').
    { revert Hab. generalize (flat_3n (fst (idx_hierarchy m)))
                             (flat_3n (snd (idx_hierarchy m))) (k * n + c).
      induction l as [ | y l IH]; intros [ | z l'] [ | j] Hj; simpl in *;
        try discriminate.
      - now injection Hj as _ ->.
      - eapply IH; eauto. }
    rewrite (@nth_error_flat_3n _ _ _ _ _ S0 Hk Hc) in Ha'.
    rewrite (@nth_error_flat_3n _ _ _ _ _ S1 Hk Hc) in Hb'.
    assert (a' = a) by congruence. assert (b' = b) by congruence. subst a' b'.
    unfold unique_rows. simpl. rewrite Hg.
    apply index_of_nth; [exact pair_eqb_eq | ].
    apply rows_mem. unfold half_edge_rows. apply in_map.
    eapply nth_error_In; eauto.
  - intros g x Hx. unfold edge_counts, unique_rows in *. simpl in *.
    rewrite map_map. now rewrite (map_nth_error _ _ _ Hx).
Qed.

End CreateEdges.

Lemma create_edges_tables_agree_witness :
  exists e ce bnd,
    edges (after (create_edges kite_mesh)) = Some e /\
    cells_edges (after (create_edges kite_mesh)) = Some ce /\
    is_boundary_edge_individual (after (create_edges kite_mesh)) = Some bnd /\
    NoDup e /\ Forall (fun x => fst x <= snd x) e /\
    length ce = length (cells_nodes kite_mesh) /\ length bnd = length e /\
    (forall c k row a b,
       k < 3 -> nth_error ce c = Some row ->
       nth_error (tget k (fst (idx_hierarchy kite_mesh))) c = Some a ->
       nth_error (tget k (snd (idx_hierarchy kite_mesh))) c = Some b ->
       nth_error e (tget k row) = Some (sort2 (a, b))) /\
    (forall g x, nth_error e g = Some x ->
       nth_error bnd g
       = Some (count_eq pair_eqb x (half_edge_rows (idx_hierarchy kite_mesh)) =? 1)).
Proof.
  apply (@create_edges_tables_agree kite_mesh (after (create_edges kite_mesh)) tt).
  - exact (cs_shaped (proj1 (init_constructed _ _ _ _ _ _ kite_mesh_constructed))).
  - vm_compute. reflexivity.
Defined.

(* ------------------------------------------------------------------ *)
(** ** The boundary vertices *)

Lemma where_from_In (mask : list bool) (i j : nat) :
  In j (where_from i mask) <-> exists c, j = i + c /\ nth_error mask c = Some true.
Proof.
  revert i. induction mask as [ | b mask IH]; intros i; simpl.
  - split; [tauto | intros (c & _ & H); destruct c; discriminate].
  - assert (Hrest : In j (where_from (S i) mask) <->
                    exists c, j = i + S c /\ nth_error mask c = Some true).
    { rewrite IH. split; intros (c & -> & H); exists c; split; auto; lia. }
    destruct b; simpl; rewrite Hrest; split.
    + intros [<- | (c & -> & H)]; [exists 0; split; [lia | reflexivity] | exists (S c); auto].
    + intros ([ | c] & -> & H); [left; lia | right; exists c; auto].
    + intros (c & -> & H). exists (S c). auto.
    + intros ([ | c] & -> & H); [discriminate | exists c; auto].
Qed.

Lemma where_from_sorted (mask : list bool) (i : nat) :
  StronglySorted lt (where_from i mask).
Proof.
  revert i. induction mask as [ | b mask IH]; intros i; simpl; [constructor | ].
  destruct b; [ | apply IH].
  constructor; [apply IH | ].
  apply Forall_forall. intros j Hj. apply where_from_In in Hj.
  destruct Hj as (c & -> & _). lia.
Qed.

Lemma np_where_In (mask : list bool) (j : nat) :
  In j (np_where mask) <-> nth_error mask j = Some true.
Proof.
  unfold np_where. rewrite where_from_In. split.
  - intros (c & -> & H). exact H.
  - intros H. exists j. auto.
Qed.

Lemma mask_aux_In_inv {A : Type} (l : list A) (mask : list bool) (x : A) :
  In x (mask_aux l mask) ->
  exists c, nth_error l c = Some x /\ nth_error mask c = Some true.
Proof.
  revert mask. induction l as [ | y l IH]; intros [ | b mask]; simpl; try tauto.
  destruct b; simpl.
  - intros [<- | H]; [exists 0; auto | ].
    destruct (IH _ H) as (c & Hc & Hm). exists (S c). auto.
  - intros H. destruct (IH _ H) as (c & Hc & Hm). exists (S c). auto.
Qed.

(** The end nodes of the half-edges that a (3, n) mask selects. *)
Lemma masked_nodes_In (t : tri (list nat)) (mask : tri (list bool)) (i : nat) :
  In i (mask_aux (t0 t) (t0 mask) ++ mask_aux (t1 t) (t1 mask)
        ++ mask_aux (t2 t) (t2 mask)) <->
  exists k c, k < 3 /\ nth_error (tget k t) c = Some i /\
              nth_error (tget k mask) c = Some true.
Proof.
  rewrite !in_app_iff. split.
  - intros [H | [H | H]]; apply mask_aux_In_inv in H; destruct H as (c & Hc & Hm);
      [exists 0, c | exists 1, c | exists 2, c]; simpl; auto.
  - intros (k & c & Hk & Hc & Hm).
    destruct k as [ | [ | [ | k]]]; try lia; simpl in *;
      [left | right; left | right; right]; eapply mask_aux_nth; eauto.
Qed.

(** [get_boundary_vertices] returns, in ascending order and without
    repetition, exactly the nodes that are an end of a half-edge marked in
    [is_boundary_edge]; it re-marks the boundary on the way. *)
Theorem boundary_vertices_are_end_nodes (m : MeshTri) (mask : tri (list bool)) :
  well_shaped m -> edges m <> None -> is_boundary_edge m = Some mask ->
  exists vs,
    get_boundary_vertices m = Done vs (install_boundary m mask) /\
    StronglySorted lt vs /\
    forall i,
      In i vs <->
      exists k c, k < 3 /\ nth_error (tget k mask) c = Some true /\
                  (nth_error (tget k (fst (idx_hierarchy m))) c = Some i \/
                   nth_error (tget k (snd (idx_hierarchy m))) c = Some i).
Proof.
  intros W He Hm.
  exists (np_where (boundary_marks m mask)). split; [ | split].
  - unfold get_boundary_vertices. unfold mbind at 1.
    rewrite (mark_boundary_installs W He Hm). reflexivity.
  - apply where_from_sorted.
  - intros i. rewrite np_where_In. unfold boundary_marks.
    match goal with |- context [put_const ?l ?idx true] =>
      destruct (@put_aux_marks l idx) as (r & Hr & Hlen & Hnth) end.
    { rewrite repeat_length.
      pose proof (ws_ih0_range W) as R0. pose proof (ws_ih1_range W) as R1.
      apply flat_3n_Forall in R0. apply flat_3n_Forall in R1.
      rewrite !Forall_app. repeat split; apply mask_aux_Forall; tauto. }
    rewrite Hr, Hnth. rewrite repeat_length.
    pose proof (ws_ih0_range W) as R0. pose proof (ws_ih1_range W) as R1.
    rewrite Forall_forall in R0, R1.
    split.
    + intros [H | [H _]]; [now apply nth_error_repeat_false in H | ].
      apply in_app_iff in H. destruct H as [H | H]; apply masked_nodes_In in H;
        destruct H as (k & c & Hk & Hc & Hmk); exists k, c; auto.
    + intros (k & c & Hk & Hmk & [Hc | Hc]); right.
      * split; [apply in_app_iff; left; apply masked_nodes_In; exists k, c; auto | ].
        apply R0. unfold flat_3n. rewrite !in_app_iff.
        destruct k as [ | [ | [ | k]]]; try lia; simpl in Hc;
          [left | right; left | right; right]; eapply nth_error_In; eauto.
      * split; [apply in_app_iff; right; apply masked_nodes_In; exists k, c; auto | ].
        apply R1. unfold flat_3n. rewrite !in_app_iff.
        destruct k as [ | [ | [ | k]]]; try lia; simpl in Hc;
          [left | right; left | right; right]; eapply nth_error_In; eauto.
Qed.

(** On [cap_mesh] with its edges built, the boundary vertices are the
    nodes 1 to 5; node 0 is interior. *)
Lemma boundary_vertices_are_end_nodes_witness :
  get_boundary_vertices (install_edges cap_mesh)
  = Done [1; 2; 3; 4; 5]
      (install_boundary (install_edges cap_mesh)
         (Tri [true; false; true; true; true] [false; false; false; false; false]
              [true; false; false; false; false])) /\
  exists vs,
    get_boundary_vertices (install_edges cap_mesh)
    = Done vs
        (install_boundary (install_edges cap_mesh)
           (Tri [true; false; true; true; true] [false; false; false; false; false]
                [true; false; false; false; false])) /\
    StronglySorted lt vs /\
    forall i,
      In i vs <->
      exists k c,
        k < 3 /\
        nth_error (tget k (Tri [true; false; true; true; true]
                               [false; false; false; false; false]
                               [true; false; false; false; false])) c = Some true /\
        (nth_error (tget k (fst (idx_hierarchy (install_edges cap_mesh)))) c = Some i \/
         nth_error (tget k (snd (idx_hierarchy (install_edges cap_mesh)))) c = Some i).
Proof.
  split; [vm_compute; reflexivity | ].
  apply (@boundary_vertices_are_end_nodes (install_edges cap_mesh)).
  - apply install_edges_shaped.
    exact (cs_shaped (proj1 (init_constructed _ _ _ _ _ _ cap_mesh_constructed))).
  - discriminate.
  - vm_compute. reflexivity.
Defined.

(* ------------------------------------------------------------------ *)
(** ** The cell table with [sort_cells=True] *)

Lemma sort3_ascending (c : tri nat) :
  t0 (sort3 c) <= t1 (sort3 c) /\ t1 (sort3 c) <= t2 (sort3 c).
Proof.
  destruct c as [a b d]. unfold sort3. simpl.
  repeat match goal with
         | |- context [?x <=? ?y] => destruct (Nat.leb_spec x y); simpl
         end; lia.
Qed.

Lemma sort3_same_nodes (c : tri nat) : Permutation (tlist (sort3 c)) (tlist c).
Proof.
  apply (Permutation_count_occ Nat.eq_dec). intros x.
  destruct c as [a b d]. unfold sort3, tlist. simpl.
  repeat match goal with
         | |- context [?x <=? ?y] => destruct (Nat.leb_spec x y); simpl
         end;
  repeat match goal with
         | |- context [Nat.eq_dec ?u ?v] => destruct (Nat.eq_dec u v); simpl
         end; lia.
Qed.

Section SortedCells.

Variable K : tri float -> float * tri float.
Variable srt : list nat -> list nat.
Hypothesis srt_sorts : sorts srt.

(** With [sort_cells=True] the constructor keeps the cells up to the
    order of the rows and of the nodes within a row: the table of the
    object is a permutation of the input rows, each sorted; every row is
    ascending and the rows are ascending in their first node.  This holds
    whatever order [numpy.argsort] gives to rows with the same first
    node. *)
Theorem sorted_cells_table (nodes : list point) (cells : list (tri nat))
    (mode : option fcc_mode) (m : MeshTri) :
  init K srt nodes cells mode true = Ret m ->
  Permutation (cells_nodes m) (map sort3 cells) /\
  Forall (fun c => Permutation (tlist (sort3 c)) (tlist c)) cells /\
  Forall (fun c => t0 c <= t1 c /\ t1 c <= t2 c) (cells_nodes m) /\
  StronglySorted (fun a b => t0 a <= t0 b) (cells_nodes m).
Proof.
  intros H. apply init_constructed in H. destruct H as (_ & _ & _ & ->).
  unfold prepare_cells.
  set (sorted := map sort3 cells).
  assert (P : Permutation
                (map (fun i => nth i sorted (Tri 0 0 0)) (srt (map (@t0 nat) sorted)))
                sorted).
  { apply sorts_reorders; [exact srt_sorts | apply length_map]. }
  destruct (srt_sorts (map (@t0 nat) sorted)) as [Hperm S].
  split; [exact P | ]. split; [ | split].
  - apply Forall_forall. intros c _. apply sort3_same_nodes.
  - apply (Permutation_Forall (Permutation_sym P)).
    unfold sorted. apply Forall_map, Forall_forall. intros c _. apply sort3_ascending.
  - assert (Hlt : Forall (fun p => p < length sorted) (srt (map (@t0 nat) sorted))).
    { apply (Permutation_Forall (Permutation_sym Hperm)).
      rewrite length_map. apply Forall_forall. intros p Hp. apply in_seq in Hp. lia. }
    clear Hperm P. revert S Hlt. generalize (srt (map (@t0 nat) sorted)). intros ps S Hlt.
    induction ps as [ | p ps IH]; simpl; [constructor | ].
    inversion S as [ | ? ? S' Hp]; subst. inversion Hlt as [ | ? ? Hp0 Hlt']; subst.
    constructor; [now apply IH | ].
    apply Forall_map, Forall_forall. intros q Hq.
    rewrite Forall_map, Forall_forall in Hp. specialize (Hp q Hq).
    rewrite Forall_forall in Hlt'. specialize (Hlt' q Hq).
    rewrite <- !(map_nth (@t0 nat)) . exact Hp.
Qed.

End SortedCells.

Lemma sorted_kite_mesh_constructed :
  init kernel_area_ce np_argsort kite_nodes shuffled_cells None true = Ret sorted_kite_mesh.
Proof. vm_compute. reflexivity. Qed.

Lemma sorted_cells_table_witness :
  cells_nodes sorted_kite_mesh = [Tri 0 2 3; Tri 0 1 2] /\
  Permutation (cells_nodes sorted_kite_mesh) (map sort3 shuffled_cells) /\
  Forall (fun c => Permutation (tlist (sort3 c)) (tlist c)) shuffled_cells /\
  Forall (fun c => t0 c <= t1 c /\ t1 c <= t2 c) (cells_nodes sorted_kite_mesh) /\
  StronglySorted (fun a b => t0 a <= t0 b) (cells_nodes sorted_kite_mesh).
Proof.
  split; [vm_compute; reflexivity | ].
  exact (@sorted_cells_table kernel_area_ce np_argsort np_argsort_sorts
           kite_nodes shuffled_cells None
           sorted_kite_mesh sorted_kite_mesh_constructed).
Defined.

(* ------------------------------------------------------------------ *)
(** ** Ratios by index and control volumes by node *)

Lemma take_out_of_range {A : Type} (l : list A) (idx : list nat) :
  ~ Forall (fun i => i < length l) idx -> take l idx = Err IndexError.
Proof.
  unfold take. induction idx as [ | i idx IH]; simpl; intros H.
  - exfalso. apply H. constructor.
  - unfold getitem at 1. destruct (nth_error l i) as [x | ] eqn:E; simpl; [ | reflexivity].
    rewrite IH; [reflexivity | ].
    intros Hf. apply H. constructor; [ | exact Hf].
    apply nth_error_Some. congruence.
Qed.

(** [get_ce_ratios(cell_ids)] indexes the first axis of the (3, n) array:
    an index below 3 selects the row of that local edge for all cells, and
    an index of 3 or more raises [IndexError] however many cells there
    are.  The object is not changed. *)
Theorem ce_ratios_by_index_selects_rows (m : MeshTri) (cell_ids : list nat) :
  (Forall (fun i => i < 3) cell_ids ->
   get_ce_ratios_at cell_ids m
   = Done (map (fun k => tget k (ce_ratios_per_half_edge m)) cell_ids) m) /\
  (~ Forall (fun i => i < 3) cell_ids ->
   get_ce_ratios_at cell_ids m = Fail IndexError m).
Proof.
  unfold get_ce_ratios_at, mbind, attr, lift. split; intros H.
  - rewrite (@take_map_total _ (tlist (ce_ratios_per_half_edge m)) cell_ids [] H).
    f_equal. apply map_ext_in. intros k Hk.
    rewrite Forall_forall in H. specialize (H k Hk).
    destruct k as [ | [ | [ | k]]]; try lia; reflexivity.
  - rewrite take_out_of_range; [reflexivity | exact H].
Qed.

Lemma add_at_length (target : list float) (idx : list nat) (vals r : list float) :
  add_at target idx vals = Ret r -> length r = length target.
Proof.
  unfold add_at. destruct (length idx =? length vals); [ | discriminate].
  intros H. now apply add_at_aux_spec in H.
Qed.

(** [get_control_volumes] returns one value per node, with or without a
    flat cell corrector. *)
Theorem control_volumes_one_per_node (m m' : MeshTri) (cv : list float) :
  _control_volumes m = None ->
  get_control_volumes m = Done cv m' ->
  length cv = length (node_coords m) /\ node_coords m' = node_coords m /\
  cells_nodes m' = cells_nodes m.
Proof.
  unfold get_control_volumes. intros Hn H. peel H. rewrite Hn in H.
  peel H. peel_all H.
  assert (F : node_coords m0 = node_coords m /\ cells_nodes m0 = cells_nodes m).
  { unfold get_cell_partitions in E. peel E.
    destruct (_cell_partitions m).
    - apply mret_Done in E. destruct E as [_ ->]. auto.
    - peel_all E. apply mret_Done in E. destruct E as [_ ->]. auto. }
  destruct F as [F1 F2].
  destruct (fcc m0) as [f | ].
  - peel_all H. apply mret_Done in H. destruct H as [-> ->].
    repeat match goal with
           | E : add_at _ _ _ = Ret _ |- _ => apply add_at_length in E
           end.
    unfold zeros in *. rewrite repeat_length in *. simpl in *.
    repeat split; congruence.
  - apply mret_Done in H. destruct H as [-> ->].
    repeat match goal with
           | E : add_at _ _ _ = Ret _ |- _ => apply add_at_length in E
           end.
    unfold zeros in *. rewrite repeat_length in *. simpl in *.
    repeat split; congruence.
Qed.

Lemma control_volumes_one_per_node_witness :
  exists cv,
    get_control_volumes cap_mesh = Done cv (after (get_control_volumes cap_mesh)) /\
    length cv = length (node_coords cap_mesh) /\
    node_coords (after (get_control_volumes cap_mesh)) = node_coords cap_mesh /\
    cells_nodes (after (get_control_volumes cap_mesh)) = cells_nodes cap_mesh.
Proof.
  eexists. split; [vm_compute; reflexivity | ].
  apply (@control_volumes_one_per_node cap_mesh (after (get_control_volumes cap_mesh))).
  - reflexivity.
  - vm_compute. reflexivity.
Defined.

Lemma ce_ratios_by_index_selects_rows_witness :
  get_ce_ratios_at [2; 0] cap_mesh
  = Done [t2 (ce_ratios_per_half_edge cap_mesh); t0 (ce_ratios_per_half_edge cap_mesh)]
      cap_mesh /\
  get_ce_ratios_at [4] cap_mesh = Fail IndexError cap_mesh.
Proof.
  split.
  - apply (proj1 (ce_ratios_by_index_selects_rows cap_mesh [2; 0])).
    repeat constructor.
  - apply (proj2 (ce_ratios_by_index_selects_rows cap_mesh [4])).
    intros H. inversion H. lia.
Defined.
